(** * jira-assign-version-action: the update engine of [src/jira.ts]

    A shallow embedding of [issueAlreadyHasVersion], [requestWithRetry] and
    [assignVersionToIssues], and the properties of the engine proved on it;
    then the two readers of the list of issues of [src/main.ts],
    [readIssuesFromFile] and [readIssuesFromInput].

    - JavaScript values are modelled as far as the code looks at them: the
      values [JSON.parse] can return ([json]), numbers ([number], with [NaN]
      and the infinities), [undefined] as [None].
    - An [async] function is a tree of its effects ([Async]): the requests
      and sleeps it awaits, the entries it pushes to the shared report, and
      how it ends (returns or throws).
    - A run of [assignVersionToIssues] is a pool of such tasks advanced one
      await at a time in any order ([fire], [run]). The [p-limit] package
      is not part of the source: [pLimit] is its check of the limit, and
      the limiter, which decides when a queued task starts, is modelled
      from the spec ([admits], [run_limited]). The pool leaves the start
      of a task open, and a run under the limiter is one of its runs.
    - Texts are byte strings. Logging ([core.info], [core.warning],
      [core.debug]) has no part in any result and is left out. *)

From Stdlib Require Import ZArith QArith String Ascii DecimalString DecimalPos Lia.
From stdpp Require Import base option list gmap strings.

Set Warnings "-register-all".
Set Default Proof Using "Type".
Local Open Scope string_scope.
Local Open Scope list_scope.
Local Open Scope Z_scope.

(** ** JavaScript values *)

(** A thrown value: an error object, of which the code only ever reads
    [err.message]. *)
Record Error : Type := mkError { message : string }.

(** The engine's own [TypeError] for reading a property of [null] or
    [undefined], or calling something that is not a function. *)
Definition TypeError (what : string) : Error := mkError what.

(** A synchronous computation either returns or throws. *)
Inductive Result (A : Type) : Type :=
| Returns (a : A)
| Throws (e : Error).
Arguments Returns {A} a.
Arguments Throws {A} e.

(** A JavaScript number: an exact rational stands for a finite double.
    Rounding to the nearest double and overflow to an infinity are not
    modelled: a value computed here is the value the code computes when
    the exact result is a double, as it is for integers of up to 53 bits.
    A property that depends on a computed value is stated within such
    bounds. *)
Inductive number : Type :=
| NaN
| Infinite (negative : bool)
| Finite (q : Q).

Definition of_Z (z : Z) : number := Finite (inject_Z z).

Definition is_zero (q : Q) : bool := Qnum q =? 0.

(** [a * b] on numbers: the exact product, which is the product of the
    code when it is a double. *)
Definition times (a b : number) : number :=
  match a, b with
  | NaN, _ | _, NaN => NaN
  | Infinite s, Infinite s' => Infinite (xorb s s')
  | Infinite s, Finite q | Finite q, Infinite s =>
      if is_zero q then NaN else Infinite (xorb s (Qnum q <? 0))
  | Finite p, Finite q => Finite (Qred (p * q))
  end.

(** [Math.pow(2, attempt)] for an integer [attempt >= 0]. *)
Definition pow2 (attempt : Z) : number := of_Z (2 ^ attempt).

(** The values [JSON.parse] returns. *)
Inductive json : Type :=
| JNull
| JBool (b : bool)
| JNumber (q : Q)
| JString (s : string)
| JArray (l : list json)
| JObject (m : gmap string json).

(** What a property read or a variable may hold: [None] is [undefined]. *)
Abbreviation any := (option json).
Abbreviation undefined := (@None json).

(** [ToBoolean]. *)
Definition truthy (v : any) : bool :=
  match v with
  | None | Some JNull => false
  | Some (JBool b) => b
  | Some (JNumber q) => negb (is_zero q)
  | Some (JString s) => negb (String.eqb s "")
  | Some (JArray _) | Some (JObject _) => true
  end.

(** [v.p] and [v[p]], for the property names the engine reads ([fields],
    [fixVersions], [affectedVersions], [id], [name]), none of which a
    prototype defines: on an object its own property, on [null] and
    [undefined] a [TypeError], on anything else [undefined]. *)
Definition prop (v : any) (p : string) : Result any :=
  match v with
  | None => Throws (TypeError ("Cannot read properties of undefined (reading '" +:+ p +:+ "')"))
  | Some JNull => Throws (TypeError ("Cannot read properties of null (reading '" +:+ p +:+ "')"))
  | Some (JObject m) => Returns (m !! p)
  | Some _ => Returns undefined
  end.

(** [x === version] for a string [version]. *)
Definition strict_eq_string (x : any) (version : string) : bool :=
  match x with
  | Some (JString s) => String.eqb s version
  | _ => false
  end.

(** ** [Number(text)]

    [StringToNumber] on the UTF-8 bytes of the text: white space and line
    terminators trimmed, the empty text is [0], then an optionally signed
    [Infinity] or decimal literal with optional fraction and exponent, or
    an unsigned [0x], [0o] or [0b] literal; anything else is [NaN]. The
    value is the exact one of the literal, which is the number the code
    gets when that value is a double (an integer of up to 53 bits, say);
    the rounding of other literals to the nearest double is not
    modelled. *)
Module StringToNumber.

(** White space and line terminators of one byte: tab, line feed, vertical
    tab, form feed, carriage return and space. *)
Definition is_space (c : ascii) : bool :=
  let n := Z.of_nat (nat_of_ascii c) in ((9 <=? n) && (n <=? 13)) || (n =? 32).

(** White space and line terminators of more than one byte: U+00A0,
    and U+1680, U+2000 to U+200A, U+2028, U+2029, U+202F, U+205F, U+3000,
    U+FEFF. *)
Definition is_space2 (a b : ascii) : bool :=
  let a := Z.of_nat (nat_of_ascii a) in
  let b := Z.of_nat (nat_of_ascii b) in
  (a =? 194) && (b =? 160).

Definition is_space3 (a b c : ascii) : bool :=
  let a := Z.of_nat (nat_of_ascii a) in
  let b := Z.of_nat (nat_of_ascii b) in
  let c := Z.of_nat (nat_of_ascii c) in
  ((a =? 225) && (b =? 154) && (c =? 128))
  || ((a =? 226) && (b =? 128)
      && (((128 <=? c) && (c <=? 138)) || (c =? 168) || (c =? 169) || (c =? 175)))
  || ((a =? 226) && (b =? 129) && (c =? 159))
  || ((a =? 227) && (b =? 128) && (c =? 128))
  || ((a =? 239) && (b =? 187) && (c =? 191)).

(** [s.trimStart()], on the characters of [s]. *)
Fixpoint trim_start (l : list ascii) : list ascii :=
  match l with
  | a :: l1 =>
      if is_space a then trim_start l1
      else match l1 with
           | b :: l2 =>
               if is_space2 a b then trim_start l2
               else match l2 with
                    | c :: l3 => if is_space3 a b c then trim_start l3 else l
                    | [] => l
                    end
           | [] => l
           end
  | [] => []
  end.

(** [s.trimEnd()], on the characters of [s] from the last one back. *)
Fixpoint trim_end_rev (l : list ascii) : list ascii :=
  match l with
  | c :: l1 =>
      if is_space c then trim_end_rev l1
      else match l1 with
           | b :: l2 =>
               if is_space2 b c then trim_end_rev l2
               else match l2 with
                    | a :: l3 => if is_space3 a b c then trim_end_rev l3 else l
                    | [] => l
                    end
           | [] => l
           end
  | [] => []
  end.

(** [StrWhiteSpace] on both sides. *)
Definition trim (l : list ascii) : list ascii :=
  rev (trim_end_rev (rev (trim_start l))).

Definition digit_of (base : Z) (c : ascii) : option Z :=
  let n := Z.of_nat (nat_of_ascii c) in
  let d := if (48 <=? n) && (n <=? 57) then n - 48
           else if (97 <=? n) && (n <=? 102) then n - 87
           else if (65 <=? n) && (n <=? 70) then n - 55
           else base in
  if d <? base then Some d else None.

(** The value of a run of digits, which may be empty. *)
Fixpoint digits (base : Z) (l : list ascii) (acc : Z) : option Z :=
  match l with
  | [] => Some acc
  | c :: l' => d ← digit_of base c; digits base l' (acc * base + d)
  end.

Definition nonempty_digits (base : Z) (l : list ascii) : option Z :=
  match l with [] => None | _ => digits base l 0 end.

(** Split at the first character satisfying [p]. *)
Fixpoint split_at (p : ascii → bool) (l : list ascii) : list ascii * option (list ascii) :=
  match l with
  | [] => ([], None)
  | c :: l' =>
      if p c then ([], Some l')
      else let '(a, b) := split_at p l' in (c :: a, b)
  end.

Definition is_e (c : ascii) : bool := Ascii.eqb c "e" || Ascii.eqb c "E".
Definition is_dot (c : ascii) : bool := Ascii.eqb c ".".

(** [ExponentPart] without its [e]: an optionally signed run of digits. *)
Definition exponent (l : list ascii) : option Z :=
  match l with
  | c :: l' =>
      if Ascii.eqb c "-" then Z.opp <$> nonempty_digits 10 l'
      else if Ascii.eqb c "+" then nonempty_digits 10 l'
      else nonempty_digits 10 l
  | [] => None
  end.

(** [DecimalDigits . DecimalDigits? | . DecimalDigits | DecimalDigits]. *)
Definition mantissa (l : list ascii) : option Q :=
  let '(int_part, frac) := split_at is_dot l in
  let frac_part := default [] frac in
  match int_part, frac_part with
  | [], [] => None
  | _, _ =>
      i ← digits 10 int_part 0;
      f ← digits 10 frac_part 0;
      let scale := 10 ^ Z.of_nat (length frac_part) in
      Some (Qmake (i * scale + f) (Z.to_pos scale))
  end.

Definition unsigned_decimal (l : list ascii) : option number :=
  if String.eqb (string_of_list_ascii l) "Infinity" then Some (Infinite false)
  else
    let '(m, e) := split_at is_e l in
    q ← mantissa m;
    match e with
    | None => Some (Finite (Qred q))
    | Some e => x ← exponent e; Some (Finite (Qred (q * Qpower (inject_Z 10) x)))
    end.

Definition negate (n : number) : number :=
  match n with
  | NaN => NaN
  | Infinite s => Infinite (negb s)
  | Finite q => Finite (Qred (Qopp q))
  end.

Definition signed_decimal (l : list ascii) : option number :=
  match l with
  | c :: l' =>
      if Ascii.eqb c "-" then negate <$> unsigned_decimal l'
      else if Ascii.eqb c "+" then unsigned_decimal l'
      else unsigned_decimal l
  | [] => None
  end.

Definition non_decimal (l : list ascii) : option number :=
  match l with
  | z :: x :: l' =>
      if Ascii.eqb z "0" then
        if Ascii.eqb x "x" || Ascii.eqb x "X" then of_Z <$> nonempty_digits 16 l'
        else if Ascii.eqb x "o" || Ascii.eqb x "O" then of_Z <$> nonempty_digits 8 l'
        else if Ascii.eqb x "b" || Ascii.eqb x "B" then of_Z <$> nonempty_digits 2 l'
        else None
      else None
  | _ => None
  end.

Definition Number (text : string) : number :=
  match trim (list_ascii_of_string text) with
  | [] => of_Z 0
  | l =>
      match non_decimal l with
      | Some n => n
      | None => default NaN (signed_decimal l)
      end
  end.

End StringToNumber.

Abbreviation Number := StringToNumber.Number.

(** ** The idempotency check *)

(** [existing.some((v) => versionIsId ? v.id === version : v.name === version)]
    on the elements of an array, left to right, stopping at the first match. *)
Fixpoint some_version (l : list json) (version : string) (versionIsId : bool) : Result bool :=
  match l with
  | [] => Returns false
  | v :: l' =>
      match prop (Some v) (if versionIsId then "id" else "name") with
      | Throws e => Throws e
      | Returns x =>
          if strict_eq_string x version then Returns true
          else some_version l' version versionIsId
      end
  end.

Definition issueAlreadyHasVersion
    (issueData : json) (versionField version : string) (versionIsId : bool) : Result bool :=
  match prop (Some issueData) "fields" with
  | Throws e => Throws e
  | Returns fields =>
      let held := if truthy fields
                  then match prop fields versionField with
                       | Returns x => x
                       | Throws _ => undefined
                       end
                  else undefined in
      let existing := if truthy held then held else Some (JArray []) in
      match existing with
      | Some (JArray l) => some_version l version versionIsId
      | _ => Throws (TypeError "existing.some is not a function")
      end
  end.

(** ** Requests, responses and asynchronous tasks *)

(** What [client.request(method, url, data, headers)] is called with. [data]
    is the value whose JSON text is sent, [undefined] for a request without
    body. The three headers (content type, basic authorization, accept) are
    the same constants on every request of a run and are left out. *)
Record Request : Type := mkRequest {
  method : string;
  url : string;
  data : any
}.

(** What the engine reads of a response: [res.message.statusCode],
    [res.message.headers] and the text [res.readBody()] resolves to. *)
Record Response : Type := mkResponse {
  statusCode : option Z;
  headers : option (gmap string string);
  readBody : string
}.

(** How an awaited [client.request] settles. *)
Inductive Reply : Type :=
| Resolved (res : Response)
| Rejected (err : Error).

(** [type Failure = { issue: string; error: string }]. *)
Record Failure : Type := mkFailure { issue : string; error : string }.

(** One [push] onto one of the three arrays of the report. *)
Inductive Entry : Type :=
| Updated (issue : string)
| Skipped (issue : string)
| Failed (f : Failure).

(** An [async] function body as the tree of what it does: it returns,
    throws, awaits a request (and goes on with the reply), awaits a sleep,
    or pushes an entry. *)
Inductive Async (A : Type) : Type :=
| Return (a : A)
| Throw (e : Error)
| AwaitRequest (rq : Request) (k : Reply → Async A)
| AwaitSleep (ms : number) (k : Async A)
| Push (e : Entry) (k : Async A).
Arguments Return {A} a.
Arguments Throw {A} e.
Arguments AwaitRequest {A} rq k.
Arguments AwaitSleep {A} ms k.
Arguments Push {A} e k.

(** [const x = await t; f x]. *)
Fixpoint bind {A B : Type} (t : Async A) (f : A → Async B) : Async B :=
  match t with
  | Return a => f a
  | Throw e => Throw e
  | AwaitRequest rq k => AwaitRequest rq (fun reply => bind (k reply) f)
  | AwaitSleep ms k => AwaitSleep ms (bind k f)
  | Push e k => Push e (bind k f)
  end.

#[export] Instance Async_ret : MRet Async := fun A a => Return a.
#[export] Instance Async_bind : MBind Async := fun A B f t => bind t f.

(** [try { t } catch (err) { handler err }]. *)
Fixpoint try_catch {A : Type} (t : Async A) (handler : Error → Async A) : Async A :=
  match t with
  | Return a => Return a
  | Throw e => handler e
  | AwaitRequest rq k => AwaitRequest rq (fun reply => try_catch (k reply) handler)
  | AwaitSleep ms k => AwaitSleep ms (try_catch k handler)
  | Push e k => Push e (try_catch k handler)
  end.

(** ** [requestWithRetry] *)

(** [res.message.statusCode || 0]. *)
Definition status_of (res : Response) : Z :=
  match statusCode res with
  | Some status => status
  | None => 0
  end.

Definition is_2xx (status : Z) : bool := (200 <=? status) && (status <? 300).

(** [a || b] on header values: the empty text and [undefined] are falsy. *)
Definition nonempty (v : option string) : bool :=
  match v with
  | Some s => negb (String.eqb s "")
  | None => false
  end.

Definition or_else (a b : option string) : option string :=
  if nonempty a then a else b.

(** [res.message.headers &&
      (res.message.headers['retry-after'] || res.message.headers['Retry-After'])]. *)
Definition retryAfterHeader (res : Response) : option string :=
  match headers res with
  | Some h => or_else (h !! "retry-after") (h !! "Retry-After")
  | None => None
  end.

(** [retryAfterHeader ? Number(retryAfterHeader) : Math.pow(2, attempt)]. *)
Definition waitSec (res : Response) (attempt : Z) : number :=
  if nonempty (retryAfterHeader res)
  then Number (default "" (retryAfterHeader res))
  else pow2 attempt.

Section requestWithRetry.

Variables (rq : Request) (maxRetries : Z).

(** What one iteration does once its request has settled, in terms of
    [retry], the rest of the loop. [attempt] is the counter after
    [attempt++]. *)
Definition settle (attempt : Z) (retry : Async (option Response)) (reply : Reply)
    : Async (option Response) :=
  match reply with
  | Resolved res =>
      let status := status_of res in
      if is_2xx status then Return (Some res)
      else if (400 <=? status) && (status <? 500) && negb (status =? 429) then Return (Some res)
      else if attempt >=? maxRetries then Return (Some res)
      else AwaitSleep (times (waitSec res attempt) (of_Z 1000)) retry
  | Rejected err =>
      if attempt >=? maxRetries then Throw err
      else AwaitSleep (times (pow2 attempt) (of_Z 1000)) retry
  end.

(** [while (attempt <= maxRetries) { attempt++; ... }]. The counter goes
    up by one per iteration, so the guard admits
    [maxRetries + 1 - attempt] more iterations: that count is the
    structural argument [n], and [n = 0] is the guard failing, after which
    the function returns [undefined]. *)
Fixpoint attempts (n : nat) (attempt : Z) : Async (option Response) :=
  match n with
  | O => Return None
  | S n' =>
      let attempt := attempt + 1 in
      AwaitRequest rq (settle attempt (attempts n' attempt))
  end.

Definition requestWithRetry : Async (option Response) :=
  attempts (Z.to_nat (maxRetries + 1 - 0)) 0.

End requestWithRetry.

(** ** [assignVersionToIssues]: the task of one issue *)

(** [mode: 'fix' | 'affected']. *)
Inductive Mode : Type := fix_ | affected.

Record JiraConfig : Type := mkConfig {
  baseUrl : string;
  user : string;
  token : string;
  issues : list string;
  version : string;
  versionIsId : bool;
  mode : Mode;
  dryRun : bool;
  concurrency : option Z;
  maxRetries : option Z
}.

(** [mode === 'affected' ? 'affectedVersions' : 'fixVersions']. *)
Definition field (config : JiraConfig) : string :=
  match mode config with
  | affected => "affectedVersions"
  | fix_ => "fixVersions"
  end.

(** The destructuring default [maxRetries = 4]. *)
Definition maxRetries_of (config : JiraConfig) : Z := default 4 (maxRetries config).

(** The destructuring default [concurrency = 4]. *)
Definition concurrency_of (config : JiraConfig) : Z := default 4 (concurrency config).

(** [const limit = pLimit(concurrency)]: the [p-limit] package, which is
    not part of the source, refuses a limit that is no integer from 1 up
    with a [TypeError]; otherwise it returns the limiter. *)
Definition pLimit (concurrency : Z) : Result Z :=
  if 1 <=? concurrency then Returns concurrency
  else Throws (TypeError "Expected `concurrency` to be a number from 1 and up").

(** [versionIsId ? { id: version } : { name: version }]. *)
Definition versionField (config : JiraConfig) : json :=
  JObject {[ (if versionIsId config then "id" else "name") := JString (version config) ]}.

(** [{ update: { [field]: [{ add: versionField }] } }]. *)
Definition payload (config : JiraConfig) : json :=
  JObject {[ "update" :=
    JObject {[ field config := JArray [ JObject {[ "add" := versionField config ]} ] ]} ]}.

Definition issueUrl (config : JiraConfig) (issue : string) : string :=
  baseUrl config +:+ "/rest/api/3/issue/" +:+ issue.

Definition getUrl (config : JiraConfig) (issue : string) : string :=
  issueUrl config issue +:+ "?fields=" +:+ field config.

(** The text of an integer status in a template literal. *)
Definition show (status : Z) : string := NilZero.string_of_int (Z.to_int status).

(** [x!.p] on the result of [requestWithRetry]. *)
Definition non_null {A : Type} (x : option Response) (p : string) (k : Response → Async A)
    : Async A :=
  match x with
  | Some res => k res
  | None => Throw (TypeError ("Cannot read properties of undefined (reading '" +:+ p +:+ "')"))
  end.

Section issue.

(** [JSON.parse], a built-in of the platform, is a parameter: [None] is
    its [SyntaxError]. *)
Variable JSON_parse : string → option json.

Variable config : JiraConfig.

(** [issueData = getBody ? JSON.parse(getBody) : {}], with [{}] kept when
    the parse throws. *)
Definition issueData_of (getBody : string) : json :=
  if String.eqb getBody "" then JObject ∅
  else default (JObject ∅) (JSON_parse getBody).

(** The rest of the [try] block once the version is found missing: the
    write and the classification of its response. *)
Definition put (issue : string) : Async unit :=
  putRes ← requestWithRetry (mkRequest "PUT" (issueUrl config issue) (Some (payload config)))
                            (maxRetries_of config);
  non_null putRes "message" (fun putRes =>
    let status := status_of putRes in
    if is_2xx status then Push (Updated issue) (Return tt)
    else
      let body := readBody putRes in
      Push (Failed (mkFailure issue ("HTTP " +:+ show status +:+ ": " +:+ body))) (Return tt)).

(** The body of the [try] block. *)
Definition tryBlock (issue : string) : Async unit :=
  if dryRun config then Push (Updated issue) (Return tt)
  else
    getRes ← requestWithRetry (mkRequest "GET" (getUrl config issue) undefined)
                              (maxRetries_of config);
    non_null getRes "readBody" (fun getRes =>
      let getBody := readBody getRes in
      let issueData := issueData_of getBody in
      match issueAlreadyHasVersion issueData (field config) (version config)
              (versionIsId config) with
      | Throws e => Throw e
      | Returns true => Push (Skipped issue) (Return tt)
      | Returns false => put issue
      end).

(** The function handed to the limiter for one issue:
    [try { ... } catch (err) { failed.push({ issue, error: err.message }) }]. *)
Definition issueTask (issue : string) : Async unit :=
  try_catch (tryBlock issue)
    (fun err => Push (Failed (mkFailure issue (message err))) (Return tt)).

End issue.

(** ** Running one task against the replies it gets *)

(** What a run of a task shows from outside. *)
Inductive Event : Type :=
| Requested (rq : Request) (reply : Reply)
| Slept (ms : number)
| Pushed (e : Entry).

(** The replies the transport gives to the successive requests of one task. *)
Abbreviation Script := (nat → Reply).

Definition later (n : nat) (script : Script) : Script := fun i => script (n + i)%nat.

(** [play t script] runs [t] to its end, answering its i-th request with
    [script i]. *)
Fixpoint play {A : Type} (t : Async A) (script : Script) : list Event * Result A :=
  match t with
  | Return a => ([], Returns a)
  | Throw e => ([], Throws e)
  | AwaitRequest rq k =>
      let '(trace, r) := play (k (script 0%nat)) (later 1 script) in
      (Requested rq (script 0%nat) :: trace, r)
  | AwaitSleep ms k =>
      let '(trace, r) := play k script in (Slept ms :: trace, r)
  | Push e k =>
      let '(trace, r) := play k script in (Pushed e :: trace, r)
  end.

Definition requests (trace : list Event) : list Request :=
  omap (fun ev => match ev with Requested rq _ => Some rq | _ => None end) trace.

Definition sleeps (trace : list Event) : list number :=
  omap (fun ev => match ev with Slept ms => Some ms | _ => None end) trace.

Definition pushes (trace : list Event) : list Entry :=
  omap (fun ev => match ev with Pushed e => Some e | _ => None end) trace.

(** ** The report and the pool of tasks *)

Record Report : Type := mkReport {
  updated : list string;
  failed : list Failure;
  skipped : list string
}.

Definition push (e : Entry) (r : Report) : Report :=
  match e with
  | Updated i => mkReport (updated r ++ [i]) (failed r) (skipped r)
  | Skipped i => mkReport (updated r) (failed r) (skipped r ++ [i])
  | Failed f => mkReport (updated r) (failed r ++ [f]) (skipped r)
  end.

(** The entries of a report, bucket by bucket. *)
Definition entries (r : Report) : list Entry :=
  (Updated <$> updated r) ++ (Skipped <$> skipped r) ++ (Failed <$> failed r).

Definition issue_of (e : Entry) : string :=
  match e with
  | Updated i | Skipped i => i
  | Failed f => issue f
  end.

(** One promise of [issues.map(...)]: its function not yet called, suspended
    at an await, fulfilled or rejected. *)
Inductive Slot : Type :=
| Queued (issue : string) (script : Script)
| InFlight (rq : Request) (k : Reply → Async unit) (script : Script)
| Sleeping (ms : number) (k : Async unit) (script : Script)
| Fulfilled
| Broken (e : Error).

(** The state of a run: the promises, the three arrays, and every request
    handed to the transport so far. *)
Record Pool : Type := mkPool {
  slots : list Slot;
  report : Report;
  wire : list Request
}.

(** A task runs on, pushing, until it awaits or ends. A request is handed to
    the transport when the task reaches it. *)
Fixpoint advance (t : Async unit) (script : Script) (r : Report) (w : list Request)
    : Slot * Report * list Request :=
  match t with
  | Return _ => (Fulfilled, r, w)
  | Throw e => (Broken e, r, w)
  | AwaitRequest rq k => (InFlight rq k script, r, w ++ [rq])
  | AwaitSleep ms k => (Sleeping ms k script, r, w)
  | Push e k => advance k script (push e r) w
  end.

Section run.

Variable JSON_parse : string → option json.
Variable config : JiraConfig.

(** What firing a slot runs: a queued task from its start, a suspended one
    from the await that has now settled. *)
Definition resume (s : Slot) : option (Async unit * Script) :=
  match s with
  | Queued issue script => Some (issueTask JSON_parse config issue, script)
  | InFlight rq k script => Some (k (script 0%nat), later 1 script)
  | Sleeping ms k script => Some (k, script)
  | Fulfilled | Broken _ => None
  end.

(** The event loop gives slot [i] its turn. *)
Definition fire (i : nat) (p : Pool) : Pool :=
  match slots p !! i ≫= resume with
  | Some (t, script) =>
      let '(s, r, w) := advance t script (report p) (wire p) in
      mkPool (<[i := s]> (slots p)) r w
  | None => p
  end.

(** A run is the turns taken, in order. The limiter of [p-limit] only
    holds queued tasks back: whatever order it admits is one of these
    schedules, see [run_limited] below. *)
Definition run (schedule : list nat) (p : Pool) : Pool :=
  foldl (fun p i => fire i p) p schedule.

(** [Promise.all(issues.map(issue => limit(async () => ...)))] at its
    start: one queued task per element of [issues], duplicates included.
    This pool is there only once [pLimit(concurrency)] has returned the
    limiter, see [assignVersionToIssues] below. [transport i] is what the
    transport answers to the successive requests of task [i]: whatever a
    transport does in a run, it answers each request of each task with
    some reply or exception. *)
Definition start (transport : nat → Script) : Pool :=
  mkPool (imap (fun i issue => Queued issue (transport i)) (issues config))
         (mkReport [] [] []) [].

Definition is_fulfilled (s : Slot) : bool :=
  match s with Fulfilled => true | _ => false end.

Definition is_broken (s : Slot) : bool :=
  match s with Broken _ => true | _ => false end.

(** [await Promise.all(...)] has resolved, and the report is returned. *)
Definition returned (p : Pool) : bool := forallb is_fulfilled (slots p).

(** [Promise.all] has rejected: the run is aborted. *)
Definition aborted (p : Pool) : bool := existsb is_broken (slots p).

(** The call, under a schedule: the report it resolves to. When [pLimit]
    throws, the call rejects before any task exists and there is never a
    report; otherwise the report is there once every promise is
    fulfilled, and [None] as long as one is not. *)
Definition assignVersionToIssues (transport : nat → Script) (schedule : list nat)
    : option Report :=
  match pLimit (concurrency_of config) with
  | Throws _ => None
  | Returns _ =>
      let final := run schedule (start transport) in
      if returned final then Some (report final) else None
  end.

(** The exception the call rejects with, when it does: that of [pLimit].
    (No task ever rejects, see [run_never_aborts].) *)
Definition rejection : option Error :=
  match pLimit (concurrency_of config) with
  | Throws e => Some e
  | Returns _ => None
  end.

End run.

(** ** The limiter *)

(** A task that has started and has not ended is suspended at an await:
    at a request in flight or in a sleep. *)
Definition is_active (s : Slot) : bool :=
  match s with
  | InFlight _ _ _ | Sleeping _ _ _ => true
  | _ => false
  end.

Definition is_in_flight (s : Slot) : bool :=
  match s with
  | InFlight _ _ _ => true
  | _ => false
  end.

(** How many issues are being processed, and how many requests are in
    flight. *)
Definition active (p : Pool) : nat := length (List.filter is_active (slots p)).

Definition in_flight (p : Pool) : nat := length (List.filter is_in_flight (slots p)).

(** Modelled from the spec: the gate of the limiter that [pLimit] returns,
    whose code (the [p-limit] package) is not in the source. The spec has
    it that issues beyond the concurrency limit must not begin until a slot
    frees, and that the slot is acquired before the processing of an issue
    begins and released once its outcome is recorded. So a queued task is
    given its first turn only while fewer than [limit] tasks have started
    and not ended; a task that has started takes its turns as they come.
    Which of the queued tasks goes first is left to the schedule. *)
Definition admits (limit : Z) (p : Pool) (i : nat) : bool :=
  match slots p !! i with
  | Some (Queued _ _) => Z.of_nat (active p) <? limit
  | _ => true
  end.

Section limiter.

Variable JSON_parse : string → option json.
Variable config : JiraConfig.

(** A turn under the limiter: the turn of a task the gate holds back does
    nothing. *)
Definition fire_limited (i : nat) (p : Pool) : Pool :=
  if admits (concurrency_of config) p i then fire JSON_parse config i p else p.

(** A run under the limiter. It is a run of the tasks, made of the turns
    the gate lets through, see [run_limited_run]. *)
Definition run_limited (schedule : list nat) (p : Pool) : Pool :=
  foldl (fun p i => fire_limited i p) p schedule.

End limiter.

(** * What the properties are stated with *)

(** ** Observing a call of [requestWithRetry] *)

(** How many requests a trace shows. *)
Definition answered (trace : list Event) : nat := length (requests trace).

(** The statuses [requestWithRetry] returns at once. *)
Definition final_status (status : Z) : bool :=
  is_2xx status || ((400 <=? status) && (status <? 500) && negb (status =? 429)).

(** A reply after which the loop tries again, if an attempt is left. *)
Definition retryable (reply : Reply) : bool :=
  match reply with
  | Resolved res => negb (final_status (status_of res))
  | Rejected _ => true
  end.

(** The sleep, in milliseconds, after a retryable reply to attempt [attempt]. *)
Definition backoff (reply : Reply) (attempt : Z) : number :=
  match reply with
  | Resolved res => times (waitSec res attempt) (of_Z 1000)
  | Rejected _ => times (pow2 attempt) (of_Z 1000)
  end.

(** How the call ends when a reply is the last one it takes. *)
Definition handed_back (reply : Reply) : Result (option Response) :=
  match reply with
  | Resolved res => Returns (Some res)
  | Rejected err => Throws err
  end.

(** The events of [j] iterations of the loop that end in a retry, from the
    counter [attempt] on. *)
Fixpoint rounds (rq : Request) (j : nat) (attempt : Z) (script : Script) : list Event :=
  match j with
  | O => []
  | S j' =>
      Requested rq (script 0%nat) :: Slept (backoff (script 0%nat) (attempt + 1))
        :: rounds rq j' (attempt + 1) (later 1 script)
  end.

(** ** Observing the task of one issue *)

(** The entry the [catch] block pushes. *)
Definition caught (issue : string) (e : Error) : Entry :=
  Failed (mkFailure issue (message e)).

(** The entry pushed for the response to the write. *)
Definition classified (issue : string) (putRes : Response) : Entry :=
  if is_2xx (status_of putRes) then Updated issue
  else Failed (mkFailure issue
         ("HTTP " +:+ show (status_of putRes) +:+ ": " +:+ readBody putRes)).

(** The entry pushed once [requestWithRetry] is through with the write. *)
Definition written (issue : string) (r : Result (option Response)) : Entry :=
  match r with
  | Returns (Some putRes) => classified issue putRes
  | Returns None =>
      caught issue (TypeError "Cannot read properties of undefined (reading 'message')")
  | Throws e => caught issue e
  end.

(** The two requests of an issue. *)
Definition GET (config : JiraConfig) (issue : string) : Request :=
  mkRequest "GET" (getUrl config issue) undefined.
Definition PUT (config : JiraConfig) (issue : string) : Request :=
  mkRequest "PUT" (issueUrl config issue) (Some (payload config)).

(** The single entry a task pushes, given the replies to its requests. *)
Definition outcome (JSON_parse : string → option json) (config : JiraConfig)
    (issue : string) (script : Script) : Entry :=
  default (caught issue (mkError ""))
          (head (pushes (play (issueTask JSON_parse config issue) script).1)).

(** [s] contains [sub]. *)
Fixpoint includes (sub s : string) : bool :=
  String.prefix sub s ||
  match s with
  | EmptyString => false
  | String _ s' => includes sub s'
  end.

(** ** Observing the idempotency check *)

(** [issueData.fields[versionField]], [undefined] when there is no such
    thing. *)
Definition version_field (issueData : json) (versionField : string) : any :=
  match issueData with
  | JObject m =>
      match m !! "fields" with
      | Some (JObject fields) => fields !! versionField
      | _ => undefined
      end
  | _ => undefined
  end.

(** The collection of version references of the issue: the empty one when
    the field is missing or absent. *)
Definition version_refs (issueData : json) (versionField : string) : list json :=
  match version_field issueData versionField with
  | Some (JArray l) => l
  | _ => []
  end.

(** The entry's [id] (when [versionIsId]) or [name] is exactly [version]. *)
Definition refers_to (version : string) (versionIsId : bool) (v : json) : Prop :=
  ∃ m, v = JObject m ∧ m !! (if versionIsId then "id" else "name") = Some (JString version).

(** ** Observing the pool *)

(** The bucket an entry is in. *)
Definition updated_of (e : Entry) : option string :=
  match e with Updated i => Some i | _ => None end.

Definition skipped_of (e : Entry) : option string :=
  match e with Skipped i => Some i | _ => None end.

Definition failed_of (e : Entry) : option Failure :=
  match e with Failed f => Some f | _ => None end.

(** The turns a run of a task takes after its start: its awaits. *)
Definition awaits (trace : list Event) : nat :=
  (length (requests trace) + length (sleeps trace))%nat.

Section slots.

Variable JSON_parse : string → option json.
Variable config : JiraConfig.

(** What a slot has still to push, and to send. *)
Definition pending (s : Slot) : list Entry :=
  match resume JSON_parse config s with
  | Some (t, script) => pushes (play t script).1
  | None => []
  end.

Definition to_send (s : Slot) : list Request :=
  match resume JSON_parse config s with
  | Some (t, script) => requests (play t script).1
  | None => []
  end.

(** The turns a slot still takes. *)
Definition turns_left (s : Slot) : nat :=
  match resume JSON_parse config s with
  | Some (t, script) => S (awaits (play t script).1)
  | None => 0
  end.

(** A slot whose promise is not rejected and is not going to be. *)
Definition sound (s : Slot) : Prop :=
  match s with
  | Broken _ => False
  | _ => match resume JSON_parse config s with
         | Some (t, script) => (play t script).2 = Returns tt
         | None => True
         end
  end.

(** The slot a task is left in when it next awaits or ends. *)
Definition suspend (t : Async unit) (script : Script) : Slot :=
  (advance t script (mkReport [] [] []) []).1.1.

(** One turn, seen from the slot. *)
Definition turn (s : Slot) : Slot :=
  match resume JSON_parse config s with
  | Some (t, script) => suspend t script
  | None => s
  end.

End slots.

(** The turns the tasks of a pool still take, all together. *)
Definition work_left (JSON_parse : string → option json) (config : JiraConfig) (p : Pool)
    : nat :=
  sum_list_with (turns_left JSON_parse config) (slots p).

(** A round of turns in which each of the first [n] tasks has at least
    one. *)
Definition covers (n : nat) (round : list nat) : Prop :=
  ∀ i : nat, (i < n)%nat → i ∈ round.

(** The turns of slot [i] in a schedule. *)
Definition turns_given (i : nat) (schedule : list nat) : nat :=
  length (filter (fun j => j = i) schedule).

(** Turns that are enough for any task: its start, and for each of its two
    calls of [requestWithRetry] a request and a sleep per attempt. *)
Definition turns_needed (config : JiraConfig) : nat :=
  S (4 * Z.to_nat (Z.max 1 (maxRetries_of config))).

(** The run without its [i]-th issue: the list, and the replies of the
    transport to the tasks that remain. *)
Definition with_issues (config : JiraConfig) (l : list string) : JiraConfig :=
  mkConfig (baseUrl config) (user config) (token config) l (version config)
           (versionIsId config) (mode config) (dryRun config) (concurrency config)
           (maxRetries config).

Definition without (i : nat) (config : JiraConfig) : JiraConfig :=
  with_issues config (delete i (issues config)).

Definition skip (i : nat) (transport : nat → Script) : nat → Script :=
  fun j => if decide (j < i)%nat then transport j else transport (S j).

(** ** The claims that do not hold, as they are stated *)

(** C1, as the claim has it: once a request of the task is answered 404, no
    PUT follows and the issue is pushed to [failed] with an error that
    contains 404. *)
Definition C1_as_stated : Prop :=
  ∀ (JSON_parse : string → option json) config issue script (i : nat) rq res,
    let trace := (play (issueTask JSON_parse config issue) script).1 in
    trace !! i = Some (Requested rq (Resolved res)) →
    status_of res = 404 →
    (∀ (j : nat) rq' reply, (i < j)%nat → trace !! j = Some (Requested rq' reply) →
       method rq' ≠ "PUT") ∧
    (∃ err, pushes trace = [Failed (mkFailure issue err)] ∧ includes "404" err = true).

(** An ASCII letter, and a text, in lower case. *)
Definition lower (c : ascii) : ascii :=
  let n := nat_of_ascii c in
  if ((65 <=? n) && (n <=? 90))%nat then ascii_of_nat (n + 32) else c.

Definition lowercase (s : string) : string :=
  string_of_list_ascii (lower <$> list_ascii_of_string s).

(** A header looked up whatever the case of its name. *)
Definition header_ci (h : gmap string string) (name : string) : option string :=
  snd <$> List.find (fun kv => String.eqb (lowercase kv.1) name) (map_to_list h).

(** The wait of the claim, in seconds: the retry-after value, looked up
    case-insensitively, when it is there and is a number, and
    [2 ^ attempt] otherwise. *)
Definition waitSec_as_specified (res : Response) (attempt : Z) : number :=
  match headers res ≫= (fun h => header_ci h "retry-after") with
  | Some v => match Number v with NaN => pow2 attempt | n => n end
  | None => pow2 attempt
  end.

(** C2, as the claim has it. *)
Definition C2_as_stated : Prop :=
  ∀ rq maxRetries script (i : nat) res,
    (∀ j : nat, (j ≤ i)%nat → retryable (script j) = true) →
    script i = Resolved res →
    Z.of_nat i + 1 < maxRetries →
    sleeps (play (requestWithRetry rq maxRetries) script).1 !! i =
    Some (times (waitSec_as_specified res (Z.of_nat i + 1)) (of_Z 1000)).

(** A header value that is missing or empty. *)
Definition absent (v : option string) : Prop := v = None ∨ v = Some "".

(** C4, as the claim has it: at most [maxRetries] requests per call. *)
Definition C4_as_stated : Prop :=
  ∀ rq maxRetries script, 0 ≤ maxRetries →
    Z.of_nat (answered (play (requestWithRetry rq maxRetries) script).1) ≤ maxRetries.

(** C7, as the claim has it: the check returns [true] exactly when some
    entry of the field's collection, empty when the field is missing or
    absent, has the [id] or the [name] that is the target version. *)
Definition C7_as_stated : Prop :=
  ∀ issueData versionField version versionIsId,
    issueAlreadyHasVersion issueData versionField version versionIsId = Returns true ↔
    Exists (refers_to version versionIsId) (version_refs issueData versionField).

(** * Sample data: the scenarios of the test suite *)

(** A double quote, and a text between double quotes. *)
Definition dquote : string := String "034" EmptyString.

Definition quoted (s : string) : string := dquote +:+ s +:+ dquote.

(** The body of an issue without versions, of an issue that has version
    [v1.2.3] (id 10), of Jira's answer for an issue it does not know, and an
    error page that is no JSON. *)
Definition no_versions_body : string :=
  "{" +:+ quoted "fields" +:+ ":{" +:+ quoted "fixVersions" +:+ ":[]}}".

Definition has_version_body : string :=
  "{" +:+ quoted "fields" +:+ ":{" +:+ quoted "fixVersions" +:+ ":[{"
      +:+ quoted "id" +:+ ":" +:+ quoted "10" +:+ ","
      +:+ quoted "name" +:+ ":" +:+ quoted "v1.2.3" +:+ "}]}}".

Definition not_found_body : string :=
  "{" +:+ quoted "errorMessages" +:+ ":[" +:+ quoted "Issue does not exist" +:+ "]}".

Definition error_page : string := "<html>Down for maintenance</html>".

Definition no_versions_data : json :=
  JObject {[ "fields" := JObject {[ "fixVersions" := JArray [] ]} ]}.

Definition has_version_data : json :=
  JObject {[ "fields" := JObject {[ "fixVersions" :=
    JArray [ JObject {[ "id" := JString "10"; "name" := JString "v1.2.3" ]} ] ]} ]}.

Definition not_found_data : json :=
  JObject {[ "errorMessages" := JArray [ JString "Issue does not exist" ] ]}.

(** [JSON.parse] as far as the examples go: it is right on the three JSON
    texts above and on text that is no JSON, such as [error_page] and the
    plain words of the other sample bodies; it is not meant for other JSON
    texts. *)
Definition sample_parse (text : string) : option json :=
  if String.eqb text no_versions_body then Some no_versions_data
  else if String.eqb text has_version_body then Some has_version_data
  else if String.eqb text not_found_body then Some not_found_data
  else None.

(** The configuration of the tests. *)
Definition test_config (issues : list string) (version : string) (dryRun : bool)
    (maxRetries : option Z) : JiraConfig :=
  mkConfig "https://example.atlassian.net" "u" "t" issues version false fix_ dryRun
           None maxRetries.

(** The [FakeClient] of the tests: the replies in order, then an exception. *)
Definition replies (l : list Reply) : Script :=
  fun n => nth n l (Rejected (mkError "No response configured")).

Definition no_versions : Response := mkResponse (Some 200) (Some ∅) no_versions_body.

Definition has_version : Response := mkResponse (Some 200) (Some ∅) has_version_body.

Definition no_content : Response := mkResponse (Some 204) (Some ∅) "".

Definition not_found : Response := mkResponse (Some 404) (Some ∅) not_found_body.

Definition html_reply : Response := mkResponse (Some 200) (Some ∅) error_page.

Definition server_error : Response := mkResponse (Some 500) (Some ∅) "oops".

Definition rate_limited : Response :=
  mkResponse (Some 429) (Some {[ "retry-after" := "0" ]}) "rate".

(** A 503 whose retry-after is an HTTP date, which [Number] does not parse. *)
Definition unavailable_until_date : Response :=
  mkResponse (Some 503) (Some {[ "retry-after" := "Wed, 21 Oct 2015 07:28:00 GMT" ]}) "".

Definition trace_of (config : JiraConfig) (issue : string) (script : Script) : list Event :=
  (play (issueTask sample_parse config issue) script).1.

(** Three issues taking turns: the second one's write is answered 500. *)
Definition mixed_transport (i : nat) : Script :=
  match i with
  | 1%nat => replies [Resolved no_versions; Resolved server_error]
  | _ => replies [Resolved no_versions; Resolved no_content]
  end.

Definition one_issue (maxRetries : Z) : JiraConfig :=
  test_config ["ABC-1"] "v1.0.0" false (Some maxRetries).

Definition put_ABC_4 : Request :=
  PUT (test_config ["ABC-4"] "v2.0.0" false (Some 3)) "ABC-4".

Definition three_issues : JiraConfig :=
  test_config ["ABC-7"; "ABC-8"; "ABC-9"] "vX" false (Some 1).

Definition isolation_config : JiraConfig :=
  test_config ["ABC-7"; "ABC-8"; "ABC-9"] "v1.2.3" false (Some 1).

(** The transport of the fault-isolation test: every request of the second
    issue fails with an exception. *)
Definition second_down (i : nat) : Script :=
  match i with
  | 1%nat => fun _ => Rejected (mkError "network down")
  | 2%nat => replies [Resolved has_version]
  | _ => replies [Resolved no_versions; Resolved no_content]
  end.

Definition dry_config : JiraConfig := test_config ["ABC-1"; "ABC-2"] "v1.0.0" true None.

(** A configuration with another concurrency limit. *)
Definition with_concurrency (config : JiraConfig) (limit : Z) : JiraConfig :=
  mkConfig (baseUrl config) (user config) (token config) (issues config) (version config)
           (versionIsId config) (mode config) (dryRun config) (Some limit)
           (maxRetries config).

(** The three issues one at a time, and a limit that [pLimit] refuses. *)
Definition one_at_a_time : JiraConfig := with_concurrency three_issues 1.

Definition no_slot : JiraConfig := with_concurrency dry_config 0.

(** The data of an issue whose array of versions has [null] before the
    version [v1]. *)
Definition null_entry_data : json :=
  JObject {[ "fields" := JObject {[ "fixVersions" :=
    JArray [ JNull; JObject {[ "name" := JString "v1" ]} ] ]} ]}.

(** * Reading the list of issues ([src/main.ts]) *)

(** ** The text operations of the readers

    A text is the UTF-8 bytes of the JavaScript string. The characters the
    readers split at (comma, carriage return, line feed) are single bytes
    that are part of no longer character, so that splitting the bytes is
    splitting the string. *)

Definition is_comma (c : ascii) : bool := Ascii.eqb c ",".

(** The character class [[\r\n,]]. *)
Definition is_separator (c : ascii) : bool :=
  Ascii.eqb c "013" || Ascii.eqb c "010" || Ascii.eqb c ",".

(** [s.split(c)] for a separator of one character: the pieces between its
    occurrences, the empty ones included; the one piece [s] when it does
    not occur. *)
Fixpoint split_on (sep : ascii → bool) (s : string) : list string :=
  match s with
  | EmptyString => [""]
  | String c s' =>
      if sep c then "" :: split_on sep s'
      else match split_on sep s' with
           | piece :: pieces => String c piece :: pieces
           | [] => [String c ""]
           end
  end.

(** [s.split(/[...]+/)] for a class of characters: the pieces between the
    longest runs of characters of the class. A run at the start or at the
    end leaves an empty piece there. [in_run] is true just after a
    character of the class. *)
Fixpoint split_on_runs (sep : ascii → bool) (in_run : bool) (s : string) : list string :=
  match s with
  | EmptyString => [""]
  | String c s' =>
      if sep c then
        if in_run then split_on_runs sep true s' else "" :: split_on_runs sep true s'
      else match split_on_runs sep false s' with
           | piece :: pieces => String c piece :: pieces
           | [] => [String c ""]
           end
  end.

(** [pieces.filter(Boolean)]: the empty text is the one falsy string. *)
Definition filter_Boolean (pieces : list string) : list string :=
  filter (fun piece => piece ≠ "") pieces.

(** The white space of [Number], which is that of [trim]. *)
Abbreviation is_space2 := StringToNumber.is_space2.
Abbreviation is_space3 := StringToNumber.is_space3.
Abbreviation trim_start := StringToNumber.trim_start.
Abbreviation trim_end_rev := StringToNumber.trim_end_rev.

(** [s.trim()]. *)
Definition trim (s : string) : string :=
  string_of_list_ascii
    (rev (trim_end_rev (rev (trim_start (list_ascii_of_string s))))).

(** [l.join(',')] on strings. *)
Definition join (l : list string) : string := String.concat "," l.

(** ** The two readers *)

(** A string as a value. *)
Definition text (s : string) : any := Some (JString s).

(** [(i) => (typeof i === 'string' ? i : i.id)]. *)
Definition id_of (i : json) : Result any :=
  match i with
  | JString _ => Returns (Some i)
  | _ => prop (Some i) "id"
  end.

(** [parsed.map((i) => ...)] on the elements of an array: it ends at the
    first element on which the function throws. *)
Fixpoint map_id_of (l : list json) : Result (list any) :=
  match l with
  | [] => Returns []
  | i :: l' =>
      match id_of i with
      | Throws e => Throws e
      | Returns x =>
          match map_id_of l' with
          | Throws e => Throws e
          | Returns xs => Returns (x :: xs)
          end
      end
  end.

(** [issuesInput.split(',').map((s) => s.trim())]. *)
Definition split_input (issuesInput : string) : list any :=
  (fun s => text (trim s)) <$> split_on is_comma issuesInput.

(** [content.split(/[\r\n,]+/).filter(Boolean)]. *)
Definition split_content (content : string) : list string :=
  filter_Boolean (split_on_runs is_separator false content).

Section readers.

(** [JSON.parse] is a parameter, as in the engine: [None] is its
    [SyntaxError]. [readFileSync issuesFile] is what
    [fs.readFileSync(issuesFile, 'utf8')] does on the file system of the
    run: it returns the content or throws. *)
Variable JSON_parse : string → option json.
Variable readFileSync : string → Result string.

(** The [catch] takes every exception of the [try] block: the
    [SyntaxError] of [JSON.parse] and the [TypeError] of reading [id] of
    [null]. What is returned is typed [string[]] but holds whatever the
    [id]s are. *)
Definition readIssuesFromInput (issuesInput : string) : list any :=
  match JSON_parse issuesInput with
  | Some (JArray l) =>
      match map_id_of l with
      | Returns ids => ids
      | Throws _ => split_input issuesInput
      end
  | Some _ => []
  | None => split_input issuesInput
  end.

(** Here [parsed.map] is called without a look at [parsed]: on anything
    but an array that is a [TypeError], which the [catch] takes too. The
    exception of [readFileSync] is thrown before the [try] and leaves the
    function. *)
Definition readIssuesFromFile (issuesFile : string) : Result (list any) :=
  match readFileSync issuesFile with
  | Throws e => Throws e
  | Returns content =>
      Returns
        match JSON_parse content with
        | Some (JArray l) =>
            match map_id_of l with
            | Returns ids => ids
            | Throws _ => text <$> split_content content
            end
        | _ => text <$> split_content content
        end
  end.

End readers.

(** The value [run] sets the output [updated-issues] to. *)
Definition updated_issues (r : Report) : string := join (updated r).

(** ** Observing the readers *)

(** How often a character of the class occurs in a text. *)
Fixpoint occurrences (sep : ascii → bool) (s : string) : nat :=
  match s with
  | EmptyString => 0
  | String c s' => ((if sep c then 1 else 0) + occurrences sep s')%nat
  end.

(** A text made of characters of the class only. *)
Fixpoint all_of (sep : ascii → bool) (s : string) : bool :=
  match s with
  | EmptyString => true
  | String c s' => sep c && all_of sep s'
  end.

(** A key that the plain-text reading of a file gives back as it is: it is
    not empty and holds no comma, carriage return or line feed. *)
Definition plain_key (k : string) : Prop := k ≠ "" ∧ occurrences is_separator k = 0%nat.

(** What the readers make of an element of a JSON array that is not
    [null]: a string is taken as it is, of an object its [id], which may be
    anything or nothing, and anything else has no [id]. *)
Definition entry_of (i : json) : any :=
  match i with
  | JString _ => Some i
  | JObject m => m !! "id"
  | _ => undefined
  end.

(** A character of an issue key as Jira writes them, and of much else: a
    visible ASCII character other than the comma. *)
Definition is_key_char (c : ascii) : bool :=
  let n := Z.of_nat (nat_of_ascii c) in (33 <=? n) && (n <=? 126) && negb (is_comma c).

(** [piece] is [k] with ASCII white space (blanks, tabs, line ends) or
    nothing before and after it. *)
Definition padded (piece k : string) : Prop :=
  ∃ before after,
    all_of StringToNumber.is_space before = true ∧
    all_of StringToNumber.is_space after = true ∧
    piece = before +:+ k +:+ after.

(** ** Tasks run one after the other *)

(** The entries pushed one after the other. *)
Definition push_all (es : list Entry) (r : Report) : Report :=
  foldl (fun r e => push e r) r es.

(** The schedule that runs [tasks] tasks one after the other, in the order
    of the input: each gets [n] turns in a row. *)
Definition one_by_one (tasks n : nat) : list nat := seq 0 tasks ≫= replicate n.

(** The report whose buckets hold the entries in the order given. *)
Definition report_of (es : list Entry) : Report :=
  mkReport (omap updated_of es) (omap failed_of es) (omap skipped_of es).

(** * Sample data: lists of issues *)

Definition line_feed : string := String "010" EmptyString.

Definition crlf : string := String "013" line_feed.

(** An issues file with one key per line, the lines ending in CR LF, and
    one that is a JSON array of a key and an object with an [id]. *)
Definition issues_txt : string := "ABC-1" +:+ crlf +:+ "ABC-2" +:+ crlf.

Definition issues_json : string :=
  "[" +:+ quoted "ABC-1" +:+ ",{" +:+ quoted "id" +:+ ":" +:+ quoted "ABC-2" +:+ "}]".

Definition issues_json_data : json :=
  JArray [ JString "ABC-1"; JObject {[ "id" := JString "ABC-2" ]} ].

(** [JSON.parse] as far as these examples go: it is right on
    [issues_json] and on text that is no JSON, such as lists of keys. *)
Definition parse_issues (text : string) : option json :=
  if String.eqb text issues_json then Some issues_json_data else None.

(** The files of the examples. *)
Definition sample_files (path : string) : Result string :=
  if String.eqb path "issues.txt" then Returns issues_txt
  else if String.eqb path "issues.json" then Returns issues_json
  else Throws (mkError ("ENOENT: no such file or directory, open '" +:+ path +:+ "'")).

(** The replies to a write that is answered 429 and then 204. *)
Definition retried_once : Script := replies [Resolved rate_limited; Resolved no_content].

Definition skip_config : JiraConfig := test_config ["ABC-3"] "v1.2.3" false None.

Definition negative_config : JiraConfig :=
  test_config ["ABC-1"; "ABC-2"] "v1.0.0" false (Some (-1)).

Definition no_issues : JiraConfig := test_config [] "v1.0.0" false None.

(** * Properties *)

(** ** Sequencing and [try]/[catch] under [play] *)

Lemma requests_app (a b : list Event) : requests (a ++ b) = requests a ++ requests b.
Proof. apply omap_app. Qed.

Lemma pushes_app (a b : list Event) : pushes (a ++ b) = pushes a ++ pushes b.
Proof. apply omap_app. Qed.

Lemma sleeps_app (a b : list Event) : sleeps (a ++ b) = sleeps a ++ sleeps b.
Proof. apply omap_app. Qed.

Lemma play_bind {A B : Type} (t : Async A) (f : A → Async B) (script : Script) :
  play (bind t f) script =
  match play t script with
  | (trace, Returns a) =>
      let '(trace', r) := play (f a) (later (answered trace) script) in (trace ++ trace', r)
  | (trace, Throws e) => (trace, Throws e)
  end.
Proof.
  revert script. induction t as [a|e|rq k IH|ms k IH|e k IH]; intros script; simpl.
  - change (later (answered []) script) with script. by destruct (play (f a) script).
  - done.
  - rewrite IH. destruct (play (k (script 0%nat)) (later 1 script)) as [trace [a|e]]; [|done].
    change (later (answered (Requested rq (script 0%nat) :: trace)) script)
      with (later (answered trace) (later 1 script)).
    by destruct (play (f a) _).
  - rewrite IH. destruct (play k script) as [trace [a|e]]; [|done].
    change (answered (Slept ms :: trace)) with (answered trace).
    by destruct (play (f a) _).
  - rewrite IH. destruct (play k script) as [trace [a|e']]; [|done].
    change (answered (Pushed e :: trace)) with (answered trace).
    by destruct (play (f a) _).
Qed.

Lemma play_try_catch {A : Type} (t : Async A) (handler : Error → Async A) (script : Script) :
  play (try_catch t handler) script =
  match play t script with
  | (trace, Returns a) => (trace, Returns a)
  | (trace, Throws e) =>
      let '(trace', r) := play (handler e) (later (answered trace) script) in (trace ++ trace', r)
  end.
Proof.
  revert script. induction t as [a|e|rq k IH|ms k IH|e k IH]; intros script; simpl.
  - done.
  - change (later (answered []) script) with script. by destruct (play (handler e) script).
  - rewrite IH. destruct (play (k (script 0%nat)) (later 1 script)) as [trace [a|e]]; [done|].
    change (later (answered (Requested rq (script 0%nat) :: trace)) script)
      with (later (answered trace) (later 1 script)).
    by destruct (play (handler e) _).
  - rewrite IH. destruct (play k script) as [trace [a|e]]; [done|].
    change (answered (Slept ms :: trace)) with (answered trace).
    by destruct (play (handler e) _).
  - rewrite IH. destruct (play k script) as [trace [a|e']]; [done|].
    change (answered (Pushed e :: trace)) with (answered trace).
    by destruct (play (handler e') _).
Qed.

(** ** The retry loop *)

Section retry_loop.

Variables (rq : Request) (maxRetries : Z).

Lemma settle_retry attempt retry reply :
  retryable reply = true → (attempt <? maxRetries) = true →
  settle maxRetries attempt retry reply = AwaitSleep (backoff reply attempt) retry.
Proof.
  intros Hr Ha. assert ((attempt >=? maxRetries) = false) as Hge by lia.
  destruct reply as [res|err]; simpl in *; [|by rewrite Hge].
  unfold final_status in Hr. apply negb_true_iff, orb_false_iff in Hr as [-> ->].
  by rewrite Hge.
Qed.

Lemma settle_last attempt retry reply :
  retryable reply && (attempt <? maxRetries) = false →
  play (settle maxRetries attempt retry reply) = fun _ => ([], handed_back reply).
Proof.
  intros H. destruct reply as [res|err]; simpl in *.
  - unfold final_status in H. destruct (is_2xx _); [done|].
    destruct (_ && negb _); [done|]. simpl in H.
    assert ((attempt >=? maxRetries) = true) as -> by lia. done.
  - assert ((attempt >=? maxRetries) = true) as -> by lia. done.
Qed.

(** The count of iterations does what the guard of the [while] does: with
    as many iterations as the guard admits from [attempt] on, the loop is
    its body followed by the loop when [attempt <= maxRetries], and
    returns [undefined] otherwise. *)
Lemma attempts_while attempt :
  attempts rq maxRetries (Z.to_nat (maxRetries + 1 - attempt)) attempt =
  if attempt <=? maxRetries
  then AwaitRequest rq
         (settle maxRetries (attempt + 1)
            (attempts rq maxRetries (Z.to_nat (maxRetries + 1 - (attempt + 1))) (attempt + 1)))
  else Return None.
Proof.
  destruct (attempt <=? maxRetries) eqn:Hguard.
  - replace (Z.to_nat (maxRetries + 1 - attempt))
      with (S (Z.to_nat (maxRetries + 1 - (attempt + 1)))) by lia.
    reflexivity.
  - replace (Z.to_nat (maxRetries + 1 - attempt)) with 0%nat by lia. reflexivity.
Qed.

(** One iteration of the loop. *)
Lemma play_attempts_S n attempt script :
  play (attempts rq maxRetries (S n) attempt) script =
  let reply := script 0%nat in
  if retryable reply && (attempt + 1 <? maxRetries)
  then let '(trace, r) := play (attempts rq maxRetries n (attempt + 1)) (later 1 script) in
       (Requested rq reply :: Slept (backoff reply (attempt + 1)) :: trace, r)
  else ([Requested rq reply], handed_back reply).
Proof.
  simpl. destruct (retryable (script 0%nat) && _) eqn:H.
  - apply andb_true_iff in H as [Hr Ha]. rewrite settle_retry by done. simpl.
    by destruct (play _ (later 1 script)).
  - by rewrite settle_last.
Qed.

Lemma answered_rounds j attempt script : answered (rounds rq j attempt script) = j.
Proof.
  revert attempt script. induction j as [|j IH]; intros; [done|].
  unfold answered in *. simpl. by rewrite IH.
Qed.

Lemma sleeps_rounds j attempt script (i : nat) :
  (i < j)%nat →
  sleeps (rounds rq j attempt script) !! i = Some (backoff (script i) (attempt + Z.of_nat i + 1)).
Proof.
  revert attempt script i. induction j as [|j IH]; intros attempt script i Hi; [lia|].
  destruct i as [|i]; simpl.
  - by rewrite Z.add_0_r.
  - change (sleeps (rounds rq j (attempt + 1) (later 1 script)) !! i =
            Some (backoff (script (S i)) (attempt + Z.of_nat (S i) + 1))).
    rewrite IH by lia. unfold later. simpl. do 2 f_equal. lia.
Qed.

(** While the replies are retryable and attempts are left, the loop goes
    round. *)
Lemma play_attempts_rounds (j n : nat) attempt script :
  (∀ i : nat, (i < j)%nat → retryable (script i) = true) →
  (j = 0%nat ∨ attempt + Z.of_nat j < maxRetries) →
  play (attempts rq maxRetries (j + n) attempt) script =
  let '(trace, r) :=
    play (attempts rq maxRetries n (attempt + Z.of_nat j)) (later j script) in
  (rounds rq j attempt script ++ trace, r).
Proof.
  revert attempt script. induction j as [|j IH]; intros attempt script Hr Hj.
  - simpl. rewrite Z.add_0_r. change (later 0 script) with script.
    by destruct (play _ script).
  - destruct Hj as [|Hj]; [done|].
    change (S j + n)%nat with (S (j + n)). rewrite play_attempts_S. simpl.
    rewrite (Hr 0%nat) by lia.
    assert ((attempt + 1 <? maxRetries) = true) as -> by lia. simpl.
    rewrite IH.
    + replace (attempt + 1 + Z.of_nat j) with (attempt + Z.of_nat (S j)) by lia.
      change (later j (later 1 script)) with (later (S j) script).
      by destruct (play _ (later (S j) script)).
    + intros i Hi. apply (Hr (S i)). lia.
    + destruct j; [by left|right; lia].
Qed.

(** What every run of the loop looks like. *)
Lemma attempts_trace n attempt script :
  let '(trace, r) := play (attempts rq maxRetries n attempt) script in
  pushes trace = [] ∧
  (∀ (i : nat) rq' reply, trace !! i = Some (Requested rq' reply) → rq' = rq) ∧
  (answered trace ≤ n)%nat ∧
  Z.of_nat (answered trace) ≤ Z.max 1 (maxRetries - attempt) ∧
  ((0 < n)%nat → (0 < answered trace)%nat) ∧
  (∀ (i : nat) rq' res, trace !! i = Some (Requested rq' (Resolved res)) →
     final_status (status_of res) = true →
     length trace = S i ∧ r = Returns (Some res)) ∧
  (∀ res, r = Returns (Some res) → last trace = Some (Requested rq (Resolved res))) ∧
  (maxRetries - attempt < Z.of_nat n → r = Returns None → n = 0%nat).
Proof.
  revert attempt script. induction n as [|n IH]; intros attempt script.
  - simpl. unfold answered. simpl. split_and!; try done; try lia.
  - rewrite play_attempts_S. simpl.
    destruct (retryable (script 0%nat) && _) eqn:H.
    + apply andb_true_iff in H as [Hr Ha].
      specialize (IH (attempt + 1) (later 1 script)).
      destruct (play _ (later 1 script)) as [trace r].
      destruct IH as (Hp & Hq & Hn & Hm & Hpos & Hfin & Hlast & Hnone).
      unfold answered in *. simpl.
      split_and!; try done; try lia.
      * intros [|[|i]] rq' reply Hi; simpl in Hi; [by injection Hi as <- _|done|].
        by eapply Hq.
      * intros [|[|i]] rq' res Hi Hf; simpl in Hi; [|done|].
        -- injection Hi as _ Hs. rewrite Hs in Hr. simpl in Hr. by rewrite Hf in Hr.
        -- destruct (Hfin _ _ _ Hi Hf) as [-> ->]. done.
      * intros res ->. specialize (Hlast res eq_refl).
        destruct trace as [|ev trace]; [done|]. done.
      * intros Hfuel ->. assert (n = 0%nat) by (apply Hnone; [lia|done]). lia.
    + unfold answered. simpl. split_and!; try done; try lia.
      * intros [|i] rq' reply Hi; simpl in Hi; [by injection Hi as <- _|done].
      * intros [|i] rq' res Hi Hf; simpl in Hi; [|done].
        injection Hi as _ Hs. by rewrite Hs.
      * intros res Hres. destruct (script 0%nat); by simplify_eq/=.
      * destruct (script 0%nat); done.
Qed.

End retry_loop.

(** ** The task of one issue *)

Section issue_facts.

Variable JSON_parse : string → option json.
Variable config : JiraConfig.

Abbreviation handler issue :=
  (fun err : Error => Push (Failed (mkFailure issue (message err))) (Return tt)).

Lemma play_put issue script :
  play (try_catch (put config issue) (handler issue)) script =
  let '(trace, r) := play (requestWithRetry (PUT config issue) (maxRetries_of config)) script in
  (trace ++ [Pushed (written issue r)], Returns tt).
Proof.
  rewrite play_try_catch. unfold put, mbind, Async_bind. rewrite play_bind.
  fold (PUT config issue).
  destruct (play (requestWithRetry _ _) script) as [trace [[putRes|]|e]]; simpl.
  - unfold classified. destruct (is_2xx _); simpl; by rewrite ?app_nil_r.
  - by rewrite app_nil_r.
  - done.
Qed.

(** The run of a task that is not a dry run, in terms of the runs of its
    two calls of [requestWithRetry]. *)
Lemma play_issueTask issue script :
  dryRun config = false →
  play (issueTask JSON_parse config issue) script =
  let '(tg, rg) := play (requestWithRetry (GET config issue) (maxRetries_of config)) script in
  match rg with
  | Returns (Some getRes) =>
      match issueAlreadyHasVersion (issueData_of JSON_parse (readBody getRes))
              (field config) (version config) (versionIsId config) with
      | Returns false =>
          let '(tp, rp) := play (requestWithRetry (PUT config issue) (maxRetries_of config))
                                (later (answered tg) script) in
          (tg ++ tp ++ [Pushed (written issue rp)], Returns tt)
      | Returns true => (tg ++ [Pushed (Skipped issue)], Returns tt)
      | Throws e => (tg ++ [Pushed (caught issue e)], Returns tt)
      end
  | Returns None =>
      (tg ++ [Pushed (caught issue
         (TypeError "Cannot read properties of undefined (reading 'readBody')"))], Returns tt)
  | Throws e => (tg ++ [Pushed (caught issue e)], Returns tt)
  end.
Proof.
  intros Hdry. unfold issueTask, tryBlock. rewrite Hdry.
  unfold mbind, Async_bind. fold (GET config issue).
  generalize (requestWithRetry (GET config issue) (maxRetries_of config)). intros t.
  revert script. induction t as [[getRes|]|e|rq k IH|ms k IH|e k IH]; intros script; simpl.
  - destruct (issueAlreadyHasVersion _ _ _ _) as [[|]|e]; simpl; [done| |done].
    change (later (answered []) script) with script.
    pose proof (play_put issue script) as Hput. simpl in Hput.
    destruct (play (requestWithRetry (PUT config issue) _) script) as [tp rp]. done.
  - done.
  - done.
  - rewrite IH. destruct (play (k (script 0%nat)) (later 1 script)) as [tg [[getRes|]|e]];
      [|done|done].
    destruct (issueAlreadyHasVersion _ _ _ _) as [[|]|e]; [done| |done].
    change (later (answered (Requested rq (script 0%nat) :: tg)) script)
      with (later (answered tg) (later 1 script)).
    by destruct (play (requestWithRetry (PUT config issue) _) _).
  - rewrite IH. destruct (play k script) as [tg [[getRes|]|e]]; [|done|done].
    destruct (issueAlreadyHasVersion _ _ _ _) as [[|]|e]; [done| |done].
    change (answered (Slept ms :: tg)) with (answered tg).
    by destruct (play (requestWithRetry (PUT config issue) _) _).
  - rewrite IH. destruct (play k script) as [tg [[getRes|]|e']]; [|done|done].
    destruct (issueAlreadyHasVersion _ _ _ _) as [[|]|e']; [done| |done].
    change (answered (Pushed e :: tg)) with (answered tg).
    by destruct (play (requestWithRetry (PUT config issue) _) _).
Qed.

Lemma play_issueTask_dry issue script :
  dryRun config = true →
  play (issueTask JSON_parse config issue) script = ([Pushed (Updated issue)], Returns tt).
Proof. intros Hdry. unfold issueTask, tryBlock. by rewrite Hdry. Qed.

(** Every task pushes exactly one entry, under its own issue, and its
    promise is fulfilled: nothing is thrown past the [catch]. *)
Lemma issueTask_once issue script :
  pushes (play (issueTask JSON_parse config issue) script).1
    = [outcome JSON_parse config issue script] ∧
  issue_of (outcome JSON_parse config issue script) = issue ∧
  (play (issueTask JSON_parse config issue) script).2 = Returns tt.
Proof.
  unfold outcome. destruct (dryRun config) eqn:Hdry.
  { by rewrite play_issueTask_dry. }
  rewrite play_issueTask by done.
  pose proof (attempts_trace (GET config issue) (maxRetries_of config)
                (Z.to_nat (maxRetries_of config + 1 - 0)) 0 script) as Hg.
  fold (requestWithRetry (GET config issue) (maxRetries_of config)) in Hg.
  destruct (play (requestWithRetry (GET config issue) _) script) as [tg rg].
  destruct Hg as (Hg & _).
  assert (∀ e, pushes (tg ++ [Pushed e]) = [e]) as Hone.
  { intros e. by rewrite pushes_app, Hg. }
  destruct rg as [[getRes|]|e]; simpl; rewrite ?Hone; try done.
  destruct (issueAlreadyHasVersion _ _ _ _) as [[|]|e]; simpl; rewrite ?Hone; try done.
  pose proof (attempts_trace (PUT config issue) (maxRetries_of config)
                (Z.to_nat (maxRetries_of config + 1 - 0)) 0 (later (answered tg) script)) as Hp.
  fold (requestWithRetry (PUT config issue) (maxRetries_of config)) in Hp.
  destruct (play (requestWithRetry (PUT config issue) _) _) as [tp rp].
  destruct Hp as (Hp & _). simpl.
  rewrite !pushes_app, Hg, Hp. simpl. split_and!; try done.
  destruct rp as [[putRes|]|e]; simpl; try done.
  unfold classified. by destruct (is_2xx _).
Qed.

End issue_facts.

(** ** The pool *)

Lemma entries_push e r : entries (push e r) ≡ₚ entries r ++ [e].
Proof.
  unfold entries. destruct e as [i|i|f]; simpl; rewrite ?fmap_app; simpl.
  - rewrite <- !(assoc_L (++)). apply Permutation_app_head.
    rewrite (comm (++) [Updated i]). by rewrite <- !(assoc_L (++)).
  - rewrite <- !(assoc_L (++)). do 2 apply Permutation_app_head.
    by rewrite (comm (++) [Skipped i]).
  - by rewrite !(assoc_L (++)).
Qed.

Lemma length_entries r :
  length (entries r) = (length (updated r) + length (skipped r) + length (failed r))%nat.
Proof. unfold entries. rewrite !length_app, !length_fmap. lia. Qed.

Lemma omap_hit {X Y : Type} (f : Y → option X) (g : X → Y) (l : list X) :
  (∀ x, f (g x) = Some x) → omap f (g <$> l) = l.
Proof. intros H. induction l as [|x l IH]; [done|]. simpl. rewrite H. f_equal. exact IH. Qed.

Lemma omap_miss {X Y Z : Type} (f : Y → option Z) (g : X → Y) (l : list X) :
  (∀ x, f (g x) = None) → omap f (g <$> l) = [].
Proof. intros H. induction l as [|x l IH]; [done|]. simpl. rewrite H. exact IH. Qed.

(** Each bucket is read back from the entries. *)
Lemma updated_entries r : updated r = omap updated_of (entries r).
Proof.
  unfold entries. rewrite !omap_app.
  rewrite (omap_hit updated_of Updated), (omap_miss updated_of Skipped),
    (omap_miss updated_of Failed) by done.
  by rewrite !app_nil_r.
Qed.

Lemma skipped_entries r : skipped r = omap skipped_of (entries r).
Proof.
  unfold entries. rewrite !omap_app.
  rewrite (omap_miss skipped_of Updated), (omap_hit skipped_of Skipped),
    (omap_miss skipped_of Failed) by done.
  by rewrite app_nil_r.
Qed.

Lemma failed_entries r : failed r = omap failed_of (entries r).
Proof.
  unfold entries. rewrite !omap_app.
  by rewrite (omap_miss failed_of Updated), (omap_miss failed_of Skipped),
    (omap_hit failed_of Failed) by done.
Qed.

(** Replacing one summand of a sum of lists. *)
Lemma middle_Permutation {X : Type} (a a' x x' front back : list X) :
  a' ++ x' ≡ₚ a ++ x → a' ++ (front ++ x' ++ back) ≡ₚ a ++ (front ++ x ++ back).
Proof.
  intros H.
  transitivity ((a' ++ x') ++ front ++ back).
  { rewrite <- !(assoc_L (++)). apply Permutation_app_head.
    rewrite !(assoc_L (++)). apply Permutation_app_tail. apply Permutation_app_comm. }
  rewrite H.
  rewrite <- !(assoc_L (++)). apply Permutation_app_head.
  rewrite !(assoc_L (++)). apply Permutation_app_tail. apply Permutation_app_comm.
Qed.

Section pool_facts.

Variable JSON_parse : string → option json.
Variable config : JiraConfig.

Abbreviation resume' := (resume JSON_parse config).
Abbreviation fire' := (fire JSON_parse config).
Abbreviation run' := (run JSON_parse config).
Abbreviation pending' := (pending JSON_parse config).
Abbreviation to_send' := (to_send JSON_parse config).
Abbreviation turns_left' := (turns_left JSON_parse config).
Abbreviation sound' := (sound JSON_parse config).

Lemma advance_spec t script r w :
  let '(s, r', w') := advance t script r w in
  entries r' ++ pending' s ≡ₚ entries r ++ pushes (play t script).1 ∧
  w' ++ to_send' s = w ++ requests (play t script).1 ∧
  turns_left' s = awaits (play t script).1 ∧
  ((play t script).2 = Returns tt → sound' s).
Proof.
  revert r. induction t as [[]|e|rq k _|ms k _|e k IH]; intros r; simpl.
  - by rewrite !app_nil_r.
  - by rewrite !app_nil_r.
  - unfold pending, to_send, turns_left, sound. simpl.
    destruct (play (k (script 0%nat)) (later 1 script)) as [trace res]. simpl.
    split_and!; try done. by rewrite <- (assoc_L (++)).
  - unfold pending, to_send, turns_left, sound. simpl.
    destruct (play k script) as [trace res]. simpl. split_and!; try done.
    unfold awaits. simpl. lia.
  - specialize (IH (push e r)). destruct (advance k script (push e r) w) as [[s r'] w'].
    destruct (play k script) as [trace res]. simpl in *.
    destruct IH as (IH1 & IH2 & IH3 & IH4). split_and!; try done.
    rewrite IH1, entries_push. by rewrite <- (assoc_L (++)).
Qed.

Lemma fire_idle i p : slots p !! i ≫= resume' = None → fire' i p = p.
Proof. unfold fire. by intros ->. Qed.

Lemma fire_spec i p s t script :
  slots p !! i = Some s → resume' s = Some (t, script) →
  let '(s', r', w') := advance t script (report p) (wire p) in
  fire' i p = mkPool (<[i := s']> (slots p)) r' w'.
Proof.
  intros Hs Hr. unfold fire. rewrite Hs. simpl. rewrite Hr.
  by destruct (advance _ _ _ _) as [[s' r'] w'].
Qed.

(** A turn moves entries and requests of one slot from what is to come
    to what is there; nothing is lost and nothing is added. *)
Lemma fire_conserves i p :
  entries (report (fire' i p)) ++ (slots (fire' i p) ≫= pending')
    ≡ₚ entries (report p) ++ (slots p ≫= pending') ∧
  wire (fire' i p) ++ (slots (fire' i p) ≫= to_send')
    ≡ₚ wire p ++ (slots p ≫= to_send').
Proof.
  destruct (slots p !! i) as [s|] eqn:Hs; [|by rewrite fire_idle by (by rewrite Hs)].
  destruct (resume' s) as [[t script]|] eqn:Hr;
    [|by rewrite fire_idle by (by rewrite Hs; simpl)].
  pose proof (fire_spec i p s t script Hs Hr) as Hf.
  pose proof (advance_spec t script (report p) (wire p)) as Ha.
  destruct (advance t script (report p) (wire p)) as [[s' r'] w'].
  rewrite Hf. simpl. destruct Ha as (He & Hw & _).
  apply list_elem_of_split_length in Hs as (front & back & -> & ->).
  rewrite insert_app_r_alt, Nat.sub_diag by done. simpl.
  rewrite !bind_app, !bind_cons. split.
  - apply middle_Permutation. rewrite He. unfold pending. by rewrite Hr.
  - apply middle_Permutation. rewrite Hw. unfold to_send. by rewrite Hr.
Qed.

Lemma run_conserves schedule p :
  entries (report (run' schedule p)) ++ (slots (run' schedule p) ≫= pending')
    ≡ₚ entries (report p) ++ (slots p ≫= pending') ∧
  wire (run' schedule p) ++ (slots (run' schedule p) ≫= to_send')
    ≡ₚ wire p ++ (slots p ≫= to_send').
Proof.
  revert p. induction schedule as [|i schedule IH]; intros p; [done|].
  simpl. destruct (IH (fire' i p)) as [-> ->]. apply fire_conserves.
Qed.

End pool_facts.

(** ** Every schedule: no abort, and the report once all have had their turns *)

Lemma awaits_app (a b : list Event) : awaits (a ++ b) = (awaits a + awaits b)%nat.
Proof. unfold awaits. rewrite requests_app, sleeps_app, !length_app. lia. Qed.

Lemma attempts_sleeps rq maxRetries n attempt script :
  (length (sleeps (play (attempts rq maxRetries n attempt) script).1)
   ≤ answered (play (attempts rq maxRetries n attempt) script).1)%nat.
Proof.
  revert attempt script. induction n as [|n IH]; intros attempt script; [done|].
  rewrite play_attempts_S. simpl. destruct (retryable _ && _); [|unfold answered; simpl; lia].
  specialize (IH (attempt + 1) (later 1 script)).
  destruct (play _ (later 1 script)) as [trace r]. unfold answered in *. simpl in *. lia.
Qed.

Lemma requestWithRetry_awaits rq maxRetries script :
  (awaits (play (requestWithRetry rq maxRetries) script).1
   ≤ 2 * Z.to_nat (Z.max 1 maxRetries))%nat.
Proof.
  unfold requestWithRetry.
  pose proof (attempts_sleeps rq maxRetries (Z.to_nat (maxRetries + 1 - 0)) 0 script) as Hs.
  pose proof (attempts_trace rq maxRetries (Z.to_nat (maxRetries + 1 - 0)) 0 script) as Ht.
  destruct (play _ script) as [trace r]. simpl in *.
  destruct Ht as (_ & _ & _ & Hm & _). unfold awaits, answered in *. lia.
Qed.

Section run_facts.

Variable JSON_parse : string → option json.
Variable config : JiraConfig.

Abbreviation resume'' := (resume JSON_parse config).
Abbreviation fire'' := (fire JSON_parse config).
Abbreviation run'' := (run JSON_parse config).
Abbreviation turns_left' := (turns_left JSON_parse config).
Abbreviation sound' := (sound JSON_parse config).
Abbreviation pending' := (pending JSON_parse config).
Abbreviation to_send' := (to_send JSON_parse config).
Abbreviation outcome' := (outcome JSON_parse config).
Abbreviation issueTask' := (issueTask JSON_parse config).
Abbreviation turn' := (turn JSON_parse config).

Lemma advance_slot t script r w : (advance t script r w).1.1 = suspend t script.
Proof.
  unfold suspend. generalize (mkReport [] [] []). revert r.
  induction t as [|e|rq k _|ms k _|e k IH]; intros r r0; simpl; first [done|apply IH].
Qed.

Lemma slots_fire i p : slots (fire'' i p) = alter turn' i (slots p).
Proof.
  apply list_eq. intros j. rewrite list_lookup_alter.
  destruct (slots p !! i) as [s|] eqn:Hs.
  - destruct (resume'' s) as [[t script]|] eqn:Hr.
    + pose proof (fire_spec JSON_parse config i p s t script Hs Hr) as Hf.
      pose proof (advance_slot t script (report p) (wire p)) as Ha.
      destruct (advance t script (report p) (wire p)) as [[s' r'] w'].
      rewrite Hf. simpl in *. rewrite list_lookup_insert.
      apply lookup_lt_Some in Hs as Hlt.
      case_decide as Hd; case_decide as Hd'; try done.
      * unfold turn. by rewrite Hr, Ha.
      * destruct Hd'. by destruct Hd.
      * destruct Hd. done.
    + rewrite fire_idle by (by rewrite Hs). case_decide; [|done].
      subst j. rewrite Hs. simpl. unfold turn. by rewrite Hr.
  - rewrite fire_idle by (by rewrite Hs). case_decide; [|done]. subst j. by rewrite Hs.
Qed.

Lemma slots_run schedule p i :
  slots (run'' schedule p) !! i = Nat.iter (turns_given i schedule) turn' <$> slots p !! i.
Proof.
  revert p. induction schedule as [|j schedule IH]; intros p.
  - simpl. by destruct (slots p !! i).
  - change (run'' (j :: schedule) p) with (run'' schedule (fire'' j p)).
    rewrite IH, slots_fire, list_lookup_alter. unfold turns_given.
    destruct (decide (j = i)) as [->|Hne].
    + rewrite filter_cons_True by done. simpl.
      destruct (slots p !! i) as [s|]; [|done]. simpl.
      by rewrite <- Nat.iter_succ_r.
    + by rewrite filter_cons_False by done.
Qed.

Lemma turn_spec s :
  turns_left' (turn' s) = pred (turns_left' s) ∧ (sound' s → sound' (turn' s)).
Proof.
  unfold turn. destruct (resume'' s) as [[t script]|] eqn:Hr.
  - pose proof (advance_spec JSON_parse config t script (mkReport [] [] []) []) as Ha.
    unfold suspend. destruct (advance _ _ _ _) as [[s' r'] w']. simpl.
    destruct Ha as (_ & _ & Hl & Hs). split.
    + rewrite Hl. unfold turns_left. by rewrite Hr.
    + intros Hsound. apply Hs. unfold sound in Hsound. rewrite Hr in Hsound.
      by destruct s.
  - split; [|done]. unfold turns_left. by rewrite Hr.
Qed.

Lemma iter_turn_spec k s :
  turns_left' (Nat.iter k turn' s) = (turns_left' s - k)%nat ∧
  (sound' s → sound' (Nat.iter k turn' s)).
Proof.
  induction k as [|k [IH1 IH2]]; simpl; [split; [lia|done]|].
  destruct (turn_spec (Nat.iter k turn' s)) as [-> Hs]. split; [lia|auto].
Qed.

Lemma settled s : turns_left' s = 0%nat → sound' s → s = Fulfilled.
Proof. by destruct s. Qed.

Lemma queued_sound issue script : sound' (Queued issue script).
Proof. unfold sound. simpl. apply issueTask_once. Qed.

Lemma queued_pending issue script : pending' (Queued issue script) = [outcome' issue script].
Proof. unfold pending. simpl. apply issueTask_once. Qed.

Lemma queued_turns issue script :
  (turns_left' (Queued issue script) ≤ turns_needed config)%nat.
Proof.
  unfold turns_left, turns_needed. simpl. apply le_n_S.
  destruct (dryRun config) eqn:Hdry.
  { rewrite play_issueTask_dry by done. unfold awaits. simpl. lia. }
  rewrite play_issueTask by done.
  pose proof (requestWithRetry_awaits (GET config issue) (maxRetries_of config) script) as Hg.
  destruct (play (requestWithRetry (GET config issue) _) script) as [tg rg]. simpl in Hg.
  assert (∀ e, awaits (tg ++ [Pushed e]) ≤ 4 * Z.to_nat (Z.max 1 (maxRetries_of config)))%nat
    as Hone.
  { intros e. rewrite awaits_app. unfold awaits at 2. simpl. lia. }
  destruct rg as [[getRes|]|e]; simpl; try apply Hone.
  destruct (issueAlreadyHasVersion _ _ _ _) as [[|]|e]; simpl; try apply Hone.
  pose proof (requestWithRetry_awaits (PUT config issue) (maxRetries_of config)
                (later (answered tg) script)) as Hp.
  destruct (play (requestWithRetry (PUT config issue) _) _) as [tp rp]. simpl in *.
  rewrite !awaits_app. unfold awaits at 3. simpl. lia.
Qed.

Lemma start_lookup transport i :
  slots (start config transport) !! i =
  (fun issue => Queued issue (transport i)) <$> issues config !! i.
Proof. unfold start. simpl. apply list_lookup_imap. Qed.

(** Whatever the schedule, every slot is a task some turns on. *)
Lemma run_lookup transport schedule i s :
  slots (run'' schedule (start config transport)) !! i = Some s →
  ∃ issue, issues config !! i = Some issue ∧
           s = Nat.iter (turns_given i schedule) turn' (Queued issue (transport i)).
Proof.
  rewrite slots_run, start_lookup. destruct (issues config !! i) as [issue|]; [|done].
  simpl. intros [= <-]. eauto.
Qed.

(** No promise is ever rejected: [Promise.all] never rejects. *)
Lemma run_never_aborts transport schedule :
  aborted (run'' schedule (start config transport)) = false.
Proof.
  unfold aborted. apply not_true_is_false. intros H.
  apply existsb_exists in H as (s & Hin & Hs).
  apply list_elem_of_In, list_elem_of_lookup in Hin as [i Hi].
  apply run_lookup in Hi as (issue & _ & ->).
  pose proof (iter_turn_spec (turns_given i schedule) (Queued issue (transport i))) as [_ Hsound].
  specialize (Hsound (queued_sound _ _)). by destruct (Nat.iter _ _ _).
Qed.

(** Once every task has had the turns it needs, in whatever order, all
    promises are fulfilled and the report is returned. *)
Lemma run_returns transport schedule :
  (∀ i : nat, (i < length (issues config))%nat →
              (turns_needed config ≤ turns_given i schedule)%nat) →
  returned (run'' schedule (start config transport)) = true.
Proof.
  intros Hfair. unfold returned. apply forallb_forall. intros s Hin.
  apply list_elem_of_In, list_elem_of_lookup in Hin as [i Hi].
  apply run_lookup in Hi as (issue & Hissue & ->).
  pose proof (iter_turn_spec (turns_given i schedule) (Queued issue (transport i))) as [Hl Hsound].
  specialize (Hsound (queued_sound _ _)).
  apply lookup_lt_Some in Hissue. specialize (Hfair i Hissue).
  pose proof (queued_turns issue (transport i)).
  rewrite (settled (Nat.iter (turns_given i schedule) turn' (Queued issue (transport i))));
    [done|lia|done].
Qed.

Lemma start_pending transport :
  slots (start config transport) ≫= pending' =
  imap (fun i issue => outcome' issue (transport i)) (issues config).
Proof.
  unfold start. simpl. generalize (issues config). intros l. revert transport.
  induction l as [|issue l IH]; intros transport; [done|].
  rewrite !imap_cons, bind_cons, queued_pending. simpl. f_equal.
  apply (IH (transport ∘ S)).
Qed.

Lemma start_to_send transport :
  slots (start config transport) ≫= to_send' =
  imap (fun i issue => requests (play (issueTask' issue) (transport i)).1) (issues config)
    ≫= id.
Proof.
  unfold start. simpl. generalize (issues config). intros l. revert transport.
  induction l as [|issue l IH]; intros transport; [done|].
  rewrite !imap_cons, !bind_cons. simpl. f_equal. apply (IH (transport ∘ S)).
Qed.

Lemma fulfilled_nothing_left (l : list Slot) :
  forallb is_fulfilled l = true → l ≫= pending' = [] ∧ l ≫= to_send' = [].
Proof.
  induction l as [|s l IH]; [done|]. intros [Hs Hl]%andb_true_iff.
  destruct s; try done. rewrite !bind_cons. destruct (IH Hl) as [-> ->]. done.
Qed.

(** The returned report holds the outcome of every task, and the wire
    the requests of every task, in some order. *)
Lemma returned_report transport schedule :
  let final := run'' schedule (start config transport) in
  returned final = true →
  entries (report final)
    ≡ₚ imap (fun i issue => outcome' issue (transport i)) (issues config) ∧
  wire final ≡ₚ
    imap (fun i issue => requests (play (issueTask' issue) (transport i)).1) (issues config)
      ≫= id.
Proof.
  intros final Hret.
  destruct (run_conserves JSON_parse config schedule (start config transport)) as [He Hw].
  fold final in He, Hw.
  destruct (fulfilled_nothing_left (slots final) Hret) as [Hp Hs].
  rewrite Hp, app_nil_r in He. rewrite Hs, app_nil_r in Hw.
  rewrite He, Hw, start_pending, start_to_send. done.
Qed.

End run_facts.

(** * The claims *)

(** ** The idempotency check *)

Lemma strict_eq_string_spec (x : any) (version : string) :
  strict_eq_string x version = true ↔ x = Some (JString version).
Proof.
  destruct x as [[]|]; simpl; try (split; by intros). rewrite String.eqb_eq.
  split; [by intros ->|by intros [= ->]].
Qed.

(** Whenever the loop over the entries returns, it says whether one of them
    refers to the version. *)
Lemma some_version_sound (l : list json) version versionIsId b :
  some_version l version versionIsId = Returns b →
  b = true ↔ Exists (refers_to version versionIsId) l.
Proof.
  revert b. induction l as [|v l IH]; intros b; simpl.
  { intros [= <-]. split; [done|]. by intros ?%Exists_nil. }
  destruct v as [|c|q|s|a|m]; simpl; try done;
    try (intros Hb; rewrite (IH b Hb), Exists_cons; split; [by right|];
         by intros [(m & [=] & _)|]).
  destruct (strict_eq_string _ _) eqn:Hm.
  - intros [= <-]. split; [|done]. intros _. apply Exists_cons_hd.
    exists m. split; [done|]. by apply strict_eq_string_spec.
  - intros Hb. rewrite (IH b Hb), Exists_cons. split; [by right|].
    intros [(m' & [= <-] & Hk)|]; [|done]. apply strict_eq_string_spec in Hk. congruence.
Qed.

(** It returns when no entry is [null]. *)
Lemma some_version_total (l : list json) version versionIsId :
  Forall (fun v => v ≠ JNull) l → ∃ b, some_version l version versionIsId = Returns b.
Proof.
  induction 1 as [|v l Hv Hl [b IH]]; simpl; [by eexists|].
  destruct v as [|c|q|s|a|m]; simpl; try done; try by exists b.
  destruct (strict_eq_string _ _); by eexists.
Qed.

Lemma held_spec (issueData : json) (versionField : string) :
  issueData ≠ JNull →
  ∃ fields, prop (Some issueData) "fields" = Returns fields ∧
    (if truthy fields
     then match prop fields versionField with Returns x => x | Throws _ => undefined end
     else undefined) = version_field issueData versionField.
Proof.
  intros Hnull. unfold version_field.
  destruct issueData as [|c|q|s|a|m]; simpl; try done; try by exists undefined.
  exists (m !! "fields"). split; [done|].
  destruct (m !! "fields") as [[|c|q|s|a|fields]|]; simpl; try done.
  - by destruct c.
  - by destruct (negb _).
  - by destruct (negb _).
Qed.

Lemma version_refs_absent (issueData : json) (versionField : string) :
  truthy (version_field issueData versionField) = false →
  version_refs issueData versionField = [].
Proof. unfold version_refs. by destruct (version_field _ _) as [[]|]. Qed.

(** C7. The idempotency check is a function of its arguments alone, with
    no effect. Whenever it returns, it returns [true] exactly when some
    entry of the field's collection (empty when the field is missing or
    absent) has its [id] (when [versionIsId]) or [name] (otherwise) equal to
    the target version. It does return on the data of an issue (not [null])
    whose field is missing, absent or an array without [null] entries, and
    it returns [false] when the field is missing or absent. *)
Theorem C7_issueAlreadyHasVersion (issueData : json) (versionField version : string)
    (versionIsId : bool) :
  (∀ b, issueAlreadyHasVersion issueData versionField version versionIsId = Returns b →
        b = true ↔
        Exists (refers_to version versionIsId) (version_refs issueData versionField)) ∧
  (issueData ≠ JNull →
   (truthy (version_field issueData versionField) = true →
    ∃ l, version_field issueData versionField = Some (JArray l)) →
   Forall (fun v => v ≠ JNull) (version_refs issueData versionField) →
   ∃ b, issueAlreadyHasVersion issueData versionField version versionIsId = Returns b) ∧
  (issueData ≠ JNull →
   truthy (version_field issueData versionField) = false →
   version_refs issueData versionField = [] ∧
   issueAlreadyHasVersion issueData versionField version versionIsId = Returns false).
Proof.
  assert (issueData = JNull ∨ issueData ≠ JNull) as [->|Hnull]
    by (destruct issueData; by (left + right)).
  { by split_and!. }
  unfold issueAlreadyHasVersion.
  destruct (held_spec issueData versionField Hnull) as (fields & -> & ->).
  destruct (truthy (version_field issueData versionField)) eqn:Ht.
  - split_and!; [|intros _ Harr Hrefs|done].
    + intros b. unfold version_refs.
      destruct (version_field issueData versionField) as [[| | | |l|]|]; try done.
      apply some_version_sound.
    + destruct (Harr eq_refl) as [l Hl]. unfold version_refs in Hrefs. rewrite Hl in *.
      by apply some_version_total.
  - rewrite (version_refs_absent _ _ Ht). split_and!; [|by eexists|done].
    intros b [= <-]. split; [done|]. by intros ?%Exists_nil.
Qed.

(** ** The retry wrapper *)

Section retry_claims.

Variables (rq : Request) (maxRetries : Z) (script : Script).

(** As long as the replies are retryable and attempts are left, the call
    goes round: try [i] (counting from 0) is made as attempt [i + 1]. *)
Lemma requestWithRetry_rounds (j : nat) :
  (∀ i : nat, (i < j)%nat → retryable (script i) = true) →
  Z.of_nat j < maxRetries →
  play (requestWithRetry rq maxRetries) script =
  let '(trace, r) :=
    play (attempts rq maxRetries (Z.to_nat (maxRetries + 1) - j) (Z.of_nat j))
         (later j script) in
  (rounds rq j 0 script ++ trace, r).
Proof.
  intros Hr Hj. unfold requestWithRetry.
  replace (Z.to_nat (maxRetries + 1 - 0)) with (j + (Z.to_nat (maxRetries + 1) - j))%nat by lia.
  rewrite play_attempts_rounds; [done|done|right; lia].
Qed.

Lemma requestWithRetry_sleep (i : nat) :
  (∀ j : nat, (j ≤ i)%nat → retryable (script j) = true) →
  Z.of_nat i + 1 < maxRetries →
  sleeps (play (requestWithRetry rq maxRetries) script).1 !! i =
  Some (backoff (script i) (Z.of_nat i + 1)).
Proof.
  intros Hr Hi. rewrite (requestWithRetry_rounds (S i)) by (try lia; intros; apply Hr; lia).
  destruct (play _ (later (S i) script)) as [trace r]. cbn [fst].
  rewrite sleeps_app, lookup_app_l.
  - rewrite sleeps_rounds by lia. by rewrite Z.add_0_l.
  - unfold sleeps. clear. generalize 0. generalize script.
    induction i as [|i IH]; intros s a; simpl; [lia|]. specialize (IH (later 1 s) (a + 1)).
    simpl in IH. lia.
Qed.

(** When every reply before the last allowed attempt is retryable, the
    call ends with that attempt, whatever its reply. *)
Lemma requestWithRetry_exhausted :
  0 ≤ maxRetries →
  let final := (Z.to_nat (Z.max 1 maxRetries) - 1)%nat in
  (∀ i : nat, (i < final)%nat → retryable (script i) = true) →
  play (requestWithRetry rq maxRetries) script =
  (rounds rq final 0 script ++ [Requested rq (script final)], handed_back (script final)).
Proof.
  intros Hm final Hr. unfold requestWithRetry.
  replace (Z.to_nat (maxRetries + 1 - 0))
    with (final + S (Z.to_nat (maxRetries + 1) - S final))%nat by lia.
  rewrite play_attempts_rounds; [|done|lia].
  rewrite play_attempts_S. simpl.
  assert ((0 + Z.of_nat final + 1 <? maxRetries) = false) as -> by lia.
  rewrite andb_false_r. unfold later. by rewrite Nat.add_0_r.
Qed.

End retry_claims.

(** C4 fails at [maxRetries = 0]: the request is still made once. *)
Lemma C4_counterexample : ¬ C4_as_stated.
Proof.
  intros H.
  specialize (H (mkRequest "GET" "https://example.atlassian.net/rest/api/3/issue/ABC-1" None)
                0 (fun _ => Resolved (mkResponse (Some 500) None "")) ltac:(lia)).
  vm_compute in H. by apply H.
Qed.

(** C4, amended. For every call with [maxRetries >= 0] the counter is 1 at
    the first try (it starts at 0 and goes up before each try: try [i],
    counting from 0, backs off as attempt [i + 1]), and the transport is
    invoked at least once and at most [max 1 maxRetries] times. *)
Theorem C4_attempts_bound (rq : Request) (maxRetries : Z) (script : Script) :
  0 ≤ maxRetries →
  let trace := (play (requestWithRetry rq maxRetries) script).1 in
  1 ≤ Z.of_nat (answered trace) ≤ Z.max 1 maxRetries ∧
  (∀ i : nat, (∀ j : nat, (j ≤ i)%nat → retryable (script j) = true) →
     Z.of_nat i + 1 < maxRetries →
     sleeps trace !! i = Some (backoff (script i) (Z.of_nat i + 1))).
Proof.
  intros Hm trace. split.
  - pose proof (attempts_trace rq maxRetries (Z.to_nat (maxRetries + 1 - 0)) 0 script) as Ht.
    unfold trace, requestWithRetry. destruct (play _ script) as [tr r]. simpl.
    destruct Ht as (_ & _ & _ & Hu & Hl & _). lia.
  - intros i Hr Hi. by apply requestWithRetry_sleep.
Qed.

(** C9. At exhaustion the wrapper is asymmetric: when every reply before
    the last allowed attempt was retryable, a response to that attempt,
    whatever its status, is returned to the caller, and a transport
    exception of that attempt is thrown to the caller. *)
Theorem C9_exhaustion_asymmetry (rq : Request) (maxRetries : Z) (script : Script) :
  0 ≤ maxRetries →
  let final := (Z.to_nat (Z.max 1 maxRetries) - 1)%nat in
  (∀ i : nat, (i < final)%nat → retryable (script i) = true) →
  answered (play (requestWithRetry rq maxRetries) script).1 = S final ∧
  (∀ res, script final = Resolved res →
     (play (requestWithRetry rq maxRetries) script).2 = Returns (Some res)) ∧
  (∀ err, script final = Rejected err →
     (play (requestWithRetry rq maxRetries) script).2 = Throws err).
Proof.
  intros Hm final Hr. rewrite requestWithRetry_exhausted by done. fold final. simpl.
  split_and!.
  - unfold answered. rewrite requests_app, length_app. fold (answered (rounds rq final 0 script)).
    rewrite answered_rounds. simpl. lia.
  - by intros res ->.
  - by intros err ->.
Qed.

(** ** The wait before a retry *)

(** C2 fails on a retry-after text that is no number: the wait is [NaN],
    not [2 ^ attempt] seconds. *)
Lemma C2_counterexample : ¬ C2_as_stated.
Proof.
  intros H.
  specialize (H (mkRequest "PUT" "https://example.atlassian.net/rest/api/3/issue/ABC-4" None)
                3 (fun _ => Resolved unavailable_until_date) 0%nat unavailable_until_date).
  assert (sleeps (play (requestWithRetry
            (mkRequest "PUT" "https://example.atlassian.net/rest/api/3/issue/ABC-4" None) 3)
            (fun _ => Resolved unavailable_until_date)).1 !! 0%nat = Some NaN) as Hcode
    by (vm_compute; reflexivity).
  rewrite H in Hcode; [|by intros|done|lia].
  vm_compute in Hcode. discriminate Hcode.
Qed.

Lemma absent_nonempty v : absent v → nonempty v = false.
Proof. by intros [->| ->]. Qed.

Lemma present_nonempty v : v ≠ "" → nonempty (Some v) = true.
Proof. intros H. simpl. apply negb_true_iff, String.eqb_neq. done. Qed.

(** C2, amended. When a retryable response comes in and another attempt
    remains, the wait before the next attempt is [Number(v)] seconds, [v]
    being the non-empty value under [retry-after], or else the non-empty
    value under [Retry-After] (these two spellings only), also when [v] is
    no number, which makes the wait [NaN]; when neither is there the wait is
    [2 ^ attempt] seconds. *)
Theorem C2_retry_wait (rq : Request) (maxRetries : Z) (script : Script) (i : nat)
    (res : Response) :
  (∀ j : nat, (j ≤ i)%nat → retryable (script j) = true) →
  script i = Resolved res →
  Z.of_nat i + 1 < maxRetries →
  let slept := sleeps (play (requestWithRetry rq maxRetries) script).1 !! i in
  let lower := headers res ≫= (fun h => h !! "retry-after") in
  let upper := headers res ≫= (fun h => h !! "Retry-After") in
  (∀ v, lower = Some v → v ≠ "" → slept = Some (times (Number v) (of_Z 1000))) ∧
  (∀ v, absent lower → upper = Some v → v ≠ "" →
        slept = Some (times (Number v) (of_Z 1000))) ∧
  (absent lower → absent upper →
   slept = Some (times (pow2 (Z.of_nat i + 1)) (of_Z 1000))).
Proof.
  intros Hr Hres Hi slept lower upper. unfold slept.
  rewrite requestWithRetry_sleep by done. rewrite Hres. simpl.
  unfold waitSec, retryAfterHeader. unfold lower, upper.
  destruct (headers res) as [h|]; simpl.
  - split_and!.
    + intros v Hv Hne. unfold or_else. rewrite Hv, (present_nonempty v Hne).
      by rewrite (present_nonempty v Hne).
    + intros v Ha Hv Hne. unfold or_else. rewrite (absent_nonempty _ Ha), Hv.
      by rewrite (present_nonempty v Hne).
    + intros Ha Hb. unfold or_else. rewrite (absent_nonempty _ Ha).
      by rewrite (absent_nonempty _ Hb).
  - split_and!; done.
Qed.

(** ** A response body that is missing or is no JSON *)

Section issue_claims.

Variable JSON_parse : string → option json.
Variable config : JiraConfig.

Lemma issueData_of_malformed (getBody : string) :
  getBody = "" ∨ JSON_parse getBody = None →
  issueData_of JSON_parse getBody = JObject ∅.
Proof.
  unfold issueData_of. intros [->| ->]; [done|]. by destruct (String.eqb getBody "").
Qed.

(** A call with [maxRetries >= 0] starts with its request. *)
Lemma requestWithRetry_first rq script :
  0 ≤ maxRetries_of config →
  ∃ rest, (play (requestWithRetry rq (maxRetries_of config)) script).1 =
          Requested rq (script 0%nat) :: rest.
Proof.
  intros Hm. unfold requestWithRetry.
  replace (Z.to_nat (maxRetries_of config + 1 - 0))
    with (S (Z.to_nat (maxRetries_of config))) by lia.
  rewrite play_attempts_S. simpl. destruct (retryable _ && _); [|by eexists].
  destruct (play _ (later 1 script)). by eexists.
Qed.

(** A call that returns a response was made with [maxRetries >= 0]. *)
Lemma requestWithRetry_returned rq script trace res :
  play (requestWithRetry rq (maxRetries_of config)) script = (trace, Returns (Some res)) →
  0 ≤ maxRetries_of config.
Proof.
  unfold requestWithRetry. destruct (Z.to_nat (maxRetries_of config + 1 - 0)) eqn:Hn; [done|].
  intros _. lia.
Qed.

(** C8. When the GET comes back (successful or not, at the first attempt
    or a later one) with a body that is missing or that [JSON.parse]
    rejects, the task does not fail for it: no exception leaves the task,
    the next thing it does is the PUT, and the one entry it pushes is the
    one the write earns. *)
Theorem C8_malformed_body (issue : string) (script : Script) (tg : list Event)
    (getRes : Response) :
  dryRun config = false →
  play (requestWithRetry (GET config issue) (maxRetries_of config)) script
    = (tg, Returns (Some getRes)) →
  readBody getRes = "" ∨ JSON_parse (readBody getRes) = None →
  let played := play (issueTask JSON_parse config issue) script in
  played.2 = Returns tt ∧
  (∃ rest, played.1 = tg ++ Requested (PUT config issue) (script (answered tg)) :: rest) ∧
  pushes played.1 =
    [written issue (play (requestWithRetry (PUT config issue) (maxRetries_of config))
                         (later (answered tg) script)).2].
Proof.
  intros Hdry Hget Hbody played. unfold played.
  pose proof (requestWithRetry_returned _ _ _ _ Hget) as Hm.
  pose proof (attempts_trace (GET config issue) (maxRetries_of config)
                (Z.to_nat (maxRetries_of config + 1 - 0)) 0 script) as Hg.
  fold (requestWithRetry (GET config issue) (maxRetries_of config)) in Hg.
  rewrite play_issueTask by done. rewrite Hget in *. destruct Hg as (Hg & _).
  rewrite issueData_of_malformed by done.
  change (issueAlreadyHasVersion (JObject ∅) _ _ _) with (@Returns bool false).
  destruct (requestWithRetry_first (PUT config issue) (later (answered tg) script) Hm)
    as [rest Hrest].
  pose proof (attempts_trace (PUT config issue) (maxRetries_of config)
                (Z.to_nat (maxRetries_of config + 1 - 0)) 0 (later (answered tg) script)) as Hp.
  fold (requestWithRetry (PUT config issue) (maxRetries_of config)) in Hp.
  destruct (play (requestWithRetry (PUT config issue) _) (later (answered tg) script))
    as [tp rp].
  simpl in *. destruct Hp as (Hp & _). subst tp. split_and!; [done| |].
  - exists (rest ++ [Pushed (written issue rp)]). unfold later. by rewrite Nat.add_0_r.
  - rewrite !pushes_app, Hg. simpl in *. by rewrite Hp.
Qed.

End issue_claims.

(** ** A request answered 404 *)

Lemma lookup_request (a b : list Event) (e : Entry) (i : nat) rq reply :
  (a ++ b ++ [Pushed e]) !! i = Some (Requested rq reply) →
  a !! i = Some (Requested rq reply) ∨
  ((length a ≤ i)%nat ∧ b !! (i - length a)%nat = Some (Requested rq reply)).
Proof.
  intros H. destruct (decide (i < length a)%nat) as [Hlt|Hge].
  - left. by rewrite lookup_app_l in H.
  - right. split; [lia|]. rewrite lookup_app_r in H by lia.
    destruct (decide (i - length a < length b)%nat).
    + by rewrite lookup_app_l in H.
    + rewrite lookup_app_r in H by lia.
      destruct (i - length a - length b)%nat; simpl in H; [done|].
      by rewrite lookup_nil in H.
Qed.

Section not_found.

Variable JSON_parse : string → option json.
Variable config : JiraConfig.

(** The run of a task that is not a dry run: the events of the read, those
    of the write if it comes to it, and one push. *)
Lemma issueTask_shape (issue : string) (script : Script) :
  dryRun config = false →
  let '(tg, rg) := play (requestWithRetry (GET config issue) (maxRetries_of config)) script in
  ∃ tp e, (play (issueTask JSON_parse config issue) script).1 = tg ++ tp ++ [Pushed e] ∧
    (tp = [] ∨
     ∃ rp, play (requestWithRetry (PUT config issue) (maxRetries_of config))
                (later (answered tg) script) = (tp, rp) ∧ e = written issue rp).
Proof.
  intros Hdry. rewrite play_issueTask by done.
  destruct (play (requestWithRetry (GET config issue) _) script) as [tg rg].
  destruct rg as [[getRes|]|err]; try (by exists []; eexists; split; [done|by left]).
  destruct (issueAlreadyHasVersion _ _ _ _) as [[|]|err];
    try (by exists []; eexists; split; [done|by left]).
  destruct (play (requestWithRetry (PUT config issue) _) _) as [tp rp] eqn:Hp.
  exists tp. eexists. split; [done|]. right. by exists rp.
Qed.

(** C1. A request answered 404 is not retried. When it is the PUT, the
    task ends there: all that follows is the push of the issue to [failed],
    under an error that holds the status 404 and the body. When it is the
    GET, the task does not end: the status of the GET's answer is looked at
    nowhere, no further GET is sent, and the task goes on from the body of
    the answer as from any other. It skips the issue when the body shows
    the version; otherwise, so on the body of Jira's own 404, which has no
    [fields], the next thing it does is the PUT, and the entry of the issue
    is the one the write earns. *)
Theorem C1_not_found (issue : string) (script : Script) (i : nat) (rq : Request)
    (res : Response) :
  let trace := (play (issueTask JSON_parse config issue) script).1 in
  trace !! i = Some (Requested rq (Resolved res)) →
  status_of res = 404 →
  (rq = GET config issue ∨ rq = PUT config issue) ∧
  (rq = PUT config issue →
   drop (S i) trace =
     [Pushed (Failed (mkFailure issue ("HTTP 404: " +:+ readBody res)))] ∧
   includes "404" ("HTTP 404: " +:+ readBody res) = true) ∧
  (rq = GET config issue →
   (∀ (j : nat) rq' reply, (i < j)%nat → trace !! j = Some (Requested rq' reply) →
      rq' = PUT config issue) ∧
   drop (S i) trace =
     match issueAlreadyHasVersion (issueData_of JSON_parse (readBody res))
             (field config) (version config) (versionIsId config) with
     | Returns true => [Pushed (Skipped issue)]
     | Returns false =>
         let '(tp, rp) := play (requestWithRetry (PUT config issue) (maxRetries_of config))
                               (later (answered (take (S i) trace)) script) in
         tp ++ [Pushed (written issue rp)]
     | Throws e => [Pushed (caught issue e)]
     end ∧
   (issueAlreadyHasVersion (issueData_of JSON_parse (readBody res))
      (field config) (version config) (versionIsId config) = Returns false →
    trace !! S i
    = Some (Requested (PUT config issue) (script (answered (take (S i) trace)))))).
Proof.
  intros trace Hi H404. unfold trace in *. clear trace.
  destruct (dryRun config) eqn:Hdry.
  { rewrite play_issueTask_dry in Hi by done. by destruct i as [|[|i]]. }
  assert (final_status (status_of res) = true) as Hfinal by (by rewrite H404).
  assert (GET config issue ≠ PUT config issue) as Hne by done.
  pose proof (play_issueTask JSON_parse config issue script Hdry) as Hplay.
  pose proof (issueTask_shape issue script Hdry) as Hshape.
  pose proof (attempts_trace (GET config issue) (maxRetries_of config)
                (Z.to_nat (maxRetries_of config + 1 - 0)) 0 script) as Hg.
  fold (requestWithRetry (GET config issue) (maxRetries_of config)) in Hg.
  destruct (play (requestWithRetry (GET config issue) _) script) as [tg rg] eqn:Hget.
  destruct Hshape as (tp & e & Htrace & Hput).
  destruct Hg as (_ & Hgq & _ & _ & _ & Hgfin & _).
  assert (∀ (j : nat) rq' reply, tp !! j = Some (Requested rq' reply) → rq' = PUT config issue)
    as Hpq.
  { destruct Hput as [->|(rp & Hp & _)]; [by intros j ? ?; rewrite lookup_nil|].
    pose proof (attempts_trace (PUT config issue) (maxRetries_of config)
                  (Z.to_nat (maxRetries_of config + 1 - 0)) 0 (later (answered tg) script)) as H.
    fold (requestWithRetry (PUT config issue) (maxRetries_of config)) in H.
    rewrite Hp in H. apply H. }
  assert (Hi' := Hi). rewrite Htrace in Hi'. apply lookup_request in Hi' as [Hi'|[Hle Hi']].
  - (* the GET *)
    pose proof (Hgq _ _ _ Hi') as ->. destruct (Hgfin _ _ _ Hi' Hfinal) as [Hlen ->].
    split_and!; [by left|done|]. intros _. split_and!.
    + rewrite Htrace. intros j rq' reply Hj Hlook.
      apply lookup_request in Hlook as [Hlook|[_ Hlook]]; [|by eapply Hpq].
      apply lookup_lt_Some in Hlook. lia.
    + assert (take (S i) (play (issueTask JSON_parse config issue) script).1 = tg) as ->.
      { rewrite Htrace. by rewrite take_app_length'. }
      rewrite Hplay. destruct (issueAlreadyHasVersion _ _ _ _) as [[|]|err].
      * simpl. by rewrite drop_app_length'.
      * destruct (play (requestWithRetry (PUT config issue) _) _) as [tp' rp']. simpl.
        by rewrite drop_app_length'.
      * simpl. by rewrite drop_app_length'.
    + intros Hcheck.
      assert (take (S i) (play (issueTask JSON_parse config issue) script).1 = tg) as ->.
      { rewrite Htrace. by rewrite take_app_length'. }
      rewrite Hplay, Hcheck.
      pose proof (requestWithRetry_returned config _ _ _ _ Hget) as Hm.
      destruct (requestWithRetry_first config (PUT config issue)
                  (later (answered tg) script) Hm) as [rest Hrest].
      destruct (play (requestWithRetry (PUT config issue) _) _) as [tp' rp']. simpl in *.
      subst tp'. rewrite lookup_app_r by lia. rewrite Hlen, Nat.sub_diag. simpl.
      unfold later. by rewrite Nat.add_0_r.
  - (* the PUT *)
    rewrite Htrace in *.
    pose proof (Hpq _ _ _ Hi') as ->.
    split_and!; [by right| |done]. intros _.
    destruct Hput as [->|(rp & Hp & ->)]; [by rewrite lookup_nil in Hi'|].
    pose proof (attempts_trace (PUT config issue) (maxRetries_of config)
                  (Z.to_nat (maxRetries_of config + 1 - 0)) 0 (later (answered tg) script)) as H.
    fold (requestWithRetry (PUT config issue) (maxRetries_of config)) in H.
    rewrite Hp in H. destruct H as (_ & _ & _ & _ & _ & Hpfin & _).
    destruct (Hpfin _ _ _ Hi' Hfinal) as [Hlen ->]. split; [|done].
    rewrite (assoc_L (++)), drop_app_length'; [|rewrite length_app; lia].
    simpl. unfold classified. by rewrite H404.
Qed.

End not_found.

(** ** The run *)

Lemma imap_delete {X Y : Type} (f : X → Script → Y) (transport : nat → Script)
    (i : nat) (l : list X) :
  imap (fun j x => f x (skip i transport j)) (delete i l) =
  delete i (imap (fun j x => f x (transport j)) l).
Proof.
  apply list_eq. intros j. rewrite list_lookup_imap. unfold skip.
  destruct (decide (j < i)%nat).
  - rewrite !list_lookup_delete_lt by done. by rewrite list_lookup_imap.
  - rewrite !list_lookup_delete_ge by lia. by rewrite list_lookup_imap.
Qed.

(** The call has returned [r] when every promise is fulfilled and [r] is
    the report. *)
Lemma pLimit_valid (concurrency : Z) :
  1 ≤ concurrency → pLimit concurrency = Returns concurrency.
Proof. intros H. unfold pLimit. by assert ((1 <=? concurrency) = true) as -> by lia. Qed.

Lemma pLimit_invalid (concurrency : Z) :
  concurrency < 1 →
  pLimit concurrency = Throws (TypeError "Expected `concurrency` to be a number from 1 and up").
Proof. intros H. unfold pLimit. by assert ((1 <=? concurrency) = false) as -> by lia. Qed.

Lemma assignVersionToIssues_Some JSON_parse config transport schedule r :
  assignVersionToIssues JSON_parse config transport schedule = Some r ↔
  1 ≤ concurrency_of config ∧
  returned (run JSON_parse config schedule (start config transport)) = true ∧
  report (run JSON_parse config schedule (start config transport)) = r.
Proof.
  unfold assignVersionToIssues. destruct (decide (1 ≤ concurrency_of config)) as [Hc|Hc].
  - rewrite pLimit_valid by done. simpl. destruct (returned _).
    + split; [by intros [= <-]|by intros (_ & _ & <-)].
    + split; [done|by intros (_ & ? & _)].
  - rewrite pLimit_invalid by lia. split; [done|by intros (? & _)].
Qed.

Lemma assignVersionToIssues_is_Some JSON_parse config transport schedule :
  1 ≤ concurrency_of config →
  returned (run JSON_parse config schedule (start config transport)) = true →
  is_Some (assignVersionToIssues JSON_parse config transport schedule).
Proof.
  intros Hc H. unfold assignVersionToIssues. rewrite pLimit_valid by done. simpl.
  rewrite H. by eexists.
Qed.

(** With a limit below 1 the call rejects with the [TypeError] of
    [pLimit], and there is no report, whatever the turns. *)
Lemma assignVersionToIssues_rejects JSON_parse config transport schedule :
  concurrency_of config < 1 →
  rejection config
    = Some (TypeError "Expected `concurrency` to be a number from 1 and up") ∧
  assignVersionToIssues JSON_parse config transport schedule = None.
Proof.
  intros Hc. unfold rejection, assignVersionToIssues. by rewrite pLimit_invalid.
Qed.

Section run_claims.

Variable JSON_parse : string → option json.
Variable config : JiraConfig.

(** Once every task has had as many turns as it takes, in whatever order,
    all promises are fulfilled. *)
Lemma run_returns_at transport schedule :
  (∀ (i : nat) issue, issues config !! i = Some issue →
     (turns_left JSON_parse config (Queued issue (transport i)) ≤ turns_given i schedule)%nat) →
  returned (run JSON_parse config schedule (start config transport)) = true.
Proof.
  intros Hfair. unfold returned. apply forallb_forall. intros s Hin.
  apply list_elem_of_In, list_elem_of_lookup in Hin as [i Hi].
  apply run_lookup in Hi as (issue & Hissue & ->).
  pose proof (iter_turn_spec JSON_parse config (turns_given i schedule)
                (Queued issue (transport i))) as [Hl Hsound].
  specialize (Hsound (queued_sound _ _ _ _)). specialize (Hfair i issue Hissue).
  rewrite (settled JSON_parse config
             (Nat.iter (turns_given i schedule) (turn JSON_parse config)
                (Queued issue (transport i)))); [done|lia|done].
Qed.

Lemma issues_of_outcomes transport (l : list string) :
  issue_of <$> imap (fun i issue => outcome JSON_parse config issue (transport i)) l = l.
Proof.
  revert transport. induction l as [|issue l IH]; intros transport; [done|].
  rewrite imap_cons, fmap_cons. f_equal; [apply issueTask_once|apply (IH (transport ∘ S))].
Qed.

(** C3. Whatever the issues (duplicates included), the replies of the
    transport (exceptions included) and the order of the turns: no task's
    promise is ever rejected; with a concurrency limit of 1 or more (4
    when none is given) the call returns a report once every task has had
    its turns; and in every report it returns the three buckets together
    hold as many entries as there are input issues, one for each input
    issue. With a limit below 1 there is no run and no report: [pLimit]
    throws and the call rejects. *)
Theorem C3_partition (transport : nat → Script) (schedule : list nat) :
  aborted (run JSON_parse config schedule (start config transport)) = false ∧
  (1 ≤ concurrency_of config →
   (∀ i : nat, (i < length (issues config))%nat →
      (turns_needed config ≤ turns_given i schedule)%nat) →
   is_Some (assignVersionToIssues JSON_parse config transport schedule)) ∧
  (∀ r, assignVersionToIssues JSON_parse config transport schedule = Some r →
   (length (updated r) + length (skipped r) + length (failed r)
      = length (issues config))%nat ∧
   issue_of <$> entries r ≡ₚ issues config) ∧
  (concurrency_of config < 1 →
   is_Some (rejection config) ∧
   assignVersionToIssues JSON_parse config transport schedule = None).
Proof.
  split_and!.
  - apply run_never_aborts.
  - intros Hc Hfair. by apply assignVersionToIssues_is_Some, run_returns.
  - intros r (_ & Hret & <-)%assignVersionToIssues_Some.
    destruct (returned_report JSON_parse config transport schedule Hret) as [He _]. split.
    + rewrite <- length_entries, He. apply length_imap.
    + rewrite He. by rewrite issues_of_outcomes.
  - intros Hc.
    destruct (assignVersionToIssues_rejects JSON_parse config transport schedule Hc)
      as [-> ->].
    by split; [eexists|].
Qed.

(** The outcome of a task whose [try] block throws: the entry of the
    [catch] block. *)
Lemma outcome_caught issue script e :
  (play (tryBlock JSON_parse config issue) script).2 = Throws e →
  outcome JSON_parse config issue script = caught issue e.
Proof.
  intros Hthrow.
  destruct (issueTask_once JSON_parse config issue script) as (Hone & _).
  unfold issueTask in Hone. rewrite play_try_catch in Hone.
  destruct (play (tryBlock JSON_parse config issue) script) as [trace r].
  simpl in Hthrow. subst r. simpl in Hone. rewrite pushes_app in Hone. simpl in Hone.
  destruct (pushes trace) as [|e1 [|e2 l]]; simpl in Hone; by simplify_eq.
Qed.

(** C5. An exception in the processing of one issue ends up as that
    issue's entry in [failed], with the exception's message. It never
    aborts the run, and the report is the report of the run without that
    issue (the transport answering the other issues the same) with that one
    entry more: the other issues' entries are what they are without it. *)
Theorem C5_fault_isolation (transport : nat → Script) (i : nat) (issue : string) (e : Error) :
  issues config !! i = Some issue →
  (play (tryBlock JSON_parse config issue) (transport i)).2 = Throws e →
  (play (issueTask JSON_parse config issue) (transport i)).2 = Returns tt ∧
  pushes (play (issueTask JSON_parse config issue) (transport i)).1
    = [Failed (mkFailure issue (message e))] ∧
  (∀ schedule, aborted (run JSON_parse config schedule (start config transport)) = false) ∧
  (∀ schedule schedule' r r',
     assignVersionToIssues JSON_parse config transport schedule = Some r →
     assignVersionToIssues JSON_parse (without i config) (skip i transport) schedule'
       = Some r' →
     updated r ≡ₚ updated r' ∧
     skipped r ≡ₚ skipped r' ∧
     failed r ≡ₚ mkFailure issue (message e) :: failed r').
Proof.
  intros Hissue Hthrow.
  destruct (issueTask_once JSON_parse config issue (transport i)) as (Hone & _ & Hres).
  rewrite (outcome_caught _ _ _ Hthrow) in Hone.
  split_and!; [done|done|apply run_never_aborts|].
  intros schedule schedule' r r' (_ & Hret & <-)%assignVersionToIssues_Some.
  intros (_ & Hret' & <-)%assignVersionToIssues_Some.
  destruct (returned_report JSON_parse config transport schedule Hret) as [He _].
  destruct (returned_report JSON_parse (without i config) (skip i transport) schedule' Hret')
    as [He' _].
  simpl in He, He'.
  set (final := run JSON_parse config schedule (start config transport)) in *.
  set (final' := run JSON_parse (without i config) schedule'
                     (start (without i config) (skip i transport))) in *.
  assert (entries (report final) ≡ₚ caught issue e :: entries (report final')) as Hperm.
  { rewrite He, He'.
    change (issues (without i config)) with (delete i (issues config)).
    change (outcome JSON_parse (without i config)) with (outcome JSON_parse config).
    rewrite (imap_delete (outcome JSON_parse config)).
    rewrite <- (outcome_caught _ _ _ Hthrow).
    apply delete_Permutation. by rewrite list_lookup_imap, Hissue. }
  rewrite !updated_entries, !skipped_entries, !failed_entries.
  split_and!.
  - by rewrite Hperm.
  - by rewrite Hperm.
  - by rewrite Hperm.
Qed.

Lemma dry_outcomes transport :
  dryRun config = true →
  imap (fun i issue => outcome JSON_parse config issue (transport i)) (issues config)
  = Updated <$> issues config.
Proof.
  intros Hdry. rewrite <- imap_const. apply imap_ext. intros i issue _. simpl.
  unfold outcome. by rewrite play_issueTask_dry.
Qed.

Lemma dry_requests transport :
  dryRun config = true →
  imap (fun i issue => requests (play (issueTask JSON_parse config issue) (transport i)).1)
       (issues config) ≫= id = [].
Proof.
  intros Hdry. generalize (issues config). intros l. revert transport.
  induction l as [|issue l IH]; intros transport; [done|].
  rewrite imap_cons, bind_cons. rewrite play_issueTask_dry by done. simpl.
  apply (IH (transport ∘ S)).
Qed.

(** C6. In a dry run, whatever the order of the turns: no request is ever
    handed to the transport, nothing is ever pushed to [skipped] or
    [failed], with a concurrency limit of 1 or more (4 when none is given)
    the call returns a report once every task has had one turn, and every
    report it returns has in [updated] the input issues, each as often as
    it is in the input, and nothing in [skipped] and [failed]. With a
    limit below 1 there is no run, no request and no report: [pLimit]
    throws and the call rejects. *)
Theorem C6_dry_run (transport : nat → Script) (schedule : list nat) :
  dryRun config = true →
  let final := run JSON_parse config schedule (start config transport) in
  wire final = [] ∧
  skipped (report final) = [] ∧
  failed (report final) = [] ∧
  (1 ≤ concurrency_of config →
   (∀ i : nat, (i < length (issues config))%nat → (1 ≤ turns_given i schedule)%nat) →
   is_Some (assignVersionToIssues JSON_parse config transport schedule)) ∧
  (∀ r, assignVersionToIssues JSON_parse config transport schedule = Some r →
        updated r ≡ₚ issues config ∧ skipped r = [] ∧ failed r = []) ∧
  (concurrency_of config < 1 →
   is_Some (rejection config) ∧
   assignVersionToIssues JSON_parse config transport schedule = None).
Proof.
  intros Hdry final.
  destruct (run_conserves JSON_parse config schedule (start config transport)) as [He Hw].
  fold final in He, Hw.
  rewrite start_pending, dry_outcomes in He by done.
  rewrite start_to_send, dry_requests in Hw by done. simpl in He, Hw.
  assert (skipped (report final) = []) as Hskipped.
  { apply (omap_Permutation skipped_of) in He. rewrite omap_app in He.
    rewrite (omap_miss skipped_of Updated) in He by done.
    apply Permutation_nil_r, app_eq_nil in He as [He _]. by rewrite skipped_entries. }
  assert (failed (report final) = []) as Hfailed.
  { apply (omap_Permutation failed_of) in He. rewrite omap_app in He.
    rewrite (omap_miss failed_of Updated) in He by done.
    apply Permutation_nil_r, app_eq_nil in He as [He _]. by rewrite failed_entries. }
  split_and!; try done.
  - apply Permutation_nil_r in Hw. by apply app_eq_nil in Hw as [? _].
  - intros Hc Hfair. apply assignVersionToIssues_is_Some; [done|].
    apply run_returns_at. intros i issue Hi.
    unfold turns_left. simpl. rewrite play_issueTask_dry by done.
    apply Hfair. by eapply lookup_lt_Some.
  - intros r (_ & Hret & <-)%assignVersionToIssues_Some. fold final in Hret |- *.
    split_and!; try done.
    destruct (fulfilled_nothing_left JSON_parse config _ Hret) as [Hp _].
    rewrite Hp, app_nil_r in He.
    rewrite updated_entries, He. by rewrite (omap_hit updated_of Updated).
  - intros Hc.
    destruct (assignVersionToIssues_rejects JSON_parse config transport schedule Hc)
      as [-> ->].
    by split; [eexists|].
Qed.

End run_claims.

(** ** The concurrency limit *)

Section limiter_facts.

Variable JSON_parse : string → option json.
Variable config : JiraConfig.

Abbreviation fire_limited' := (fire_limited JSON_parse config).
Abbreviation run_limited' := (run_limited JSON_parse config).
Abbreviation work_left' := (work_left JSON_parse config).

Lemma in_flight_active (p : Pool) : (in_flight p ≤ active p)%nat.
Proof.
  unfold in_flight, active. induction (slots p) as [|s l IH]; [done|].
  destruct s; simpl; lia.
Qed.

(** What a turn does to the count of tasks at work. *)
Lemma active_alter (l : list Slot) (i : nat) (s : Slot) (f : Slot → Slot) :
  l !! i = Some s →
  (length (List.filter is_active (alter f i l)) + (if is_active s then 1 else 0)
   = length (List.filter is_active l) + (if is_active (f s) then 1 else 0))%nat.
Proof.
  intros Hs. apply list_elem_of_split_length in Hs as (front & back & -> & ->).
  rewrite alter_app_r_alt, Nat.sub_diag by done. simpl.
  rewrite !List.filter_app, !length_app. simpl.
  destruct (is_active s), (is_active (f s)); simpl; lia.
Qed.

Lemma alter_beyond {A : Type} (f : A → A) (l : list A) (i : nat) :
  (length l ≤ i)%nat → alter f i l = l.
Proof.
  revert i. induction l as [|x l IH]; intros [|i] Hi; simpl in *; try done; [lia|].
  f_equal. apply IH. lia.
Qed.

Lemma active_fire (i : nat) (p : Pool) :
  match slots p !! i with
  | Some (Queued _ _) => (active (fire JSON_parse config i p) ≤ S (active p))%nat
  | _ => (active (fire JSON_parse config i p) ≤ active p)%nat
  end.
Proof.
  unfold active. rewrite slots_fire.
  destruct (slots p !! i) as [s|] eqn:Hs.
  - pose proof (active_alter (slots p) i s (turn JSON_parse config) Hs) as H.
    destruct s; simpl in H; try lia;
      destruct (is_active (turn JSON_parse config _)); lia.
  - rewrite alter_beyond; [done|]. by apply lookup_ge_None.
Qed.

Lemma fire_limited_cap (i : nat) (p : Pool) :
  Z.of_nat (active p) ≤ concurrency_of config →
  Z.of_nat (active (fire_limited' i p)) ≤ concurrency_of config.
Proof.
  intros Hp. unfold fire_limited, admits. pose proof (active_fire i p) as Hf.
  destruct (slots p !! i) as [[]|]; try lia.
  destruct (Z.of_nat (active p) <? concurrency_of config) eqn:Hgate; lia.
Qed.

Lemma run_limited_cons (i : nat) (schedule : list nat) (p : Pool) :
  run_limited' (i :: schedule) p = run_limited' schedule (fire_limited' i p).
Proof. done. Qed.

Lemma run_limited_app (first rest : list nat) (p : Pool) :
  run_limited' (first ++ rest) p = run_limited' rest (run_limited' first p).
Proof. apply foldl_app. Qed.

Lemma run_limited_cap (schedule : list nat) (p : Pool) :
  Z.of_nat (active p) ≤ concurrency_of config →
  Z.of_nat (active (run_limited' schedule p)) ≤ concurrency_of config.
Proof.
  revert p. induction schedule as [|i schedule IH]; intros p Hp; [done|].
  rewrite run_limited_cons. apply IH. by apply fire_limited_cap.
Qed.

Lemma active_start (transport : nat → Script) : active (start config transport) = 0%nat.
Proof.
  unfold active, start. simpl. generalize (issues config). intros l. revert transport.
  induction l as [|issue l IH]; intros transport; [done|].
  rewrite imap_cons. simpl. apply (IH (transport ∘ S)).
Qed.

(** A run under the limiter is a run: the turns the gate lets through. *)
Lemma run_limited_run (schedule : list nat) (p : Pool) :
  ∃ schedule', run_limited' schedule p = run JSON_parse config schedule' p.
Proof.
  revert p. induction schedule as [|i schedule IH]; intros p; [by exists []|].
  rewrite run_limited_cons. unfold fire_limited. destruct (admits _ p i).
  - destruct (IH (fire JSON_parse config i p)) as [schedule' ->]. by exists (i :: schedule').
  - apply IH.
Qed.

(** What a turn does to the work that is left. *)
Lemma work_alter (l : list Slot) (i : nat) (s : Slot) :
  l !! i = Some s →
  (sum_list_with (turns_left JSON_parse config) (alter (turn JSON_parse config) i l)
     + turns_left JSON_parse config s
   = sum_list_with (turns_left JSON_parse config) l
     + pred (turns_left JSON_parse config s))%nat.
Proof.
  intros Hs. apply list_elem_of_split_length in Hs as (front & back & -> & ->).
  rewrite alter_app_r_alt, Nat.sub_diag by done. simpl.
  rewrite !sum_list_with_app. simpl.
  destruct (turn_spec JSON_parse config s) as [-> _]. lia.
Qed.

Lemma work_fire (i : nat) (p : Pool) (s : Slot) :
  slots p !! i = Some s →
  (work_left' (fire JSON_parse config i p) + turns_left JSON_parse config s
   = work_left' p + pred (turns_left JSON_parse config s))%nat.
Proof. intros Hs. unfold work_left. rewrite slots_fire. by apply work_alter. Qed.

Lemma work_fire_limited (i : nat) (p : Pool) :
  (work_left' (fire_limited' i p) ≤ work_left' p)%nat.
Proof.
  unfold fire_limited. destruct (admits _ p i); [|done].
  destruct (slots p !! i) as [s|] eqn:Hs.
  - pose proof (work_fire i p s Hs). lia.
  - unfold work_left. rewrite slots_fire, alter_beyond; [done|]. by apply lookup_ge_None.
Qed.

Lemma work_run_limited (schedule : list nat) (p : Pool) :
  (work_left' (run_limited' schedule p) ≤ work_left' p)%nat.
Proof.
  revert p. induction schedule as [|i schedule IH]; intros p; [done|].
  rewrite run_limited_cons. etrans; [apply IH|apply work_fire_limited].
Qed.

(** A turn the limiter lets through, of a task that has not ended, is
    work done. *)
Lemma fire_limited_works (i : nat) (p : Pool) (s : Slot) :
  slots p !! i = Some s →
  admits (concurrency_of config) p i = true →
  turns_left JSON_parse config s ≠ 0%nat →
  (work_left' (fire_limited' i p) < work_left' p)%nat.
Proof.
  intros Hs Hgate Hleft. unfold fire_limited. rewrite Hgate.
  pose proof (work_fire i p s Hs). lia.
Qed.

(** Over a round of turns, either work is done or every turn found
    nothing to do. *)
Lemma round_works_or_idles (round : list nat) (p : Pool) :
  (work_left' (run_limited' round p) < work_left' p)%nat ∨
  (∀ i s, i ∈ round → slots p !! i = Some s →
          admits (concurrency_of config) p i = true →
          turns_left JSON_parse config s = 0%nat).
Proof.
  revert p. induction round as [|i round IH]; intros p.
  { right. intros i s Hin. by apply elem_of_nil in Hin. }
  rewrite run_limited_cons.
  destruct (slots p !! i) as [s|] eqn:Hs.
  - destruct (admits (concurrency_of config) p i) eqn:Hgate.
    + destruct (decide (turns_left JSON_parse config s = 0%nat)) as [Hz|Hnz].
      * assert (fire_limited' i p = p) as Hidle.
        { unfold fire_limited. rewrite Hgate. apply fire_idle. rewrite Hs.
          simpl. unfold turns_left in Hz. by destruct (resume JSON_parse config s) as [[]|]. }
        rewrite Hidle. destruct (IH p) as [Hw|Hi]; [by left|right].
        intros j s' [->|Hin]%elem_of_cons Hs' Hg'; [congruence|eauto].
      * left. pose proof (fire_limited_works i p s Hs Hgate Hnz).
        pose proof (work_run_limited round (fire_limited' i p)). lia.
    + assert (fire_limited' i p = p) as Hidle by (unfold fire_limited; by rewrite Hgate).
      rewrite Hidle. destruct (IH p) as [Hw|Hi]; [by left|right].
      intros j s' [->|Hin]%elem_of_cons Hs' Hg'; [congruence|eauto].
  - assert (fire_limited' i p = p) as Hidle.
    { unfold fire_limited. destruct (admits _ p i); [|done]. apply fire_idle. by rewrite Hs. }
    rewrite Hidle. destruct (IH p) as [Hw|Hi]; [by left|right].
    intros j s' [->|Hin]%elem_of_cons Hs' Hg'; [congruence|eauto].
Qed.

Lemma none_active (l : list Slot) :
  (∀ s, s ∈ l → is_active s = false) → length (List.filter is_active l) = 0%nat.
Proof.
  induction l as [|s l IH]; [done|]. intros H. simpl.
  rewrite (H s) by (apply elem_of_cons; by left). apply IH. intros s' Hin.
  apply H. apply elem_of_cons; by right.
Qed.

Lemma no_work (l : list Slot) :
  sum_list_with (turns_left JSON_parse config) l = 0%nat ↔
  ∀ s, s ∈ l → turns_left JSON_parse config s = 0%nat.
Proof.
  induction l as [|s l IH]; simpl.
  { split; [|done]. intros _ s Hin. by apply elem_of_nil in Hin. }
  split.
  - intros H s' [->|Hin]%elem_of_cons; [lia|]. apply IH; [lia|done].
  - intros H. rewrite (H s) by (apply elem_of_cons; by left). simpl. apply IH.
    intros s' Hin. apply H. apply elem_of_cons; by right.
Qed.

(** When a round that has a turn for every task finds nothing to do, there
    is nothing left to do: with a limit of 1 at least, the gate is open for
    a queued task as soon as no task is at work. *)
Lemma idle_round (round : list nat) (p : Pool) :
  1 ≤ concurrency_of config →
  covers (length (slots p)) round →
  (∀ i s, i ∈ round → slots p !! i = Some s →
          admits (concurrency_of config) p i = true →
          turns_left JSON_parse config s = 0%nat) →
  work_left' p = 0%nat.
Proof.
  intros Hlimit Hcover Hidle.
  assert (active p = 0%nat) as Hnone.
  { apply none_active. intros s [i Hs]%list_elem_of_lookup.
    destruct (is_active s) eqn:Hact; [|done].
    assert (turns_left JSON_parse config s = 0%nat) as Hz.
    { apply (Hidle i s); [|done|].
      - apply Hcover. by apply lookup_lt_Some in Hs.
      - unfold admits. rewrite Hs. by destruct s. }
    by destruct s. }
  apply no_work. intros s [i Hs]%list_elem_of_lookup.
  apply (Hidle i s); [|done|].
  - apply Hcover. by apply lookup_lt_Some in Hs.
  - unfold admits. rewrite Hs, Hnone. destruct s; try done. apply Z.ltb_lt. lia.
Qed.

Lemma length_fire_limited (i : nat) (p : Pool) :
  length (slots (fire_limited' i p)) = length (slots p).
Proof.
  unfold fire_limited. destruct (admits _ p i); [|done].
  by rewrite slots_fire, length_alter.
Qed.

Lemma length_run_limited (schedule : list nat) (p : Pool) :
  length (slots (run_limited' schedule p)) = length (slots p).
Proof.
  revert p. induction schedule as [|i schedule IH]; intros p; [done|].
  by rewrite run_limited_cons, IH, length_fire_limited.
Qed.

Lemma sound_fire_limited (i : nat) (p : Pool) :
  Forall (sound JSON_parse config) (slots p) →
  Forall (sound JSON_parse config) (slots (fire_limited' i p)).
Proof.
  intros Hp. unfold fire_limited. destruct (admits _ p i); [|done].
  rewrite slots_fire. apply Forall_alter; [done|].
  intros s _ Hs. by apply turn_spec.
Qed.

Lemma sound_run_limited (schedule : list nat) (p : Pool) :
  Forall (sound JSON_parse config) (slots p) →
  Forall (sound JSON_parse config) (slots (run_limited' schedule p)).
Proof.
  revert p. induction schedule as [|i schedule IH]; intros p Hp; [done|].
  rewrite run_limited_cons. by apply IH, sound_fire_limited.
Qed.

(** Rounds that each have a turn for every task, as many as there is work
    left, do all the work. *)
Lemma rounds_finish (rounds : list (list nat)) (p : Pool) :
  1 ≤ concurrency_of config →
  Forall (covers (length (slots p))) rounds →
  (work_left' p ≤ length rounds)%nat →
  work_left' (run_limited' (concat rounds) p) = 0%nat.
Proof.
  intros Hlimit. revert p. induction rounds as [|round rounds IH]; intros p Hcover Hwork.
  { simpl in *. lia. }
  apply Forall_cons in Hcover as [Hround Hrounds]. simpl in *.
  rewrite run_limited_app. apply IH.
  - by rewrite length_run_limited.
  - destruct (round_works_or_idles round p) as [Hw|Hidle]; [lia|].
    pose proof (idle_round round p Hlimit Hround Hidle).
    pose proof (work_run_limited round p). lia.
Qed.

Lemma work_done (p : Pool) :
  Forall (sound JSON_parse config) (slots p) →
  work_left' p = 0%nat → returned p = true.
Proof.
  intros Hsound Hwork. unfold returned. apply forallb_forall. intros s Hin%list_elem_of_In.
  rewrite (settled JSON_parse config s); [done| |].
  - by apply (proj1 (no_work (slots p)) Hwork).
  - by apply (proj1 (Forall_forall _ _) Hsound).
Qed.

Lemma sound_start (transport : nat → Script) :
  Forall (sound JSON_parse config) (slots (start config transport)).
Proof.
  apply Forall_lookup. intros i s. rewrite start_lookup.
  destruct (issues config !! i) as [issue|]; [|done]. intros [= <-]. apply queued_sound.
Qed.

Lemma work_start (transport : nat → Script) :
  (work_left' (start config transport) ≤ length (issues config) * turns_needed config)%nat.
Proof.
  unfold work_left, start. simpl. generalize (issues config). intros l. revert transport.
  induction l as [|issue l IH]; intros transport; [done|].
  rewrite imap_cons. cbn [sum_list_with length].
  etrans; [apply Nat.add_le_mono; [apply queued_turns|apply (IH (transport ∘ S))]|].
  generalize (turns_needed config). intros n. simpl. lia.
Qed.

(** Under the limiter too the call returns, once the tasks have had rounds
    of turns enough. *)
Lemma run_limited_returns (transport : nat → Script) (rounds : list (list nat)) :
  1 ≤ concurrency_of config →
  Forall (covers (length (issues config))) rounds →
  (length (issues config) * turns_needed config ≤ length rounds)%nat →
  returned (run_limited' (concat rounds) (start config transport)) = true.
Proof.
  intros Hlimit Hcover Hlen. apply work_done.
  - apply sound_run_limited, sound_start.
  - apply rounds_finish; [done| |].
    + unfold start. simpl. by rewrite length_imap.
    + pose proof (work_start transport). lia.
Qed.

(** A limit that is not below the number of issues holds no task back:
    the run under the limiter is the run of the pool, turn by turn. *)
Lemma active_below_queued (l : list Slot) (i : nat) issue script :
  l !! i = Some (Queued issue script) →
  (length (List.filter is_active l) < length l)%nat.
Proof.
  intros Hs. apply list_elem_of_split_length in Hs as (front & back & -> & _).
  rewrite List.filter_app, !length_app. simpl.
  pose proof (List.filter_length_le is_active front).
  pose proof (List.filter_length_le is_active back). lia.
Qed.

Lemma fire_limited_unbounded (i : nat) (p : Pool) :
  Z.of_nat (length (slots p)) ≤ concurrency_of config →
  fire_limited' i p = fire JSON_parse config i p.
Proof.
  intros Hlimit. unfold fire_limited, admits.
  destruct (slots p !! i) as [[]|] eqn:Hs; try done.
  apply active_below_queued in Hs. fold (active p) in Hs.
  by assert ((Z.of_nat (active p) <? concurrency_of config) = true) as -> by lia.
Qed.

Lemma run_limited_unbounded (transport : nat → Script) (schedule : list nat) :
  Z.of_nat (length (issues config)) ≤ concurrency_of config →
  run_limited' schedule (start config transport)
  = run JSON_parse config schedule (start config transport).
Proof.
  intros Hlimit.
  assert (Z.of_nat (length (slots (start config transport))) ≤ concurrency_of config)
    as Hstart by (unfold start; simpl; by rewrite length_imap).
  revert Hstart. generalize (start config transport). intros p.
  revert p. induction schedule as [|i schedule IH]; intros p Hp; [done|].
  rewrite run_limited_cons, IH by (by rewrite length_fire_limited).
  by rewrite fire_limited_unbounded.
Qed.


End limiter_facts.

(** * Examples: the scenarios of the test suite, and the claims at them *)

Example test_dry_run :
  assignVersionToIssues sample_parse (test_config ["ABC-1"; "ABC-2"] "v1.0.0" true None)
    (fun _ => replies []) [0; 1]%nat
  = Some (mkReport ["ABC-1"; "ABC-2"] [] []).
Proof. vm_compute. reflexivity. Qed.

Example test_skips_when_present :
  assignVersionToIssues sample_parse (test_config ["ABC-3"] "v1.2.3" false None)
    (fun _ => replies [Resolved has_version]) [0; 0]%nat
  = Some (mkReport [] [] ["ABC-3"]).
Proof. vm_compute. reflexivity. Qed.

Example test_retries_on_429 :
  assignVersionToIssues sample_parse (test_config ["ABC-4"] "v2.0.0" false (Some 3))
    (fun _ => replies [Resolved no_versions; Resolved rate_limited; Resolved no_content])
    [0; 0; 0; 0; 0]%nat
  = Some (mkReport ["ABC-4"] [] []).
Proof. vm_compute. reflexivity. Qed.

(** The same, as the events of the task: one GET, and two PUT with a sleep
    of no time between them. *)
Example test_retries_on_429_events :
  trace_of (test_config ["ABC-4"] "v2.0.0" false (Some 3)) "ABC-4"
    (replies [Resolved no_versions; Resolved rate_limited; Resolved no_content])
  = [Requested (GET (test_config ["ABC-4"] "v2.0.0" false (Some 3)) "ABC-4")
       (Resolved no_versions);
     Requested put_ABC_4 (Resolved rate_limited);
     Slept (of_Z 0);
     Requested put_ABC_4 (Resolved no_content);
     Pushed (Updated "ABC-4")].
Proof. vm_compute. reflexivity. Qed.

Example test_fails_after_retries :
  assignVersionToIssues sample_parse (test_config ["ABC-5"] "v9.9.9" false (Some 1))
    (fun _ => replies [Resolved no_versions; Resolved server_error]) [0; 0; 0]%nat
  = Some (mkReport [] [mkFailure "ABC-5" "HTTP 500: oops"] []).
Proof. vm_compute. reflexivity. Qed.

Example test_client_throws :
  assignVersionToIssues sample_parse (test_config ["ABC-6"] "vx" false (Some 1))
    (fun _ _ => Rejected (mkError "network down")) [0; 0]%nat
  = Some (mkReport [] [mkFailure "ABC-6" "network down"] []).
Proof. vm_compute. reflexivity. Qed.

(** Three issues, the last to start being the first to end. *)
Example test_mixed_responses :
  assignVersionToIssues sample_parse three_issues mixed_transport
    [0; 1; 2; 2; 2; 1; 1; 0; 0]%nat
  = Some (mkReport ["ABC-9"; "ABC-7"] [mkFailure "ABC-8" "HTTP 500: oops"] []).
Proof. vm_compute. reflexivity. Qed.

(** As long as a task has not had all its turns there is no report. *)
Example test_mixed_responses_pending :
  assignVersionToIssues sample_parse three_issues mixed_transport [0; 1; 2; 2; 2; 1; 1; 0]%nat
  = None.
Proof. vm_compute. reflexivity. Qed.

(** The limiter at work: with a limit of 1 the second and the third task
    are held back while the first is at work, where without a limit all
    three send their GET; the tasks end in the order of the input. *)
Example one_at_a_time_holds_back :
  wire (run_limited sample_parse one_at_a_time [0; 1; 2]%nat
          (start one_at_a_time mixed_transport))
  = [GET one_at_a_time "ABC-7"] ∧
  wire (run sample_parse one_at_a_time [0; 1; 2]%nat (start one_at_a_time mixed_transport))
  = [GET one_at_a_time "ABC-7"; GET one_at_a_time "ABC-8"; GET one_at_a_time "ABC-9"] ∧
  returned (run_limited sample_parse one_at_a_time (concat (replicate 6 [0; 1; 2]%nat))
              (start one_at_a_time mixed_transport)) = false ∧
  returned (run_limited sample_parse one_at_a_time (concat (replicate 7 [0; 1; 2]%nat))
              (start one_at_a_time mixed_transport)) = true ∧
  report (run_limited sample_parse one_at_a_time (concat (replicate 7 [0; 1; 2]%nat))
            (start one_at_a_time mixed_transport))
  = mkReport ["ABC-7"; "ABC-9"] [mkFailure "ABC-8" "HTTP 500: oops"] [].
Proof. split_and!; vm_compute; reflexivity. Qed.

(** A limit of 0: [pLimit] throws, the call rejects and there is no
    report, dry run or not. *)
Example limit_zero_rejects :
  rejection no_slot = Some (TypeError "Expected `concurrency` to be a number from 1 and up") ∧
  assignVersionToIssues sample_parse no_slot (fun _ => replies []) [0; 1]%nat = None ∧
  assignVersionToIssues sample_parse (with_concurrency dry_config 1) (fun _ => replies [])
    [0; 1]%nat
  = Some (mkReport ["ABC-1"; "ABC-2"] [] []).
Proof. split_and!; vm_compute; reflexivity. Qed.

(** Outside the data Jira sends: a [null] entry before the match makes the
    check throw, after the match it is never looked at. *)
Example null_entry_throws :
  issueAlreadyHasVersion null_entry_data "fixVersions" "v1" false
  = Throws (TypeError "Cannot read properties of null (reading 'name')").
Proof. vm_compute. reflexivity. Qed.

Example null_entry_after_match :
  issueAlreadyHasVersion
    (JObject {[ "fields" := JObject {[ "fixVersions" :=
       JArray [ JObject {[ "name" := JString "v1" ]}; JNull ] ]} ]})
    "fixVersions" "v1" false
  = Returns true.
Proof. vm_compute. reflexivity. Qed.

(** With a negative [maxRetries] no request is made, [requestWithRetry]
    returns [undefined], and the issue fails on reading it. *)
Example negative_maxRetries :
  play (issueTask sample_parse (test_config ["ABC-1"] "v1" false (Some (-1))) "ABC-1")
       (replies [])
  = ([Pushed (Failed (mkFailure "ABC-1"
        "Cannot read properties of undefined (reading 'readBody')"))], Returns tt).
Proof. vm_compute. reflexivity. Qed.

(** ** The claims at the examples *)

(** C1 fails when it is the GET that is answered 404: the PUT is still
    sent, and here it succeeds, so that the issue ends up in [updated]. *)
Lemma C1_counterexample : ¬ C1_as_stated.
Proof.
  intros H.
  destruct (H sample_parse (one_issue 1) "ABC-1"
              (replies [Resolved not_found; Resolved no_content]) 0%nat
              (GET (one_issue 1) "ABC-1") not_found) as [Hput _].
  - vm_compute. reflexivity.
  - reflexivity.
  - apply (Hput 1%nat (PUT (one_issue 1) "ABC-1") (Resolved no_content)).
    + lia.
    + vm_compute. reflexivity.
    + reflexivity.
Qed.

Example get_404_then_updated :
  assignVersionToIssues sample_parse (one_issue 1)
    (fun _ => replies [Resolved not_found; Resolved no_content]) [0; 0; 0]%nat
  = Some (mkReport ["ABC-1"] [] []).
Proof. vm_compute. reflexivity. Qed.

(** When the PUT is answered 404 as well, the issue fails on the PUT. *)
Example get_404_put_404 :
  requests (trace_of (one_issue 1) "ABC-1" (replies [Resolved not_found; Resolved not_found]))
  = [GET (one_issue 1) "ABC-1"; PUT (one_issue 1) "ABC-1"] ∧
  assignVersionToIssues sample_parse (one_issue 1)
    (fun _ => replies [Resolved not_found; Resolved not_found]) [0; 0; 0]%nat
  = Some (mkReport [] [mkFailure "ABC-1" ("HTTP 404: " +:+ not_found_body)] []).
Proof. split; vm_compute; reflexivity. Qed.

(** C1 at a write answered 404, and at a read answered 404, after which
    the write is sent all the same. *)
Lemma C1_witness :
  trace_of (one_issue 1) "ABC-1" (replies [Resolved no_versions; Resolved not_found]) !! 1%nat
    = Some (Requested (PUT (one_issue 1) "ABC-1") (Resolved not_found)) ∧
  status_of not_found = 404 ∧
  drop 2 (trace_of (one_issue 1) "ABC-1" (replies [Resolved no_versions; Resolved not_found]))
    = [Pushed (Failed (mkFailure "ABC-1" ("HTTP 404: " +:+ not_found_body)))] ∧
  includes "404" ("HTTP 404: " +:+ not_found_body) = true ∧
  trace_of (one_issue 1) "ABC-1" (replies [Resolved not_found; Resolved not_found]) !! 0%nat
    = Some (Requested (GET (one_issue 1) "ABC-1") (Resolved not_found)) ∧
  trace_of (one_issue 1) "ABC-1" (replies [Resolved not_found; Resolved not_found]) !! 1%nat
    = Some (Requested (PUT (one_issue 1) "ABC-1") (Resolved not_found)).
Proof.
  assert (trace_of (one_issue 1) "ABC-1" (replies [Resolved no_versions; Resolved not_found])
            !! 1%nat
          = Some (Requested (PUT (one_issue 1) "ABC-1") (Resolved not_found))) as Hi
    by (vm_compute; reflexivity).
  assert (trace_of (one_issue 1) "ABC-1" (replies [Resolved not_found; Resolved not_found])
            !! 0%nat
          = Some (Requested (GET (one_issue 1) "ABC-1") (Resolved not_found))) as Hi0
    by (vm_compute; reflexivity).
  split; [exact Hi|]. split; [reflexivity|].
  destruct (C1_not_found sample_parse (one_issue 1) "ABC-1"
              (replies [Resolved no_versions; Resolved not_found]) 1%nat
              (PUT (one_issue 1) "ABC-1") not_found Hi eq_refl) as (_ & Hput & _).
  destruct (Hput eq_refl) as [Hdrop Hincl].
  split; [exact Hdrop|]. split; [exact Hincl|]. split; [exact Hi0|].
  destruct (C1_not_found sample_parse (one_issue 1) "ABC-1"
              (replies [Resolved not_found; Resolved not_found]) 0%nat
              (GET (one_issue 1) "ABC-1") not_found Hi0 eq_refl) as (_ & _ & Hget).
  destruct (Hget eq_refl) as (_ & _ & Hnext).
  apply Hnext. vm_compute. reflexivity.
Defined.

(** C2, amended, at the 429 of the tests, whose retry-after is 0. *)
Lemma C2_witness :
  (∀ j : nat, (j ≤ 0)%nat →
     retryable (replies [Resolved rate_limited; Resolved no_content] j) = true) ∧
  0 + 1 < 3 ∧
  sleeps (play (requestWithRetry put_ABC_4 3)
               (replies [Resolved rate_limited; Resolved no_content])).1 !! 0%nat
  = Some (times (Number "0") (of_Z 1000)).
Proof.
  assert (∀ j : nat, (j ≤ 0)%nat →
            retryable (replies [Resolved rate_limited; Resolved no_content] j) = true) as Hr.
  { intros j Hj. replace j with 0%nat by lia. reflexivity. }
  split; [exact Hr|]. split; [lia|].
  destruct (C2_retry_wait put_ABC_4 3 (replies [Resolved rate_limited; Resolved no_content])
              0%nat rate_limited Hr eq_refl ltac:(lia)) as (Hlower & _ & _).
  apply Hlower; [reflexivity|discriminate].
Defined.

(** C4, amended, at a first try that fails with an exception. *)
Lemma C4_witness :
  0 ≤ 3 ∧
  1 ≤ Z.of_nat (answered (play (requestWithRetry put_ABC_4 3)
                   (replies [Rejected (mkError "network down"); Resolved no_content])).1)
    ≤ Z.max 1 3.
Proof.
  split; [lia|].
  assert (0 ≤ 3) as Hm by lia.
  destruct (C4_attempts_bound put_ABC_4 3
              (replies [Rejected (mkError "network down"); Resolved no_content]) Hm)
    as [Hbound _].
  exact Hbound.
Defined.

(** C7 fails on an array of versions with [null] before the entry that
    has the version: an entry has the name, and the check does not return
    [true], it throws. *)
Lemma C7_counterexample : ¬ C7_as_stated.
Proof.
  intros H. destruct (H null_entry_data "fixVersions" "v1" false) as [_ Hback].
  assert (issueAlreadyHasVersion null_entry_data "fixVersions" "v1" false = Returns true)
    as Hrun.
  { apply Hback.
    assert (version_refs null_entry_data "fixVersions"
            = [JNull; JObject {[ "name" := JString "v1" ]}]) as ->
      by (vm_compute; reflexivity).
    apply Exists_cons_tl, Exists_cons_hd. eexists. split; [reflexivity|].
    vm_compute. reflexivity. }
  vm_compute in Hrun. discriminate Hrun.
Qed.

(** C7 at an issue that has the version. *)
Lemma C7_witness :
  has_version_data ≠ JNull ∧
  Forall (fun v => v ≠ JNull) (version_refs has_version_data "fixVersions") ∧
  issueAlreadyHasVersion has_version_data "fixVersions" "v1.2.3" false = Returns true ∧
  Exists (refers_to "v1.2.3" false) (version_refs has_version_data "fixVersions").
Proof.
  assert (has_version_data ≠ JNull) as Hnull by discriminate.
  assert (Forall (fun v => v ≠ JNull) (version_refs has_version_data "fixVersions")) as Hrefs.
  { vm_compute. constructor; [discriminate|constructor]. }
  assert (issueAlreadyHasVersion has_version_data "fixVersions" "v1.2.3" false = Returns true)
    as Hrun by (vm_compute; reflexivity).
  split; [exact Hnull|]. split; [exact Hrefs|]. split; [exact Hrun|].
  destruct (C7_issueAlreadyHasVersion has_version_data "fixVersions" "v1.2.3" false)
    as (Hsound & _ & _).
  apply (Hsound true Hrun). reflexivity.
Defined.

(** C8 at a successful GET whose body is an HTML page. *)
Lemma C8_witness :
  play (requestWithRetry (GET (one_issue 1) "ABC-1") (maxRetries_of (one_issue 1)))
       (replies [Resolved html_reply; Resolved no_content])
    = ([Requested (GET (one_issue 1) "ABC-1") (Resolved html_reply)],
       Returns (Some html_reply)) ∧
  sample_parse (readBody html_reply) = None ∧
  ∃ rest, trace_of (one_issue 1) "ABC-1" (replies [Resolved html_reply; Resolved no_content])
          = [Requested (GET (one_issue 1) "ABC-1") (Resolved html_reply)]
            ++ Requested (PUT (one_issue 1) "ABC-1") (Resolved no_content) :: rest.
Proof.
  assert (play (requestWithRetry (GET (one_issue 1) "ABC-1") (maxRetries_of (one_issue 1)))
               (replies [Resolved html_reply; Resolved no_content])
          = ([Requested (GET (one_issue 1) "ABC-1") (Resolved html_reply)],
             Returns (Some html_reply))) as Hget by (vm_compute; reflexivity).
  split; [exact Hget|]. split; [reflexivity|].
  apply (C8_malformed_body sample_parse (one_issue 1) "ABC-1"
           (replies [Resolved html_reply; Resolved no_content])
           [Requested (GET (one_issue 1) "ABC-1") (Resolved html_reply)] html_reply);
    [reflexivity|exact Hget|right; reflexivity].
Defined.

(** C9 at two attempts: a response after a 429, an exception after a 500. *)
Lemma C9_witness :
  0 ≤ 2 ∧
  (∀ i : nat, (i < 1)%nat →
     retryable (replies [Resolved server_error; Rejected (mkError "network down")] i) = true) ∧
  (play (requestWithRetry put_ABC_4 2)
        (replies [Resolved server_error; Rejected (mkError "network down")])).2
  = Throws (mkError "network down") ∧
  (play (requestWithRetry put_ABC_4 2)
        (replies [Resolved rate_limited; Resolved server_error])).2
  = Returns (Some server_error).
Proof.
  assert (∀ l, (∀ i : nat, (i < 1)%nat → retryable (replies l i) = true) ↔
               retryable (replies l 0%nat) = true) as Hone.
  { intros l. split; [intros H; apply H; lia|].
    intros H i Hi. replace i with 0%nat by lia. exact H. }
  split; [lia|]. split; [apply Hone; reflexivity|]. split.
  - apply (C9_exhaustion_asymmetry put_ABC_4 2
             (replies [Resolved server_error; Rejected (mkError "network down")]));
      [lia|apply Hone; reflexivity|reflexivity].
  - apply (C9_exhaustion_asymmetry put_ABC_4 2
             (replies [Resolved rate_limited; Resolved server_error]));
      [lia|apply Hone; reflexivity|reflexivity].
Defined.

(** C3 at the three issues of the tests. *)
Lemma C3_witness :
  assignVersionToIssues sample_parse three_issues mixed_transport
    [0; 1; 2; 2; 2; 1; 1; 0; 0]%nat
  = Some (mkReport ["ABC-9"; "ABC-7"] [mkFailure "ABC-8" "HTTP 500: oops"] []) ∧
  issue_of <$> entries (mkReport ["ABC-9"; "ABC-7"] [mkFailure "ABC-8" "HTTP 500: oops"] [])
    ≡ₚ ["ABC-7"; "ABC-8"; "ABC-9"].
Proof.
  assert (assignVersionToIssues sample_parse three_issues mixed_transport
            [0; 1; 2; 2; 2; 1; 1; 0; 0]%nat
          = Some (mkReport ["ABC-9"; "ABC-7"] [mkFailure "ABC-8" "HTTP 500: oops"] []))
    as Hrun by (vm_compute; reflexivity).
  split; [exact Hrun|].
  destruct (C3_partition sample_parse three_issues mixed_transport
              [0; 1; 2; 2; 2; 1; 1; 0; 0]%nat) as (_ & _ & H & _).
  destruct (H _ Hrun) as [_ Hperm]. exact Hperm.
Defined.

(** C5 at three issues, the transport failing on the second. *)
Lemma C5_witness :
  issues isolation_config !! 1%nat = Some "ABC-8" ∧
  (play (tryBlock sample_parse isolation_config "ABC-8") (second_down 1)).2
    = Throws (mkError "network down") ∧
  assignVersionToIssues sample_parse isolation_config second_down [0; 1; 2; 0; 1; 2; 0]%nat
    = Some (mkReport ["ABC-7"] [mkFailure "ABC-8" "network down"] ["ABC-9"]) ∧
  assignVersionToIssues sample_parse (without 1 isolation_config) (skip 1 second_down)
    [1; 0; 1; 0; 0]%nat
    = Some (mkReport ["ABC-7"] [] ["ABC-9"]) ∧
  [mkFailure "ABC-8" "network down"] ≡ₚ [mkFailure "ABC-8" "network down"].
Proof.
  assert ((play (tryBlock sample_parse isolation_config "ABC-8") (second_down 1)).2
          = Throws (mkError "network down")) as Hthrow by (vm_compute; reflexivity).
  assert (assignVersionToIssues sample_parse isolation_config second_down
            [0; 1; 2; 0; 1; 2; 0]%nat
          = Some (mkReport ["ABC-7"] [mkFailure "ABC-8" "network down"] ["ABC-9"])) as Hrun
    by (vm_compute; reflexivity).
  assert (assignVersionToIssues sample_parse (without 1 isolation_config) (skip 1 second_down)
            [1; 0; 1; 0; 0]%nat
          = Some (mkReport ["ABC-7"] [] ["ABC-9"])) as Hrun'
    by (vm_compute; reflexivity).
  split; [reflexivity|]. split; [exact Hthrow|]. split; [exact Hrun|]. split; [exact Hrun'|].
  destruct (C5_fault_isolation sample_parse isolation_config second_down 1%nat "ABC-8"
              (mkError "network down") eq_refl Hthrow) as (_ & _ & _ & H).
  destruct (H _ _ _ _ Hrun Hrun') as (_ & _ & Hf). exact Hf.
Defined.

(** C6 at the dry run of the tests, the second issue taking its turn first. *)
Lemma C6_witness :
  dryRun dry_config = true ∧
  assignVersionToIssues sample_parse dry_config (fun _ => replies []) [1; 0]%nat
    = Some (mkReport ["ABC-2"; "ABC-1"] [] []) ∧
  wire (run sample_parse dry_config [1; 0]%nat (start dry_config (fun _ => replies []))) = [] ∧
  ["ABC-2"; "ABC-1"] ≡ₚ ["ABC-1"; "ABC-2"].
Proof.
  assert (assignVersionToIssues sample_parse dry_config (fun _ => replies []) [1; 0]%nat
          = Some (mkReport ["ABC-2"; "ABC-1"] [] [])) as Hrun by (vm_compute; reflexivity).
  split; [reflexivity|]. split; [exact Hrun|].
  destruct (C6_dry_run sample_parse dry_config (fun _ => replies []) [1; 0]%nat eq_refl)
    as (Hw & _ & _ & _ & H & _).
  split; [exact Hw|]. destruct (H _ Hrun) as (Hu & _ & _). exact Hu.
Defined.


(** * Further properties of the engine *)

(** ** The shape of a call of [requestWithRetry] *)

Lemma attempts_canonical rq maxRetries (n : nat) attempt script :
  (0 < n)%nat → maxRetries - attempt < Z.of_nat n →
  ∃ k : nat,
    play (attempts rq maxRetries n attempt) script =
      (rounds rq k attempt script ++ [Requested rq (script k)], handed_back (script k)) ∧
    (∀ i : nat, (i < k)%nat →
       retryable (script i) = true ∧ attempt + Z.of_nat i + 1 < maxRetries) ∧
    (retryable (script k) = false ∨ maxRetries ≤ attempt + Z.of_nat k + 1).
Proof.
  revert attempt script. induction n as [|n IH]; intros attempt script Hn Hfuel; [lia|].
  rewrite play_attempts_S. simpl.
  destruct (retryable (script 0%nat) && (attempt + 1 <? maxRetries)) eqn:H.
  - apply andb_true_iff in H as [Hr Ha].
    destruct (IH (attempt + 1) (later 1 script)) as (k & Hplay & Hbefore & Hend); [lia|lia|].
    exists (S k). rewrite Hplay. split_and!.
    + done.
    + intros [|i] Hi; [split; [done|lia]|].
      destruct (Hbefore i) as [? ?]; [lia|]. split; [done|lia].
    + destruct Hend as [?|?]; [by left|right; lia].
  - exists 0%nat. split_and!; [done|intros i Hi; lia|].
    apply andb_false_iff in H as [?|?]; [by left|right; lia].
Qed.

(** X1. A call of [requestWithRetry] with [maxRetries >= 0] is, whatever
    the transport answers, some number [k] of rounds (a request, a
    retryable reply, a sleep) followed by one last request whose reply ends
    the call: a response is returned, an exception is thrown. There are at
    most [max(1, maxRetries)] requests, all of them the same request; the
    call sleeps once between two requests and never after the last; and the
    last reply is retryable only when the attempts are used up. *)
Theorem requestWithRetry_canonical (rq : Request) (maxRetries : Z) (script : Script) :
  0 ≤ maxRetries →
  ∃ k : nat,
    play (requestWithRetry rq maxRetries) script =
      (rounds rq k 0 script ++ [Requested rq (script k)], handed_back (script k)) ∧
    Z.of_nat k + 1 ≤ Z.max 1 maxRetries ∧
    (∀ i : nat, (i < k)%nat → retryable (script i) = true) ∧
    (retryable (script k) = false ∨ Z.of_nat k + 1 = Z.max 1 maxRetries).
Proof.
  intros Hm. unfold requestWithRetry.
  destruct (attempts_canonical rq maxRetries (Z.to_nat (maxRetries + 1 - 0)) 0 script)
    as (k & Hplay & Hbefore & Hend); [lia|lia|].
  exists k.
  assert (Z.of_nat k + 1 ≤ Z.max 1 maxRetries) as Hk.
  { destruct k as [|k]; [lia|]. destruct (Hbefore k) as [_ ?]; lia. }
  split_and!; [done|done|by intros i Hi; apply Hbefore|].
  destruct Hend as [?|?]; [by left|right; lia].
Qed.

Lemma requests_rounds rq (k : nat) attempt script :
  requests (rounds rq k attempt script) = replicate k rq.
Proof.
  revert attempt script. induction k as [|k IH]; intros attempt script; [done|].
  simpl. f_equal. apply IH.
Qed.

Lemma requestWithRetry_negative rq maxRetries :
  maxRetries < 0 → requestWithRetry rq maxRetries = Return None.
Proof.
  intros Hm. unfold requestWithRetry.
  by replace (Z.to_nat (maxRetries + 1 - 0)) with 0%nat by lia.
Qed.

(** The requests of a call, and what a returned response is the reply to. *)
Lemma requestWithRetry_requests rq maxRetries script :
  ∃ n : nat,
    requests (play (requestWithRetry rq maxRetries) script).1 = replicate n rq ∧
    Z.of_nat n ≤ Z.max 1 maxRetries ∧
    (maxRetries < 0 ↔ n = 0%nat) ∧
    (∀ res, (play (requestWithRetry rq maxRetries) script).2 = Returns (Some res) →
       ∃ before, (play (requestWithRetry rq maxRetries) script).1
                 = before ++ [Requested rq (Resolved res)] ∧ n = S (answered before)).
Proof.
  destruct (decide (maxRetries < 0)) as [Hneg|Hm].
  { exists 0%nat. rewrite requestWithRetry_negative by done. simpl.
    split_and!; [done|lia|done|done]. }
  unfold requestWithRetry.
  destruct (attempts_canonical rq maxRetries (Z.to_nat (maxRetries + 1 - 0)) 0 script)
    as (k & -> & Hbefore & _); [lia|lia|].
  exists (S k). simpl. split_and!.
  - rewrite requests_app, requests_rounds. simpl.
    change (replicate k rq ++ [rq] = replicate (S k) rq).
    by rewrite <- replicate_cons_app.
  - destruct k as [|k]; [lia|]. destruct (Hbefore k) as [_ ?]; lia.
  - split; [lia|done].
  - intros res Hres. exists (rounds rq k 0 script). rewrite answered_rounds.
    destruct (script k); by simplify_eq/=.
Qed.

(** ** The requests and the entry of one task *)

Section task_facts.

Variable JSON_parse : string → option json.
Variable config : JiraConfig.

(** X2. Whatever the transport answers, the requests of the task of an
    issue are some reads of that issue followed by some writes of it:
    [g] times the GET and then [p] times the PUT, with [g] and [p] at most
    [max(1, maxRetries)], and no write unless there was a read. There is
    no read, and so no request at all, exactly in a dry run and in a run
    with a negative [maxRetries]. *)
Theorem issueTask_requests (issue : string) (script : Script) :
  ∃ g p : nat,
    requests (play (issueTask JSON_parse config issue) script).1
      = replicate g (GET config issue) ++ replicate p (PUT config issue) ∧
    Z.of_nat g ≤ Z.max 1 (maxRetries_of config) ∧
    Z.of_nat p ≤ Z.max 1 (maxRetries_of config) ∧
    (g = 0%nat → p = 0%nat) ∧
    (dryRun config = true ∨ maxRetries_of config < 0 ↔ g = 0%nat).
Proof.
  destruct (dryRun config) eqn:Hdry.
  { exists 0%nat, 0%nat. rewrite play_issueTask_dry by done. simpl.
    split_and!; [done|lia|lia|done|by split; [|left]]. }
  rewrite play_issueTask by done.
  destruct (requestWithRetry_requests (GET config issue) (maxRetries_of config) script)
    as (g & Hg & Hgm & Hgneg & Hgres).
  destruct (play (requestWithRetry (GET config issue) _) script) as [tg rg]. simpl in *.
  assert (∀ e, ∃ g p : nat,
            requests (tg ++ [Pushed e])
              = replicate g (GET config issue) ++ replicate p (PUT config issue) ∧
            Z.of_nat g ≤ Z.max 1 (maxRetries_of config) ∧
            Z.of_nat p ≤ Z.max 1 (maxRetries_of config) ∧
            (g = 0%nat → p = 0%nat) ∧
            (false = true ∨ maxRetries_of config < 0 ↔ g = 0%nat)) as Hnone.
  { intros e. exists g, 0%nat. rewrite requests_app, Hg. simpl.
    split_and!; [done|done|lia|done|].
    split; [intros [?|?]; [done|by apply Hgneg]|intros ?; right; by apply Hgneg]. }
  destruct rg as [[getRes|]|e]; simpl; try apply Hnone.
  destruct (issueAlreadyHasVersion _ _ _ _) as [[|]|e]; simpl; try apply Hnone.
  destruct (requestWithRetry_requests (PUT config issue) (maxRetries_of config)
              (later (answered tg) script)) as (p & Hp & Hpm & _ & _).
  destruct (play (requestWithRetry (PUT config issue) _) _) as [tp rp]. simpl in *.
  exists g, p. rewrite !requests_app, Hg, Hp. simpl. rewrite app_nil_r.
  destruct (Hgres getRes eq_refl) as (before & _ & ->).
  split_and!; [done|done|done|done|]. split; [intros [?|?]; [done|]|done].
  by apply Hgneg.
Qed.

(** The requests of a task, as far as the properties of the run need
    them. *)
Lemma task_requests (issue : string) (script : Script) :
  ∃ g p : nat,
    requests (play (issueTask JSON_parse config issue) script).1
      = replicate g (GET config issue) ++ replicate p (PUT config issue) ∧
    Z.of_nat g ≤ Z.max 1 (maxRetries_of config) ∧
    Z.of_nat p ≤ Z.max 1 (maxRetries_of config).
Proof.
  destruct (dryRun config) eqn:Hdry.
  { exists 0%nat, 0%nat. rewrite play_issueTask_dry by done. simpl.
    split_and!; [done|lia|lia]. }
  pose proof (issueTask_shape JSON_parse config issue script Hdry) as Hshape.
  destruct (requestWithRetry_requests (GET config issue) (maxRetries_of config) script)
    as (g & Hg & Hgm & _).
  destruct (play (requestWithRetry (GET config issue) _) script) as [tg rg]. simpl in Hg.
  destruct Hshape as (tp & e & -> & [->|(rp & Hput & _)]).
  - exists g, 0%nat. rewrite requests_app, Hg. simpl. split_and!; [done|done|lia].
  - destruct (requestWithRetry_requests (PUT config issue) (maxRetries_of config)
                (later (answered tg) script)) as (p & Hp & Hpm & _).
    rewrite Hput in Hp. simpl in Hp.
    exists g, p. rewrite !requests_app, Hg, Hp. simpl. by rewrite app_nil_r.
Qed.

Lemma GET_not_PUT issue issue' : GET config issue ≠ PUT config issue'.
Proof. unfold GET, PUT. congruence. Qed.

(** X3. When it is no dry run, the issue is pushed to [updated] exactly
    when a write of it was answered by a response with a status from 200
    to 299: an issue is never reported as updated on the strength of the
    read, of a write that failed or of a write that was not answered. *)
Theorem updated_iff_written (issue : string) (script : Script) :
  dryRun config = false →
  let trace := (play (issueTask JSON_parse config issue) script).1 in
  pushes trace = [Updated issue] ↔
  ∃ (i : nat) res, trace !! i = Some (Requested (PUT config issue) (Resolved res)) ∧
                   is_2xx (status_of res) = true.
Proof.
  intros Hdry. simpl. rewrite play_issueTask by done.
  pose proof (attempts_trace (GET config issue) (maxRetries_of config)
                (Z.to_nat (maxRetries_of config + 1 - 0)) 0 script) as Hg.
  fold (requestWithRetry (GET config issue) (maxRetries_of config)) in Hg.
  destruct (play (requestWithRetry (GET config issue) _) script) as [tg rg].
  destruct Hg as (Hg & Hgq & _).
  assert (∀ e, e ≠ Updated issue →
            pushes (tg ++ [Pushed e]) = [Updated issue] ↔
            ∃ (i : nat) res,
              (tg ++ [Pushed e]) !! i = Some (Requested (PUT config issue) (Resolved res)) ∧
              is_2xx (status_of res) = true) as Hnone.
  { intros e He. rewrite pushes_app, Hg. simpl. split; [congruence|].
    intros (i & res & Hi & _).
    change (tg ++ [Pushed e]) with (tg ++ [] ++ [Pushed e]) in Hi.
    apply lookup_request in Hi as [Hi|[_ Hi]]; [|done].
    apply Hgq in Hi. symmetry in Hi. by apply GET_not_PUT in Hi. }
  destruct rg as [[getRes|]|e]; simpl; try (by apply Hnone).
  destruct (issueAlreadyHasVersion _ _ _ _) as [[|]|e]; simpl; try (by apply Hnone).
  pose proof (attempts_trace (PUT config issue) (maxRetries_of config)
                (Z.to_nat (maxRetries_of config + 1 - 0)) 0 (later (answered tg) script)) as Hp.
  fold (requestWithRetry (PUT config issue) (maxRetries_of config)) in Hp.
  destruct (play (requestWithRetry (PUT config issue) _) _) as [tp rp].
  destruct Hp as (Hp & _ & _ & _ & _ & Hfin & Hlast & _). simpl.
  rewrite !pushes_app, Hg, Hp. simpl. split.
  - intros [= Hw]. destruct rp as [[putRes|]|e]; simpl in Hw; try done.
    unfold classified in Hw. destruct (is_2xx (status_of putRes)) eqn:H2xx; [|done].
    specialize (Hlast putRes eq_refl).
    exists (length tg + (length tp - 1))%nat, putRes. split; [|done].
    rewrite lookup_app_r by lia. rewrite lookup_app_l.
    + rewrite last_lookup in Hlast. rewrite <- Hlast. f_equal. lia.
    + destruct tp; [done|]. simpl. lia.
  - intros (i & res & Hi & H2xx).
    apply lookup_request in Hi as [Hi|[_ Hi]].
    { apply Hgq in Hi. symmetry in Hi. by apply GET_not_PUT in Hi. }
    destruct (Hfin _ _ _ Hi) as [_ ->].
    { unfold final_status. by rewrite H2xx. }
    simpl. unfold classified. by rewrite H2xx.
Qed.

Lemma issueAlreadyHasVersion_present (issueData : json) (versionField version : string)
    (versionIsId : bool) (l : list json) :
  version_field issueData versionField = Some (JArray l) →
  Forall (fun v => v ≠ JNull) l →
  Exists (refers_to version versionIsId) l →
  issueAlreadyHasVersion issueData versionField version versionIsId = Returns true.
Proof.
  intros Hfield Hl Hex.
  assert (issueData ≠ JNull) as Hnull by (by intros ->).
  destruct (held_spec issueData versionField Hnull) as (fields & Hfields & Hheld).
  unfold issueAlreadyHasVersion. rewrite Hfields, Hheld, Hfield. simpl.
  destruct (some_version_total l version versionIsId Hl) as [b Hb]. rewrite Hb.
  f_equal. by apply (some_version_sound l version versionIsId b Hb).
Qed.

(** X4. The update is idempotent on the side of the action: when the
    response to the read has a body that parses to issue data whose
    version field is an array (without [null] entries) one entry of which
    has the target under [id] (when [versionIsId]) or [name], the issue is
    pushed to [skipped] right after the read, the task ends there, and no
    write of the issue is ever requested. *)
Theorem skipped_when_present (issue : string) (script : Script) (tg : list Event)
    (getRes : Response) (issueData : json) (l : list json) :
  dryRun config = false →
  play (requestWithRetry (GET config issue) (maxRetries_of config)) script
    = (tg, Returns (Some getRes)) →
  readBody getRes ≠ "" →
  JSON_parse (readBody getRes) = Some issueData →
  version_field issueData (field config) = Some (JArray l) →
  Forall (fun v => v ≠ JNull) l →
  Exists (refers_to (version config) (versionIsId config)) l →
  play (issueTask JSON_parse config issue) script
    = (tg ++ [Pushed (Skipped issue)], Returns tt) ∧
  PUT config issue ∉ requests (tg ++ [Pushed (Skipped issue)]).
Proof.
  intros Hdry Hget Hbody Hparse Hfield Hl Hex.
  rewrite play_issueTask, Hget by done.
  assert (issueData_of JSON_parse (readBody getRes) = issueData) as ->.
  { unfold issueData_of. apply String.eqb_neq in Hbody. by rewrite Hbody, Hparse. }
  rewrite (issueAlreadyHasVersion_present _ _ _ _ l) by done. split; [done|].
  destruct (requestWithRetry_requests (GET config issue) (maxRetries_of config) script)
    as (g & Hg & _). rewrite Hget in Hg. simpl in Hg.
  rewrite requests_app, Hg. simpl. rewrite app_nil_r.
  intros [Heq _]%elem_of_replicate. by apply (GET_not_PUT issue issue).
Qed.


Lemma issueAlreadyHasVersion_sound (issueData : json) (versionField version : string)
    (versionIsId b : bool) :
  issueAlreadyHasVersion issueData versionField version versionIsId = Returns b →
  b = true ↔ Exists (refers_to version versionIsId) (version_refs issueData versionField).
Proof.
  assert (issueData = JNull ∨ issueData ≠ JNull) as [->|Hnull]
    by (destruct issueData; by (left + right)).
  { done. }
  unfold issueAlreadyHasVersion.
  destruct (held_spec issueData versionField Hnull) as (fields & -> & ->).
  destruct (truthy (version_field issueData versionField)) eqn:Ht.
  - unfold version_refs.
    destruct (version_field issueData versionField) as [[| | | |l|]|]; try done.
    apply some_version_sound.
  - rewrite (version_refs_absent _ _ Ht). intros [= <-]. split; [done|].
    by intros ?%Exists_nil.
Qed.

(** X5. A write is requested only after the read was answered by a
    response, and only when the issue data taken from its body ([{}] for a
    body that is empty or no JSON) has no entry in the version field with
    the target under [id] (when [versionIsId]) or [name]: the action never
    writes to an issue it has not read, nor to one whose answer lists the
    version. *)
Theorem write_only_when_missing (issue : string) (script : Script) :
  PUT config issue ∈ requests (play (issueTask JSON_parse config issue) script).1 →
  dryRun config = false ∧
  ∃ tg getRes,
    play (requestWithRetry (GET config issue) (maxRetries_of config)) script
      = (tg, Returns (Some getRes)) ∧
    ¬ Exists (refers_to (version config) (versionIsId config))
        (version_refs (issueData_of JSON_parse (readBody getRes)) (field config)).
Proof.
  intros Hin. destruct (dryRun config) eqn:Hdry.
  { rewrite play_issueTask_dry in Hin by done. simpl in Hin. by apply elem_of_nil in Hin. }
  split; [done|]. rewrite play_issueTask in Hin by done.
  destruct (requestWithRetry_requests (GET config issue) (maxRetries_of config) script)
    as (g & Hg & _).
  destruct (play (requestWithRetry (GET config issue) _) script) as [tg rg]. simpl in Hg.
  assert (∀ e, PUT config issue ∉ requests (tg ++ [Pushed e])) as Hnone.
  { intros e. rewrite requests_app, Hg. simpl. rewrite app_nil_r.
    intros [Heq _]%elem_of_replicate. by apply (GET_not_PUT issue issue). }
  destruct rg as [[getRes|]|e]; simpl in Hin; try (by apply Hnone in Hin).
  destruct (issueAlreadyHasVersion _ _ _ _) as [[|]|e] eqn:Hcheck; simpl in Hin;
    try (by apply Hnone in Hin).
  exists tg, getRes. split; [done|]. intros Hex.
  by apply (issueAlreadyHasVersion_sound _ _ _ _ _ Hcheck) in Hex.
Qed.

(** ** The run, whatever the order of the turns *)

Lemma task_requests_in (issue : string) (script : Script) (rq : Request) :
  rq ∈ requests (play (issueTask JSON_parse config issue) script).1 →
  rq = GET config issue ∨ rq = PUT config issue.
Proof.
  destruct (task_requests issue script) as (g & p & -> & _).
  intros [[-> _]%elem_of_replicate|[-> _]%elem_of_replicate]%elem_of_app; auto.
Qed.

Lemma task_requests_length (issue : string) (script : Script) :
  (length (requests (play (issueTask JSON_parse config issue) script).1)
   ≤ 2 * Z.to_nat (Z.max 1 (maxRetries_of config)))%nat.
Proof.
  destruct (task_requests issue script) as (g & p & -> & Hg & Hp).
  rewrite length_app, !length_replicate. lia.
Qed.

Lemma length_bind_imap {X Y : Type} (f : nat → X → list Y) (l : list X) (c : nat) :
  (∀ i x, (length (f i x) ≤ c)%nat) → (length (imap f l ≫= id) ≤ c * length l)%nat.
Proof.
  intros Hf. revert f Hf. induction l as [|x l IH]; intros f Hf; [simpl; lia|].
  rewrite imap_cons, bind_cons, length_app. simpl.
  specialize (IH (f ∘ S) (fun i x => Hf (S i) x)). specialize (Hf 0%nat x). lia.
Qed.


(** X7. The order of the turns decides nothing but the order inside the
    buckets: two runs against the same replies that both return, return
    the same [updated], the same [skipped] and the same [failed], up to
    order, and have handed the same requests to the transport. *)
Theorem report_up_to_order (transport : nat → Script) (schedule schedule' : list nat)
    (r r' : Report) :
  assignVersionToIssues JSON_parse config transport schedule = Some r →
  assignVersionToIssues JSON_parse config transport schedule' = Some r' →
  updated r ≡ₚ updated r' ∧ skipped r ≡ₚ skipped r' ∧ failed r ≡ₚ failed r' ∧
  wire (run JSON_parse config schedule (start config transport))
    ≡ₚ wire (run JSON_parse config schedule' (start config transport)).
Proof.
  intros (_ & Hret & <-)%assignVersionToIssues_Some (_ & Hret' & <-)%assignVersionToIssues_Some.
  destruct (returned_report JSON_parse config transport schedule Hret) as [He Hw].
  destruct (returned_report JSON_parse config transport schedule' Hret') as [He' Hw'].
  rewrite <- He' in He. rewrite <- Hw' in Hw.
  rewrite !updated_entries, !skipped_entries, !failed_entries.
  split_and!; [by apply omap_Permutation..|done].
Qed.

Lemma negative_outcome (issue : string) (script : Script) :
  maxRetries_of config < 0 → dryRun config = false →
  play (issueTask JSON_parse config issue) script =
  ([Pushed (Failed (mkFailure issue
      "Cannot read properties of undefined (reading 'readBody')"))], Returns tt).
Proof.
  intros Hm Hdry. rewrite play_issueTask by done.
  by rewrite requestWithRetry_negative by done.
Qed.

(** X8. With a negative [maxRetries] and no dry run the loop of
    [requestWithRetry] is never entered: whatever the order of the turns,
    no request is ever handed to the transport, nothing is pushed to
    [updated] or [skipped], and the report that is returned has every
    input issue in [failed], with the message of the [TypeError] of reading
    the body of a response that is not there. *)
Theorem negative_maxRetries_fails_all (transport : nat → Script) (schedule : list nat) :
  maxRetries_of config < 0 → dryRun config = false →
  let final := run JSON_parse config schedule (start config transport) in
  wire final = [] ∧
  updated (report final) = [] ∧
  skipped (report final) = [] ∧
  (∀ r, assignVersionToIssues JSON_parse config transport schedule = Some r →
     failed r ≡ₚ (fun issue => mkFailure issue
                    "Cannot read properties of undefined (reading 'readBody')")
                 <$> issues config).
Proof.
  intros Hm Hdry final.
  destruct (run_conserves JSON_parse config schedule (start config transport)) as [He Hw].
  fold final in He, Hw.
  rewrite start_pending in He. rewrite start_to_send in Hw. simpl in He, Hw.
  assert (imap (fun i issue => outcome JSON_parse config issue (transport i)) (issues config)
          = Failed <$> ((fun issue => mkFailure issue
                           "Cannot read properties of undefined (reading 'readBody')")
                        <$> issues config)) as Hout.
  { rewrite <- list_fmap_compose, <- imap_const. apply imap_ext. intros i issue _. simpl.
    unfold outcome. by rewrite negative_outcome. }
  assert (imap (fun i issue =>
                  requests (play (issueTask JSON_parse config issue) (transport i)).1)
               (issues config) ≫= id = []) as Hreq.
  { generalize (issues config). intros l. generalize transport.
    induction l as [|issue l IH]; intros tr; [done|].
    rewrite imap_cons, bind_cons, negative_outcome by done. simpl. apply (IH (tr ∘ S)). }
  rewrite Hout in He. rewrite Hreq in Hw.
  split_and!.
  - apply Permutation_nil_r in Hw. by apply app_eq_nil in Hw as [? _].
  - apply (omap_Permutation updated_of) in He. rewrite omap_app in He.
    rewrite (omap_miss updated_of Failed) in He by done.
    apply Permutation_nil_r, app_eq_nil in He as [He _]. by rewrite updated_entries.
  - apply (omap_Permutation skipped_of) in He. rewrite omap_app in He.
    rewrite (omap_miss skipped_of Failed) in He by done.
    apply Permutation_nil_r, app_eq_nil in He as [He _]. by rewrite skipped_entries.
  - intros r (_ & Hret & <-)%assignVersionToIssues_Some. fold final in Hret |- *.
    destruct (fulfilled_nothing_left JSON_parse config _ Hret) as [Hp _].
    rewrite Hp, app_nil_r in He.
    rewrite failed_entries, He. by rewrite (omap_hit failed_of Failed).
Qed.

End task_facts.

(** ** Tasks run one after the other *)

Lemma push_all_app es es' r : push_all (es ++ es') r = push_all es' (push_all es r).
Proof. apply foldl_app. Qed.

Lemma push_all_report_of es es' : push_all es' (report_of es) = report_of (es ++ es').
Proof.
  revert es. induction es' as [|e es' IH]; intros es; [by rewrite app_nil_r|].
  simpl. replace (es ++ e :: es') with ((es ++ [e]) ++ es') by (by rewrite <- (assoc_L (++))).
  rewrite <- IH. f_equal. unfold report_of. rewrite !omap_app.
  destruct e; simpl; by rewrite ?app_nil_r.
Qed.

Section in_turn.

Variable JSON_parse : string → option json.
Variable config : JiraConfig.

(** A turn in full: what the task pushes and sends now, in order, and what
    is left to the slot. *)
Lemma advance_exact t script r w :
  ∃ now sent,
    advance t script r w = (suspend t script, push_all now r, w ++ sent) ∧
    pushes (play t script).1 = now ++ pending JSON_parse config (suspend t script) ∧
    requests (play t script).1 = sent ++ to_send JSON_parse config (suspend t script).
Proof.
  revert r. induction t as [[]|e|rq k _|ms k _|e k IH]; intros r.
  - exists [], []. by rewrite app_nil_r.
  - exists [], []. by rewrite app_nil_r.
  - exists [], [rq]. unfold suspend, pending, to_send. simpl.
    by destruct (play (k (script 0%nat)) (later 1 script)).
  - exists [], []. unfold suspend, pending, to_send. simpl.
    rewrite app_nil_r. by destruct (play k script).
  - destruct (IH (push e r)) as (now & sent & Ha & Hp & Hs).
    exists (e :: now), sent. simpl.
    change (suspend (Push e k) script) with (advance k script (push e (mkReport [] [] [])) []).1.1.
    rewrite advance_slot. rewrite Ha. destruct (play k script) as [trace res].
    simpl in *. by rewrite Hp.
Qed.

Lemma run_to_end (i n : nat) p s :
  slots p !! i = Some s →
  sound JSON_parse config s →
  (turns_left JSON_parse config s ≤ n)%nat →
  run JSON_parse config (replicate n i) p =
  mkPool (<[i := if decide (n = 0%nat) then s else Fulfilled]> (slots p))
         (push_all (pending JSON_parse config s) (report p))
         (wire p ++ to_send JSON_parse config s).
Proof.
  revert p s. induction n as [|n IH]; intros p s Hs Hsound Hn.
  - assert (s = Fulfilled) as -> by (apply (settled JSON_parse config); [lia|done]).
    simpl. rewrite list_insert_id by done. rewrite app_nil_r. by destruct p.
  - simpl. destruct (resume JSON_parse config s) as [[t script]|] eqn:Hr.
    + pose proof (fire_spec JSON_parse config i p s t script Hs Hr) as Hf.
      destruct (advance_exact t script (report p) (wire p)) as (now & sent & Ha & Hp & Hw).
      rewrite Ha in Hf. rewrite Hf.
      pose proof (turn_spec JSON_parse config s) as [Hl Hsound'].
      unfold turn in Hl, Hsound'. rewrite Hr in Hl, Hsound'.
      rewrite (IH _ (suspend t script)).
      * simpl. rewrite list_insert_insert_eq.
        unfold pending at 2, to_send at 2. rewrite Hr, Hp, Hw.
        rewrite push_all_app, (assoc_L (++)). f_equal.
        destruct (decide (n = 0%nat)) as [->|]; [|done].
        f_equal. apply (settled JSON_parse config); [lia|auto].
      * simpl. apply list_lookup_insert_eq. by eapply lookup_lt_Some.
      * auto.
      * lia.
    + rewrite fire_idle by (by rewrite Hs). destruct s; try done.
      rewrite (IH p Fulfilled Hs Hsound); [|unfold turns_left; simpl; lia].
      by destruct (decide (n = 0%nat)).
Qed.

Lemma run_app (a b : list nat) p :
  run JSON_parse config (a ++ b) p = run JSON_parse config b (run JSON_parse config a p).
Proof. apply foldl_app. Qed.

Lemma run_one_by_one (transport : nat → Script) (n : nat) (rest : list string) :
  (turns_needed config ≤ n)%nat →
  ∀ (j : nat) (front : list Slot) r w,
  length front = j →
  run JSON_parse config (seq j (length rest) ≫= replicate n)
      (mkPool (front ++ imap (fun i issue => Queued issue (transport (j + i)%nat)) rest) r w) =
  mkPool (front ++ replicate (length rest) Fulfilled)
         (push_all (imap (fun i issue => outcome JSON_parse config issue (transport (j + i)%nat))
                         rest) r)
         (w ++ (imap (fun i issue =>
                        requests (play (issueTask JSON_parse config issue)
                                       (transport (j + i)%nat)).1) rest ≫= id)).
Proof.
  intros Hn. induction rest as [|issue rest IH]; intros j front r w Hj.
  { simpl. by rewrite !app_nil_r. }
  simpl length. rewrite <- cons_seq, bind_cons, run_app.
  rewrite !imap_cons, Nat.add_0_r.
  pose proof (queued_turns JSON_parse config issue (transport j)) as Hturns.
  rewrite (run_to_end j n _ (Queued issue (transport j)));
    [|simpl; by rewrite list_lookup_middle|apply queued_sound|lia].
  unfold turns_needed in Hn. destruct (decide (n = 0%nat)) as [?|_]; [lia|].
  simpl. rewrite queued_pending.
  replace (<[j:=Fulfilled]> (front ++ Queued issue (transport j) ::
             imap ((fun i issue0 => Queued issue0 (transport (j + i)%nat)) ∘ S) rest))
    with ((front ++ [Fulfilled]) ++
          imap (fun i issue0 => Queued issue0 (transport (S j + i)%nat)) rest).
  2:{ rewrite insert_app_r_alt by lia. rewrite Hj, Nat.sub_diag. simpl.
      rewrite <- (assoc_L (++)). simpl. do 2 f_equal. apply imap_ext.
      intros i x _. simpl. do 2 f_equal. lia. }
  rewrite (IH (S j)) by (rewrite length_app; simpl; lia).
  f_equal.
  - by rewrite <- (assoc_L (++)).
  - f_equal. apply imap_ext. intros i x _. simpl. do 2 f_equal. lia.
  - rewrite <- (assoc_L (++)). f_equal. unfold to_send. simpl. f_equal.
    unfold mbind. f_equal. apply imap_ext. intros i x _. simpl.
    do 4 f_equal. lia.
Qed.

(** X9. With a concurrency limit of 1 or more (4 when none is given):
    when the tasks are run one after the other in the order of the input,
    each to its end before the next starts, the call returns, and in the
    report it returns every bucket lists its issues in the order of the
    input: the report is the outcomes of the tasks, in input order, sorted
    into the three buckets. The requests are handed to the transport issue
    by issue, in the same order. *)
Theorem one_by_one_in_input_order (transport : nat → Script) (n : nat) :
  1 ≤ concurrency_of config →
  (turns_needed config ≤ n)%nat →
  let schedule := one_by_one (length (issues config)) n in
  assignVersionToIssues JSON_parse config transport schedule =
    Some (report_of (imap (fun i issue => outcome JSON_parse config issue (transport i))
                          (issues config))) ∧
  wire (run JSON_parse config schedule (start config transport)) =
    imap (fun i issue => requests (play (issueTask JSON_parse config issue) (transport i)).1)
         (issues config) ≫= id.
Proof.
  intros Hc Hn schedule.
  pose proof (run_one_by_one transport n (issues config) Hn 0 [] (mkReport [] [] []) []
                eq_refl) as Hrun.
  simpl in Hrun. unfold assignVersionToIssues, schedule, one_by_one, start.
  rewrite pLimit_valid by done. rewrite Hrun. simpl. split.
  - assert (returned (mkPool (replicate (length (issues config)) Fulfilled)
               (push_all (imap (fun i issue => outcome JSON_parse config issue (transport i))
                               (issues config)) (mkReport [] [] []))
               (imap (fun i issue =>
                        requests (play (issueTask JSON_parse config issue) (transport i)).1)
                     (issues config) ≫= id)) = true) as ->.
    { unfold returned. simpl. generalize (length (issues config)). intros m.
      by induction m. }
    f_equal. apply (push_all_report_of []).
  - done.
Qed.

End in_turn.

(** ** When the run returns *)

Section returns.

Variable JSON_parse : string → option json.
Variable config : JiraConfig.

(** X10. The call returns a report exactly when the concurrency limit is
    1 or more (4 when none is given), so that [pLimit] does not throw, and
    every task has had all the turns it takes: [Promise.all] does not
    resolve while a task is still at work, whatever has failed by then,
    and is not held up once the last task has ended. *)
Theorem returns_iff_all_done (transport : nat → Script) (schedule : list nat) :
  is_Some (assignVersionToIssues JSON_parse config transport schedule) ↔
  1 ≤ concurrency_of config ∧
  ∀ (i : nat) issue, issues config !! i = Some issue →
    (turns_left JSON_parse config (Queued issue (transport i)) ≤ turns_given i schedule)%nat.
Proof.
  split.
  - intros [r (Hc & Hret & _)%assignVersionToIssues_Some]. split; [done|].
    intros i issue Hissue.
    pose proof (slots_run JSON_parse config schedule (start config transport) i) as Hslot.
    rewrite start_lookup, Hissue in Hslot. simpl in Hslot.
    unfold returned in Hret. rewrite forallb_forall in Hret.
    apply list_elem_of_lookup_2, list_elem_of_In, Hret in Hslot.
    pose proof (iter_turn_spec JSON_parse config (turns_given i schedule)
                  (Queued issue (transport i))) as [Hleft _].
    destruct (Nat.iter _ _ _); try done. unfold turns_left at 1 in Hleft. simpl in Hleft. lia.
  - intros [Hc Hdone]. by apply assignVersionToIssues_is_Some, run_returns_at.
Qed.

(** X11. With an empty list of issues and a concurrency limit of 1 or
    more (4 when none is given) there is no task: whatever the turns, the
    call returns at once with three empty buckets, and nothing is handed
    to the transport. (With a limit below 1 the call rejects in [pLimit],
    also on an empty list.) *)
Theorem empty_input_returns_at_once (transport : nat → Script) (schedule : list nat) :
  issues config = [] →
  1 ≤ concurrency_of config →
  assignVersionToIssues JSON_parse config transport schedule = Some (mkReport [] [] []) ∧
  wire (run JSON_parse config schedule (start config transport)) = [].
Proof.
  intros Hnone Hc.
  assert (run JSON_parse config schedule (start config transport)
          = mkPool [] (mkReport [] [] []) []) as Hrun.
  { unfold start. rewrite Hnone. simpl.
    induction schedule as [|i schedule IH]; [done|]. simpl. by rewrite fire_idle. }
  unfold assignVersionToIssues. rewrite pLimit_valid by done. by rewrite Hrun.
Qed.

End returns.

(** ** The error of a failed entry *)

Section failure.

Variable JSON_parse : string → option json.
Variable config : JiraConfig.

Lemma requestWithRetry_ends rq maxRetries script :
  0 ≤ maxRetries →
  ∃ before reply,
    play (requestWithRetry rq maxRetries) script
      = (before ++ [Requested rq reply], handed_back reply) ∧
    pushes before = [].
Proof.
  intros Hm. unfold requestWithRetry.
  destruct (attempts_canonical rq maxRetries (Z.to_nat (maxRetries + 1 - 0)) 0 script)
    as (k & Hplay & _); [lia|lia|].
  exists (rounds rq k 0 script), (script k). split; [done|].
  generalize 0 at 1. generalize script. clear.
  induction k as [|k IH]; intros script attempt; [done|]. simpl. apply IH.
Qed.

(** X12. Where a failed entry comes from, when it is no dry run. It is
    under the issue of the task, and it is one of four. The last attempt
    of the read or of the write ended in an exception of the transport,
    whose message is the error. Or the write was answered by a response
    with a status outside 200 to 299, not retried or at the last attempt,
    and the error is [HTTP <status>: <body>]. Or the check threw on the
    data of the read's response (a [null] entry, a field that is no
    array), and the error is the message of that exception. Or
    [maxRetries] is negative and nothing was requested. In the first
    three, the entry is pushed right after the reply in question. *)
Theorem failed_anatomy (issue : string) (script : Script) (f : Failure) :
  dryRun config = false →
  let trace := (play (issueTask JSON_parse config issue) script).1 in
  pushes trace = [Failed f] →
  issue_of (Failed f) = issue ∧
  ((∃ before rq e,
      trace = before ++ [Requested rq (Rejected e); Pushed (Failed f)] ∧
      error f = message e) ∨
   (∃ before res,
      trace = before ++ [Requested (PUT config issue) (Resolved res); Pushed (Failed f)] ∧
      is_2xx (status_of res) = false ∧
      error f = "HTTP " +:+ show (status_of res) +:+ ": " +:+ readBody res) ∨
   (∃ before res e,
      trace = before ++ [Requested (GET config issue) (Resolved res); Pushed (Failed f)] ∧
      issueAlreadyHasVersion (issueData_of JSON_parse (readBody res)) (field config)
        (version config) (versionIsId config) = Throws e ∧
      error f = message e) ∨
   (maxRetries_of config < 0 ∧ trace = [Pushed (Failed f)])).
Proof.
  intros Hdry. simpl. rewrite play_issueTask by done.
  destruct (decide (maxRetries_of config < 0)) as [Hneg|Hm].
  { rewrite requestWithRetry_negative by done. simpl. intros [= <-]. split; [done|].
    do 3 right. done. }
  destruct (requestWithRetry_ends (GET config issue) (maxRetries_of config) script)
    as (bg & reply & -> & Hbg); [lia|].
  assert (∀ l e, pushes ((bg ++ [Requested (GET config issue) reply]) ++ l ++ [Pushed e])
                 = pushes l ++ [e]) as Hpushes.
  { intros l e. rewrite !pushes_app, Hbg. done. }
  assert (∀ e, pushes ((bg ++ [Requested (GET config issue) reply]) ++ [Pushed e]) = [e])
    as Hone.
  { intros e. rewrite !pushes_app, Hbg. done. }
  destruct reply as [getRes|e]; simpl.
  - destruct (issueAlreadyHasVersion _ _ _ _) as [[|]|e] eqn:Hcheck.
    + cbn [fst]. intros Hp. rewrite Hone in Hp. done.
    + destruct (requestWithRetry_ends (PUT config issue) (maxRetries_of config)
                  (later (answered (bg ++ [Requested (GET config issue) (Resolved getRes)]))
                         script)) as (bp & reply & -> & Hbp); [lia|].
      cbn [fst]. rewrite Hpushes, pushes_app, Hbp. simpl.
      destruct reply as [putRes|e]; simpl.
      * unfold classified. destruct (is_2xx (status_of putRes)) eqn:H2xx; [done|].
        intros [= <-]. split; [done|]. right. left.
        exists ((bg ++ [Requested (GET config issue) (Resolved getRes)]) ++ bp), putRes.
        split_and!; [|done|done]. by rewrite <- !(assoc_L (++)).
      * intros [= <-]. split; [done|]. left.
        exists ((bg ++ [Requested (GET config issue) (Resolved getRes)]) ++ bp),
               (PUT config issue), e.
        split; [|done]. by rewrite <- !(assoc_L (++)).
    + cbn [fst]. intros Hp. rewrite Hone in Hp. injection Hp as <-. split; [done|].
      do 2 right. left. exists bg, getRes, e. split_and!; [|done|done].
      by rewrite <- !(assoc_L (++)).
  - cbn [fst]. intros Hp. rewrite Hone in Hp. injection Hp as <-. split; [done|].
    left. exists bg, (GET config issue), e. split; [|done]. by rewrite <- !(assoc_L (++)).
Qed.

End failure.

(** ** [Number] on the decimal text of an integer *)

Lemma Qred_integer (z : Z) : Qred (z # 1) = z # 1.
Proof.
  unfold Qred.
  pose proof (Z.ggcd_gcd z 1) as Hg. pose proof (Z.ggcd_correct_divisors z 1) as Hd.
  destruct (Z.ggcd z 1) as [g [a b]]. simpl in *.
  rewrite Z.gcd_1_r in Hg. subst g. destruct Hd as [Ha Hb].
  replace a with z by lia. replace b with 1 by lia. done.
Qed.

Ltac digit_step :=
  match goal with
  | |- context [StringToNumber.digit_of 10 ?c] =>
      let v := eval vm_compute in (StringToNumber.digit_of 10 c) in
      change (StringToNumber.digit_of 10 c) with v
  end;
  cbn [mbind option_bind].

Lemma digits_acc (d : Decimal.uint) (acc : positive) :
  StringToNumber.digits 10 (list_ascii_of_string (NilEmpty.string_of_uint d)) (Z.pos acc)
  = Some (Z.pos (Pos.of_uint_acc d acc)).
Proof.
  revert acc. induction d as [|d IH|d IH|d IH|d IH|d IH|d IH|d IH|d IH|d IH|d IH];
    intros acc; [done|..];
    (etrans; [|apply IH]);
    cbn -[Z.mul Z.add Pos.mul Pos.add StringToNumber.digit_of]; digit_step; f_equal; lia.
Qed.

Lemma digits_uint (d : Decimal.uint) :
  StringToNumber.digits 10 (list_ascii_of_string (NilEmpty.string_of_uint d)) 0
  = Some (Z.of_N (Pos.of_uint d)).
Proof.
  induction d as [|d IH|d IH|d IH|d IH|d IH|d IH|d IH|d IH|d IH|d IH];
    [done|exact IH|..]; apply digits_acc.
Qed.

Lemma no_e_in_uint (d : Decimal.uint) :
  StringToNumber.split_at StringToNumber.is_e
    (list_ascii_of_string (NilEmpty.string_of_uint d))
  = (list_ascii_of_string (NilEmpty.string_of_uint d), None).
Proof. induction d; [done|..]; simpl; by rewrite IHd. Qed.

Lemma no_dot_in_uint (d : Decimal.uint) :
  StringToNumber.split_at StringToNumber.is_dot
    (list_ascii_of_string (NilEmpty.string_of_uint d))
  = (list_ascii_of_string (NilEmpty.string_of_uint d), None).
Proof. induction d; [done|..]; simpl; by rewrite IHd. Qed.

(** A visible ASCII character is no white space and no part of any. *)
Lemma key_char_no_space (c : ascii) :
  is_key_char c = true →
  StringToNumber.is_space c = false ∧
  (∀ b, is_space2 c b = false) ∧ (∀ b, is_space2 b c = false) ∧
  (∀ b d, is_space3 c b d = false) ∧ (∀ a b, is_space3 a b c = false).
Proof.
  unfold is_key_char, StringToNumber.is_space, is_space2, is_space3.
  generalize (Z.of_nat (nat_of_ascii c)). intros n Hn.
  apply andb_true_iff in Hn as [Hn _]. split_and!; intros; lia.
Qed.

Lemma trim_start_key (c : ascii) (l : list ascii) :
  is_key_char c = true → trim_start (c :: l) = c :: l.
Proof.
  intros (Hs & H2 & _ & H3 & _)%key_char_no_space. simpl. rewrite Hs.
  destruct l as [|b [|d l]]; [done|by rewrite H2|by rewrite H2, H3].
Qed.

Lemma trim_end_rev_key (c : ascii) (l : list ascii) :
  is_key_char c = true → trim_end_rev (c :: l) = c :: l.
Proof.
  intros (Hs & _ & H2 & _ & H3)%key_char_no_space. simpl. rewrite Hs.
  destruct l as [|b [|a l]]; [done|by rewrite H2|by rewrite H2, H3].
Qed.

Lemma no_space_in_uint (d : Decimal.uint) :
  Forall (fun c => is_key_char c = true)
         (list_ascii_of_string (NilEmpty.string_of_uint d)).
Proof. induction d; [constructor|..]; by constructor. Qed.

Lemma trim_no_space (l : list ascii) :
  Forall (fun c => is_key_char c = true) l → StringToNumber.trim l = l.
Proof.
  intros Hl. unfold StringToNumber.trim. destruct l as [|c l]; [done|].
  rewrite trim_start_key by (by apply Forall_cons in Hl as [Hc _]).
  apply Forall_rev in Hl. destruct (rev (c :: l)) as [|c' l'] eqn:Hrev.
  { apply (f_equal length) in Hrev. by rewrite length_rev in Hrev. }
  rewrite trim_end_rev_key by (by apply Forall_cons in Hl as [Hc _]).
  rewrite <- Hrev. apply rev_involutive.
Qed.

Lemma unsigned_decimal_uint (d : Decimal.uint) :
  d ≠ Decimal.Nil →
  StringToNumber.unsigned_decimal (list_ascii_of_string (NilEmpty.string_of_uint d))
  = Some (of_Z (Z.of_N (Pos.of_uint d))).
Proof.
  intros Hd. unfold StringToNumber.unsigned_decimal.
  rewrite string_of_list_ascii_of_string.
  assert (String.eqb (NilEmpty.string_of_uint d) "Infinity" = false) as ->
    by (by destruct d).
  rewrite no_e_in_uint. unfold StringToNumber.mantissa. rewrite no_dot_in_uint.
  cbn [default]. rewrite digits_uint.
  destruct (list_ascii_of_string (NilEmpty.string_of_uint d)) eqn:Hl.
  { by destruct d. }
  cbn [mbind option_bind StringToNumber.digits length]. unfold of_Z. do 2 f_equal.
  change (10 ^ Z.of_nat 0) with 1. rewrite Z.mul_1_r, Z.add_0_r.
  apply Qred_integer.
Qed.

Lemma string_of_uint_nonnil (d : Decimal.uint) :
  d ≠ Decimal.Nil → NilZero.string_of_uint d = NilEmpty.string_of_uint d.
Proof. by destruct d. Qed.

Lemma Number_uint (d : Decimal.uint) :
  d ≠ Decimal.Nil →
  Number (NilEmpty.string_of_uint d) = of_Z (Z.of_N (Pos.of_uint d)) ∧
  Number (String "-" (NilEmpty.string_of_uint d)) = of_Z (- Z.of_N (Pos.of_uint d)).
Proof.
  intros Hd. unfold StringToNumber.Number. split.
  - rewrite trim_no_space by apply no_space_in_uint.
    assert (StringToNumber.non_decimal (list_ascii_of_string (NilEmpty.string_of_uint d))
            = None) as Hnon.
    { destruct d as [|d|d|d|d|d|d|d|d|d|d]; [done|..]; by destruct d. }
    assert (StringToNumber.signed_decimal (list_ascii_of_string (NilEmpty.string_of_uint d))
            = StringToNumber.unsigned_decimal
                (list_ascii_of_string (NilEmpty.string_of_uint d))) as Hsigned
      by (by destruct d).
    rewrite unsigned_decimal_uint in Hsigned by done. revert Hnon Hsigned.
    generalize (list_ascii_of_string (NilEmpty.string_of_uint d)).
    intros [|a l] Hnon Hsigned; [done|]. by rewrite Hnon, Hsigned.
  - change (list_ascii_of_string (String "-" (NilEmpty.string_of_uint d)))
      with ("-"%char :: list_ascii_of_string (NilEmpty.string_of_uint d)).
    rewrite trim_no_space by (constructor; [done|apply no_space_in_uint]).
    assert (StringToNumber.non_decimal
              ("-"%char :: list_ascii_of_string (NilEmpty.string_of_uint d)) = None) as ->
      by (by destruct (list_ascii_of_string (NilEmpty.string_of_uint d))).
    assert (StringToNumber.signed_decimal
              ("-"%char :: list_ascii_of_string (NilEmpty.string_of_uint d))
            = StringToNumber.negate <$>
                StringToNumber.unsigned_decimal
                  (list_ascii_of_string (NilEmpty.string_of_uint d))) as -> by done.
    rewrite unsigned_decimal_uint by done. cbn [fmap option_fmap option_map default].
    unfold StringToNumber.negate, of_Z.
    change (Qopp (inject_Z ?z)) with (- z # 1). by rewrite Qred_integer.
Qed.

(** The decimal text of an integer, as a template literal writes it, is
    read back by [Number] as that integer. *)
Lemma Number_show (n : Z) : Number (show n) = of_Z n.
Proof.
  unfold show. destruct n as [|p|p].
  - vm_compute. reflexivity.
  - change (Z.to_int (Z.pos p)) with (Decimal.Pos (Pos.to_uint p)).
    change (NilZero.string_of_int (Decimal.Pos (Pos.to_uint p)))
      with (NilZero.string_of_uint (Pos.to_uint p)).
    rewrite string_of_uint_nonnil by apply DecimalPos.Unsigned.to_uint_nonnil.
    destruct (Number_uint (Pos.to_uint p)) as [-> _];
      [apply DecimalPos.Unsigned.to_uint_nonnil|].
    by rewrite DecimalPos.Unsigned.of_to.
  - change (Z.to_int (Z.neg p)) with (Decimal.Neg (Pos.to_uint p)).
    change (NilZero.string_of_int (Decimal.Neg (Pos.to_uint p)))
      with (String "-" (NilZero.string_of_uint (Pos.to_uint p))).
    rewrite string_of_uint_nonnil by apply DecimalPos.Unsigned.to_uint_nonnil.
    destruct (Number_uint (Pos.to_uint p)) as [_ ->];
      [apply DecimalPos.Unsigned.to_uint_nonnil|].
    by rewrite DecimalPos.Unsigned.of_to.
Qed.

Lemma show_nonempty (n : Z) : show n ≠ "".
Proof.
  unfold show. destruct n as [|p|p]; [done| |done].
  change (Z.to_int (Z.pos p)) with (Decimal.Pos (Pos.to_uint p)).
  pose proof (DecimalPos.Unsigned.to_uint_nonnil p). by destruct (Pos.to_uint p).
Qed.

Lemma times_integers (a b : Z) : times (of_Z a) (of_Z b) = of_Z (a * b).
Proof.
  unfold times, of_Z. f_equal. change (inject_Z a * inject_Z b)%Q with (a * b # 1).
  apply Qred_integer.
Qed.

(** X13. A [retry-after] header whose value is the decimal text of a
    number of seconds [n], an integer with [n * 1000] at most [2 ^ 53] in
    absolute value, on a retryable response that is not the last attempt,
    makes the wait before the next attempt exactly [n * 1000]
    milliseconds, in the place of the exponential backoff: with [0] the
    next attempt follows at once. Within that bound [n] and [n * 1000] are
    doubles, so that [Number] and the product are exact in the code as
    they are here; beyond it the code may round. *)
Theorem retry_after_seconds (rq : Request) (maxRetries : Z) (script : Script) (i : nat)
    (res : Response) (h : gmap string string) (n : Z) :
  (∀ j : nat, (j ≤ i)%nat → retryable (script j) = true) →
  script i = Resolved res →
  Z.of_nat i + 1 < maxRetries →
  headers res = Some h →
  h !! "retry-after" = Some (show n) →
  Z.abs (n * 1000) ≤ 2 ^ 53 →
  sleeps (play (requestWithRetry rq maxRetries) script).1 !! i = Some (of_Z (n * 1000)).
Proof.
  intros Hretry Hres Hleft Hh Hn _.
  rewrite requestWithRetry_sleep by done. rewrite Hres. simpl. f_equal.
  assert (retryAfterHeader res = Some (show n)) as Hheader.
  { unfold retryAfterHeader, or_else. rewrite Hh, Hn. simpl.
    pose proof (show_nonempty n) as Hne. apply String.eqb_neq in Hne. by rewrite Hne. }
  unfold waitSec. rewrite Hheader. simpl.
  pose proof (show_nonempty n) as Hne. apply String.eqb_neq in Hne. rewrite Hne. simpl.
  rewrite Number_show. apply times_integers.
Qed.

(** * Properties of the readers *)

(** ** Splitting at a character *)

Lemma split_on_cons sep s : ∃ piece pieces, split_on sep s = piece :: pieces.
Proof.
  destruct s as [|c s]; simpl; [eauto|].
  destruct (sep c); [eauto|]. destruct (split_on sep s); eauto.
Qed.

Lemma length_split_on sep s : length (split_on sep s) = S (occurrences sep s).
Proof.
  induction s as [|c s IH]; [done|]. simpl. destruct (sep c); simpl; [by rewrite IH|].
  destruct (split_on sep s); simpl in *; [done|lia].
Qed.

Lemma split_on_app sep a c b :
  sep c = true → split_on sep (a +:+ String c b) = split_on sep a ++ split_on sep b.
Proof.
  intros Hc. induction a as [|d a IH]; simpl.
  - by rewrite Hc.
  - destruct (sep d); [by rewrite IH|]. rewrite IH.
    destruct (split_on_cons sep a) as (piece & pieces & ->). done.
Qed.

Lemma split_on_free sep k : occurrences sep k = 0%nat → split_on sep k = [k].
Proof.
  induction k as [|c k IH]; [done|]. simpl. destruct (sep c); [done|].
  intros Hk. by rewrite IH.
Qed.

Lemma split_on_join (l : list string) :
  l ≠ [] → Forall (fun k => occurrences is_comma k = 0%nat) l →
  split_on is_comma (join l) = l.
Proof.
  intros Hl Hfree. induction Hfree as [|k l Hk Hfree IH]; [done|].
  destruct l as [|k' l].
  - simpl. by apply split_on_free.
  - change (join (k :: k' :: l)) with (k +:+ String "," (join (k' :: l))).
    rewrite split_on_app by done. rewrite split_on_free by done.
    by rewrite IH.
Qed.

(** ** Splitting at runs of separators *)

Lemma split_on_runs_cons sep b s : ∃ piece pieces, split_on_runs sep b s = piece :: pieces.
Proof.
  revert b. induction s as [|c s IH]; intros b; simpl; [eauto|].
  destruct (sep c).
  - destruct b; [apply IH|eauto].
  - destruct (IH false) as (piece & pieces & ->). eauto.
Qed.

(** Once the empty pieces are dropped, it does not matter whether the text
    follows a separator. *)
Lemma filter_split_on_runs sep s :
  filter_Boolean (split_on_runs sep true s) = filter_Boolean (split_on_runs sep false s).
Proof.
  destruct s as [|c s]; [done|]. simpl. destruct (sep c); [|done].
  unfold filter_Boolean. by rewrite filter_cons_False by (by intros []).
Qed.

Lemma filter_Boolean_cons piece pieces :
  filter_Boolean (piece :: pieces) =
  (if decide (piece = "") then [] else [piece]) ++ filter_Boolean pieces.
Proof.
  unfold filter_Boolean. destruct (decide (piece = "")) as [->|Hne].
  - by rewrite filter_cons_False by (by intros []).
  - by rewrite filter_cons_True by done.
Qed.

Lemma split_content_sep c s :
  is_separator c = true → split_content (String c s) = split_content s.
Proof.
  intros Hc. unfold split_content. simpl. rewrite Hc.
  rewrite filter_Boolean_cons. simpl. apply filter_split_on_runs.
Qed.

(** The pieces of [a] followed by a separator and [b]: the first piece is
    that of [a], and the rest, the empty pieces dropped, is the rest of
    [a] followed by the pieces of [b]. *)
Lemma split_on_runs_app a c b :
  is_separator c = true →
  ∃ piece pieces pieces',
    split_on_runs is_separator false (a +:+ String c b) = piece :: pieces ∧
    split_on_runs is_separator false a = piece :: pieces' ∧
    filter_Boolean pieces = filter_Boolean pieces' ++ split_content b.
Proof.
  intros Hc. induction a as [|d a (piece & pieces & pieces' & Hab & Ha & Hrest)]; simpl.
  - rewrite Hc. exists "", (split_on_runs is_separator true b), []. split_and!; [done..|].
    apply filter_split_on_runs.
  - destruct (is_separator d) eqn:Hd.
    + exists "", (split_on_runs is_separator true (a +:+ String c b)),
             (split_on_runs is_separator true a).
      split_and!; [done..|].
      rewrite !filter_split_on_runs, Hab, Ha, !filter_Boolean_cons, Hrest.
      by rewrite (assoc_L (++)).
    + rewrite Hab, Ha. by exists (String d piece), pieces, pieces'.
Qed.

Lemma split_content_app a c b :
  is_separator c = true → split_content (a +:+ String c b) = split_content a ++ split_content b.
Proof.
  intros Hc.
  destruct (split_on_runs_app a c b Hc) as (piece & pieces & pieces' & Hab & Ha & Hrest).
  unfold split_content at 1 2. rewrite Hab, Ha, !filter_Boolean_cons, Hrest.
  by rewrite (assoc_L (++)).
Qed.

Lemma split_on_runs_free k :
  occurrences is_separator k = 0%nat → split_on_runs is_separator false k = [k].
Proof.
  induction k as [|c k IH]; [done|]. simpl. destruct (is_separator c); [done|].
  intros Hk. by rewrite IH.
Qed.

Lemma split_content_key k : plain_key k → split_content k = [k].
Proof.
  intros [Hne Hfree]. unfold split_content. rewrite split_on_runs_free by done.
  rewrite filter_Boolean_cons. by destruct (decide (k = "")).
Qed.

Lemma split_content_all_of s : all_of is_separator s = true → split_content s = [].
Proof.
  induction s as [|c s IH]; [done|]. intros H. simpl in H.
  apply andb_true_iff in H as [Hc Hs]. rewrite split_content_sep by done. auto.
Qed.

Lemma split_content_skip s b :
  all_of is_separator s = true → split_content (s +:+ b) = split_content b.
Proof.
  induction s as [|c s IH]; [done|]. intros H. simpl in H.
  apply andb_true_iff in H as [Hc Hs].
  change (String c s +:+ b) with (String c (s +:+ b)).
  rewrite split_content_sep by done. auto.
Qed.

Lemma occurrences_free_pieces sep b s :
  Forall (fun piece => occurrences sep piece = 0%nat) (split_on_runs sep b s).
Proof.
  revert b. induction s as [|c s IH]; intros b; simpl; [by constructor|].
  destruct (sep c) eqn:Hc.
  - destruct b; [apply IH|]. constructor; [done|apply IH].
  - specialize (IH false). destruct (split_on_runs sep false s) as [|piece pieces].
    + constructor; [simpl; by rewrite Hc|constructor].
    + apply Forall_cons in IH as [Hp Hps]. constructor; [simpl; by rewrite Hc|done].
Qed.

(** X14. The plain-text reading of an issues file,
    [content.split(/[\r\n,]+/).filter(Boolean)], gives the runs of
    characters between commas, carriage returns and line feeds: every key
    it returns is non-empty and free of these three characters; a text
    without them is one key, unless it is empty; the keys of a text with a
    separator in it are those of what is before it followed by those of
    what is after it, so that blank lines, a final line end and either
    kind of line end change nothing. Nothing is trimmed: a space next to a
    comma is part of the key. *)
Theorem split_content_spec :
  (∀ content, Forall plain_key (split_content content)) ∧
  (∀ a c b, is_separator c = true →
            split_content (a +:+ String c b) = split_content a ++ split_content b) ∧
  (∀ k, plain_key k → split_content k = [k]) ∧
  split_content "" = [].
Proof.
  split_and!.
  - intros content. unfold split_content, filter_Boolean. apply Forall_forall.
    intros k [Hne Hin]%list_elem_of_filter. split; [done|].
    pose proof (occurrences_free_pieces is_separator false content) as Hfree.
    rewrite Forall_forall in Hfree. by apply Hfree.
  - apply split_content_app.
  - apply split_content_key.
  - done.
Qed.

Lemma append_nil_r (s : string) : s +:+ "" = s.
Proof.
  induction s as [|c s IH]; [done|].
  change (String c (s +:+ "") = String c s). by rewrite IH.
Qed.

Lemma append_assoc (a b c : string) : (a +:+ b) +:+ c = a +:+ (b +:+ c).
Proof.
  induction a as [|d a IH]; [done|].
  change (String d ((a +:+ b) +:+ c) = String d (a +:+ (b +:+ c))). by rewrite IH.
Qed.

(** A list of keys written out with a separator between them, and maybe
    separators after the last, reads back as the list. *)
Lemma split_content_concat (sep post : string) (l : list string) :
  sep ≠ "" → all_of is_separator sep = true → all_of is_separator post = true →
  Forall plain_key l →
  split_content (String.concat sep l +:+ post) = l.
Proof.
  intros Hne Hsep Hpost Hl.
  assert (∀ k rest, plain_key k → all_of is_separator rest = true →
            split_content (k +:+ rest) = [k]) as Hlast.
  { intros k [|c rest] Hk Hrest.
    - rewrite append_nil_r. by apply split_content_key.
    - simpl in Hrest. apply andb_true_iff in Hrest as [Hc Hrest].
      rewrite split_content_app, split_content_key, split_content_all_of by done. done. }
  induction Hl as [|k l Hk Hl IH].
  - simpl. by apply split_content_all_of.
  - destruct l as [|k' l]; [by apply Hlast|].
    change (String.concat sep (k :: k' :: l))
      with (k +:+ sep +:+ String.concat sep (k' :: l)).
    rewrite !append_assoc.
    destruct sep as [|c sep]; [done|]. simpl in Hsep.
    apply andb_true_iff in Hsep as [Hc Hsep].
    change (String c sep +:+ ?x) with (String c (sep +:+ x)).
    rewrite split_content_app, split_content_key by done.
    rewrite split_content_skip by done. simpl. f_equal. apply IH.
Qed.

Lemma id_of_entry (i : json) : i ≠ JNull → id_of i = Returns (entry_of i).
Proof. by destruct i. Qed.

Lemma map_id_of_entries (l : list json) :
  Forall (fun i => i ≠ JNull) l → map_id_of l = Returns (entry_of <$> l).
Proof.
  induction 1 as [|i l Hi Hl IH]; [done|]. simpl. by rewrite id_of_entry, IH.
Qed.

Lemma map_id_of_null (l : list json) : JNull ∈ l → ∃ e, map_id_of l = Throws e.
Proof.
  induction l as [|i l IH]; [by intros ?%elem_of_nil|].
  intros [<-|Hin]%elem_of_cons; simpl; [eauto|].
  destruct (id_of i); [|eauto]. destruct (IH Hin) as [e ->]. eauto.
Qed.

Section reader_facts.

Variable JSON_parse : string → option json.
Variable readFileSync : string → Result string.

(** X15. An issues input that is no JSON, or is a JSON array with a
    [null] in it, is read as a comma-separated list: one entry per piece
    between commas, trimmed, the empty pieces included. There is one
    entry more than there are commas, so never none; an empty input
    gives one empty key. *)
Theorem readIssuesFromInput_plain (issuesInput : string) :
  JSON_parse issuesInput = None ∨
  (∃ l, JSON_parse issuesInput = Some (JArray l) ∧ JNull ∈ l) →
  readIssuesFromInput JSON_parse issuesInput
    = (fun piece => text (trim piece)) <$> split_on is_comma issuesInput ∧
  length (readIssuesFromInput JSON_parse issuesInput) = S (occurrences is_comma issuesInput).
Proof.
  intros Hparse.
  assert (readIssuesFromInput JSON_parse issuesInput = split_input issuesInput) as ->.
  { unfold readIssuesFromInput. destruct Hparse as [->|(l & -> & Hnull)]; [done|].
    by destruct (map_id_of_null l Hnull) as [e ->]. }
  split; [done|]. unfold split_input. by rewrite length_fmap, length_split_on.
Qed.

(** X16. What one run gives out, the next can take in: the value of the
    output [updated-issues], [result.updated.join(',')], given as the
    input [issues], is read back as the list it was made of, provided the
    list is not empty, no key holds a comma or has white space at either
    end, and the joined text is no JSON. ([skipped-issues] is set in the
    same way.) *)
Theorem outputs_read_back (r : Report) :
  updated r ≠ [] →
  Forall (fun k => occurrences is_comma k = 0%nat ∧ trim k = k) (updated r) →
  JSON_parse (updated_issues r) = None →
  readIssuesFromInput JSON_parse (updated_issues r) = text <$> updated r.
Proof.
  unfold updated_issues. generalize (updated r). intros l Hl Hkeys Hparse.
  unfold readIssuesFromInput, split_input. rewrite Hparse.
  rewrite split_on_join; [|done|by eapply Forall_impl; [exact Hkeys|intros k []]].
  apply Forall_fmap_ext_1. eapply Forall_impl; [exact Hkeys|].
  intros k [_ Hk]. simpl. by rewrite Hk.
Qed.

(** X17. An issues file that is no JSON and lists plain keys, with the
    same non-empty run of commas and line ends between any two of them and
    any such run (or nothing) after the last, is read as exactly these
    keys, in order. An exception of [readFileSync] (no such file) leaves
    the reader as it is. *)
Theorem readIssuesFromFile_plain (issuesFile sep post : string) (l : list string) :
  readFileSync issuesFile = Returns (String.concat sep l +:+ post) →
  JSON_parse (String.concat sep l +:+ post) = None →
  sep ≠ "" → all_of is_separator sep = true → all_of is_separator post = true →
  Forall plain_key l →
  readIssuesFromFile JSON_parse readFileSync issuesFile = Returns (text <$> l).
Proof.
  intros Hread Hparse Hne Hsep Hpost Hl. unfold readIssuesFromFile.
  rewrite Hread, Hparse. by rewrite split_content_concat.
Qed.

(** X18. On a text that is JSON the two readers agree on an array without
    [null]: one entry per element, a string as it is, an object's [id]
    (whatever it is, [undefined] when there is none), [undefined] for any
    other element. A [null] element makes the reading of [id] throw, and
    both then split the raw text as plain text. On JSON that is no array
    they differ: the input reader returns no issue at all, the file
    reader splits the raw text. *)
Theorem readers_on_JSON (issuesFile content : string) (parsed : json) :
  JSON_parse content = Some parsed →
  readFileSync issuesFile = Returns content →
  let input := readIssuesFromInput JSON_parse content in
  let file := readIssuesFromFile JSON_parse readFileSync issuesFile in
  (∀ l, parsed = JArray l → Forall (fun i => i ≠ JNull) l →
        input = entry_of <$> l ∧ file = Returns (entry_of <$> l)) ∧
  (∀ l, parsed = JArray l → JNull ∈ l →
        input = split_input content ∧ file = Returns (text <$> split_content content)) ∧
  ((∀ l, parsed ≠ JArray l) →
   input = [] ∧ file = Returns (text <$> split_content content)).
Proof.
  intros Hparse Hread. simpl. unfold readIssuesFromInput, readIssuesFromFile.
  rewrite Hread, Hparse. split_and!.
  - intros l -> Hl. by rewrite map_id_of_entries.
  - intros l -> Hnull. by destruct (map_id_of_null l Hnull) as [e ->].
  - intros Hno. destruct parsed; try done. by destruct (Hno l).
Qed.

End reader_facts.

(** ** Trimming *)

Lemma list_ascii_of_string_app (a b : string) :
  list_ascii_of_string (a +:+ b) = list_ascii_of_string a ++ list_ascii_of_string b.
Proof.
  induction a as [|c a IH]; [done|].
  change (c :: list_ascii_of_string (a +:+ b)
          = c :: (list_ascii_of_string a ++ list_ascii_of_string b)).
  by rewrite IH.
Qed.

Lemma all_of_Forall sep s :
  all_of sep s = true ↔ Forall (fun c => sep c = true) (list_ascii_of_string s).
Proof.
  induction s as [|c s IH]; simpl; [by split; [constructor|]|].
  rewrite andb_true_iff, Forall_cons, IH. done.
Qed.

Lemma trim_start_spaces (spaces l : list ascii) :
  Forall (fun c => StringToNumber.is_space c = true) spaces →
  trim_start (spaces ++ l) = trim_start l.
Proof. induction 1 as [|c spaces Hc _ IH]; [done|]. simpl. by rewrite Hc. Qed.

Lemma trim_end_rev_spaces (spaces l : list ascii) :
  Forall (fun c => StringToNumber.is_space c = true) spaces →
  trim_end_rev (spaces ++ l) = trim_end_rev l.
Proof. induction 1 as [|c spaces Hc _ IH]; [done|]. simpl. by rewrite Hc. Qed.

Lemma trim_padded (piece k : string) :
  padded piece k → all_of is_key_char k = true → trim piece = k.
Proof.
  intros (before & after & Hb & Ha & ->) Hk. unfold trim.
  apply all_of_Forall in Hb, Ha, Hk.
  rewrite !list_ascii_of_string_app, trim_start_spaces by done.
  rewrite <- (string_of_list_ascii_of_string k) at 2. f_equal.
  destruct (list_ascii_of_string k) as [|c l] eqn:Hl.
  - simpl. rewrite <- (app_nil_r (list_ascii_of_string after)).
    rewrite trim_start_spaces by done. done.
  - assert (is_key_char c = true) as Hc by (by apply Forall_cons in Hk as [? _]).
    change ((c :: l) ++ list_ascii_of_string after)
      with (c :: (l ++ list_ascii_of_string after)).
    rewrite trim_start_key by done.
    change (c :: (l ++ list_ascii_of_string after))
      with ((c :: l) ++ list_ascii_of_string after).
    rewrite rev_app_distr. rewrite trim_end_rev_spaces by (by apply Forall_rev).
    assert (∃ c' l', rev (c :: l) = c' :: l' ∧ is_key_char c' = true)
      as (c' & l' & Hrev & Hc').
    { destruct (rev (c :: l)) as [|c' l'] eqn:Hrev.
      - apply (f_equal (@length ascii)) in Hrev. rewrite length_rev in Hrev. done.
      - exists c', l'. split; [done|].
        apply Forall_rev in Hk. rewrite Hrev in Hk. by apply Forall_cons in Hk as [? _]. }
    rewrite Hrev, trim_end_rev_key by done. rewrite <- Hrev. apply rev_involutive.
Qed.

Lemma padded_no_comma (piece k : string) :
  padded piece k → all_of is_key_char k = true → occurrences is_comma piece = 0%nat.
Proof.
  intros (before & after & Hb & Ha & ->) Hk.
  assert (∀ (p : ascii → bool) a b,
            occurrences p (a +:+ b) = (occurrences p a + occurrences p b)%nat) as Happ.
  { intros p a b. induction a as [|c a IH]; [done|].
    change (occurrences p (String c (a +:+ b))
            = (occurrences p (String c a) + occurrences p b)%nat).
    simpl. rewrite IH. lia. }
  assert (∀ (p : ascii → bool) s, all_of p s = true →
            (∀ c, p c = true → is_comma c = false) → occurrences is_comma s = 0%nat) as Hnone.
  { intros p s Hs Hp. induction s as [|c s IH]; [done|]. simpl in *.
    apply andb_true_iff in Hs as [Hc Hs]. rewrite (Hp c Hc). auto. }
  rewrite !Happ.
  rewrite (Hnone StringToNumber.is_space before), (Hnone is_key_char k),
    (Hnone StringToNumber.is_space after); try done.
  - intros c Hc. unfold is_comma. apply Ascii.eqb_neq. intros ->. done.
  - intros c Hc. unfold is_key_char in Hc. apply andb_true_iff in Hc as [_ Hc].
    by apply negb_true_iff.
  - intros c Hc. unfold is_comma. apply Ascii.eqb_neq. intros ->. done.
Qed.

Section reader_padding.

Variable JSON_parse : string → option json.

(** X19. The input reader takes a comma-separated list with blanks around
    the keys: when every piece between the commas is a key of visible
    ASCII characters with white space or nothing before and after it, and
    the input is no JSON, the keys are what is read, in order and without
    the white space. (The file reader does not trim.) *)
Theorem readIssuesFromInput_padded (pieces keys : list string) :
  pieces ≠ [] →
  Forall2 padded pieces keys →
  Forall (fun k => all_of is_key_char k = true) keys →
  JSON_parse (join pieces) = None →
  readIssuesFromInput JSON_parse (join pieces) = text <$> keys.
Proof.
  intros Hne Hpad Hkeys Hparse. unfold readIssuesFromInput, split_input. rewrite Hparse.
  rewrite split_on_join; [|done|].
  - clear Hne Hparse. induction Hpad as [|piece k pieces keys Hp Hpad IH]; [done|].
    apply Forall_cons in Hkeys as [Hk Hkeys]. simpl.
    rewrite (trim_padded piece k) by done. f_equal. by apply IH.
  - clear Hne Hparse. induction Hpad as [|piece k pieces keys Hp Hpad IH]; [constructor|].
    apply Forall_cons in Hkeys as [Hk Hkeys]. constructor; [|by apply IH].
    by apply (padded_no_comma piece k).
Qed.

End reader_padding.

(** * Examples: the further properties at the scenarios of the test suite *)

(** The write that is answered 429 and then 204 is one round and a last
    request. *)
Lemma requestWithRetry_canonical_witness :
  0 ≤ 3 ∧
  ∃ k : nat,
    play (requestWithRetry put_ABC_4 3) retried_once =
      (rounds put_ABC_4 k 0 retried_once ++ [Requested put_ABC_4 (retried_once k)],
       handed_back (retried_once k)) ∧
    Z.of_nat k + 1 ≤ Z.max 1 3.
Proof.
  split; [lia|].
  assert (0 ≤ 3) as Hm by lia.
  destruct (requestWithRetry_canonical put_ABC_4 3 retried_once Hm) as (k & Hplay & Hk & _).
  exists k. split; [exact Hplay|exact Hk].
Defined.

Example retried_once_rounds :
  play (requestWithRetry put_ABC_4 3) retried_once =
  (rounds put_ABC_4 1 0 retried_once ++ [Requested put_ABC_4 (Resolved no_content)],
   Returns (Some no_content)).
Proof. vm_compute. reflexivity. Qed.

(** An issue that is updated: its write was answered 204. *)
Lemma updated_iff_written_witness :
  dryRun (one_issue 1) = false ∧
  ∃ (i : nat) res,
    trace_of (one_issue 1) "ABC-1" (replies [Resolved no_versions; Resolved no_content]) !! i
      = Some (Requested (PUT (one_issue 1) "ABC-1") (Resolved res)) ∧
    is_2xx (status_of res) = true.
Proof.
  split; [reflexivity|].
  pose proof (updated_iff_written sample_parse (one_issue 1) "ABC-1"
                (replies [Resolved no_versions; Resolved no_content]) eq_refl) as H.
  cbv zeta in H. destruct H as [H _]. apply H. vm_compute. reflexivity.
Defined.

(** The issue of the tests that has the version already. *)
Lemma skipped_when_present_witness :
  sample_parse (readBody has_version) = Some has_version_data ∧
  play (issueTask sample_parse skip_config "ABC-3") (replies [Resolved has_version])
    = ([Requested (GET skip_config "ABC-3") (Resolved has_version)]
         ++ [Pushed (Skipped "ABC-3")], Returns tt).
Proof.
  split; [reflexivity|].
  apply (skipped_when_present sample_parse skip_config "ABC-3" (replies [Resolved has_version])
           [Requested (GET skip_config "ABC-3") (Resolved has_version)] has_version
           has_version_data (version_refs has_version_data "fixVersions")).
  - reflexivity.
  - vm_compute. reflexivity.
  - discriminate.
  - reflexivity.
  - vm_compute. reflexivity.
  - vm_compute. constructor; [discriminate|constructor].
  - apply (some_version_sound _ "v1.2.3" false true); [vm_compute; reflexivity|reflexivity].
Defined.

(** The issue that is written to: its read showed no version. *)
Lemma write_only_when_missing_witness :
  PUT (one_issue 1) "ABC-1"
    ∈ requests (trace_of (one_issue 1) "ABC-1"
                  (replies [Resolved no_versions; Resolved no_content])) ∧
  ∃ tg getRes,
    play (requestWithRetry (GET (one_issue 1) "ABC-1") (maxRetries_of (one_issue 1)))
         (replies [Resolved no_versions; Resolved no_content])
      = (tg, Returns (Some getRes)) ∧
    ¬ Exists (refers_to (version (one_issue 1)) (versionIsId (one_issue 1)))
        (version_refs (issueData_of sample_parse (readBody getRes)) (field (one_issue 1))).
Proof.
  assert (PUT (one_issue 1) "ABC-1"
            ∈ requests (trace_of (one_issue 1) "ABC-1"
                          (replies [Resolved no_versions; Resolved no_content]))) as Hin.
  { assert (requests (trace_of (one_issue 1) "ABC-1"
                        (replies [Resolved no_versions; Resolved no_content]))
            = [GET (one_issue 1) "ABC-1"; PUT (one_issue 1) "ABC-1"]) as ->
      by (vm_compute; reflexivity).
    apply elem_of_cons. right. apply elem_of_cons. by left. }
  split; [exact Hin|].
  destruct (write_only_when_missing sample_parse (one_issue 1) "ABC-1"
              (replies [Resolved no_versions; Resolved no_content]) Hin) as [_ H].
  exact H.
Defined.

Example wire_of_three_issues :
  wire (run sample_parse three_issues [0; 1; 2; 2; 2; 1; 1; 0; 0]%nat
          (start three_issues mixed_transport))
  = [GET three_issues "ABC-7"; GET three_issues "ABC-8"; GET three_issues "ABC-9";
     PUT three_issues "ABC-9"; PUT three_issues "ABC-8"; PUT three_issues "ABC-7"].
Proof. vm_compute. reflexivity. Qed.

(** Two orders of the turns of the three issues of the tests. *)
Lemma report_up_to_order_witness :
  assignVersionToIssues sample_parse three_issues mixed_transport
    [0; 1; 2; 2; 2; 1; 1; 0; 0]%nat
  = Some (mkReport ["ABC-9"; "ABC-7"] [mkFailure "ABC-8" "HTTP 500: oops"] []) ∧
  assignVersionToIssues sample_parse three_issues mixed_transport
    [0; 0; 0; 1; 1; 1; 2; 2; 2]%nat
  = Some (mkReport ["ABC-7"; "ABC-9"] [mkFailure "ABC-8" "HTTP 500: oops"] []) ∧
  ["ABC-9"; "ABC-7"] ≡ₚ ["ABC-7"; "ABC-9"].
Proof.
  assert (assignVersionToIssues sample_parse three_issues mixed_transport
            [0; 1; 2; 2; 2; 1; 1; 0; 0]%nat
          = Some (mkReport ["ABC-9"; "ABC-7"] [mkFailure "ABC-8" "HTTP 500: oops"] []))
    as Hrun by (vm_compute; reflexivity).
  assert (assignVersionToIssues sample_parse three_issues mixed_transport
            [0; 0; 0; 1; 1; 1; 2; 2; 2]%nat
          = Some (mkReport ["ABC-7"; "ABC-9"] [mkFailure "ABC-8" "HTTP 500: oops"] []))
    as Hrun' by (vm_compute; reflexivity).
  split; [exact Hrun|]. split; [exact Hrun'|].
  destruct (report_up_to_order sample_parse three_issues mixed_transport _ _ _ _ Hrun Hrun')
    as (Hu & _).
  exact Hu.
Defined.

(** Two issues and [maxRetries = -1]: both fail, and nothing is sent. *)
Lemma negative_maxRetries_fails_all_witness :
  maxRetries_of negative_config < 0 ∧
  wire (run sample_parse negative_config [1; 0]%nat
          (start negative_config (fun _ => replies [Resolved no_versions]))) = [] ∧
  assignVersionToIssues sample_parse negative_config (fun _ => replies [Resolved no_versions])
    [1; 0]%nat
  = Some (mkReport []
            [mkFailure "ABC-2" "Cannot read properties of undefined (reading 'readBody')";
             mkFailure "ABC-1" "Cannot read properties of undefined (reading 'readBody')"]
            []).
Proof.
  assert (maxRetries_of negative_config < 0) as Hm by (vm_compute; reflexivity).
  split; [exact Hm|].
  destruct (negative_maxRetries_fails_all sample_parse negative_config
              (fun _ => replies [Resolved no_versions]) [1; 0]%nat Hm eq_refl) as (Hw & _).
  split; [exact Hw|]. vm_compute. reflexivity.
Defined.

(** The three issues of the tests, one after the other. *)
Lemma one_by_one_in_input_order_witness :
  1 ≤ concurrency_of three_issues ∧
  (turns_needed three_issues ≤ 5)%nat ∧
  assignVersionToIssues sample_parse three_issues mixed_transport (one_by_one 3 5)
  = Some (mkReport ["ABC-7"; "ABC-9"] [mkFailure "ABC-8" "HTTP 500: oops"] []).
Proof.
  assert (1 ≤ concurrency_of three_issues) as Hc by (vm_compute; discriminate).
  assert (turns_needed three_issues ≤ 5)%nat as Hn by (vm_compute; lia).
  split; [exact Hc|]. split; [exact Hn|].
  destruct (one_by_one_in_input_order sample_parse three_issues mixed_transport 5 Hc Hn)
    as [Hr _].
  change (length (issues three_issues)) with 3%nat in Hr.
  rewrite Hr. vm_compute. reflexivity.
Defined.

(** A report is there after nine turns, and not after eight. *)
Example returns_after_all_turns :
  turns_left sample_parse three_issues (Queued "ABC-7" (mixed_transport 0)) = 3%nat ∧
  is_Some (assignVersionToIssues sample_parse three_issues mixed_transport
             [0; 1; 2; 2; 2; 1; 1; 0; 0]%nat) ∧
  assignVersionToIssues sample_parse three_issues mixed_transport
    [0; 1; 2; 2; 2; 1; 1; 0]%nat = None.
Proof. split_and!; [vm_compute; reflexivity|by eexists|vm_compute; reflexivity]. Qed.

(** No issue, and turns for tasks that are not there. *)
Lemma empty_input_returns_at_once_witness :
  issues no_issues = [] ∧
  1 ≤ concurrency_of no_issues ∧
  assignVersionToIssues sample_parse no_issues (fun _ => replies []) [0; 1; 0]%nat
  = Some (mkReport [] [] []).
Proof.
  assert (1 ≤ concurrency_of no_issues) as Hc by (vm_compute; discriminate).
  split; [reflexivity|]. split; [exact Hc|].
  destruct (empty_input_returns_at_once sample_parse no_issues (fun _ => replies [])
              [0; 1; 0]%nat eq_refl Hc) as [Hr _].
  exact Hr.
Defined.

(** The write answered 500 at its only attempt. *)
Lemma failed_anatomy_witness :
  dryRun (one_issue 1) = false ∧
  pushes (trace_of (one_issue 1) "ABC-1" (replies [Resolved no_versions; Resolved server_error]))
    = [Failed (mkFailure "ABC-1" "HTTP 500: oops")] ∧
  issue_of (Failed (mkFailure "ABC-1" "HTTP 500: oops")) = "ABC-1".
Proof.
  assert (pushes (trace_of (one_issue 1) "ABC-1"
                    (replies [Resolved no_versions; Resolved server_error]))
          = [Failed (mkFailure "ABC-1" "HTTP 500: oops")]) as Hp by (vm_compute; reflexivity).
  split; [reflexivity|]. split; [exact Hp|].
  pose proof (failed_anatomy sample_parse (one_issue 1) "ABC-1"
                (replies [Resolved no_versions; Resolved server_error])
                (mkFailure "ABC-1" "HTTP 500: oops") eq_refl) as H.
  cbv zeta in H. destruct (H Hp) as [Hissue _]. exact Hissue.
Defined.

(** [Number] on some texts: white space of one byte and of more is
    trimmed, and what is no numeric literal is [NaN]. *)
Example Number_texts :
  Number "" = of_Z 0 ∧
  Number " 30 " = of_Z 30 ∧
  Number (String "194" (String "160" "30")) = of_Z 30 ∧
  Number "1.5" = Finite (3 # 2) ∧
  Number "1e3" = of_Z 1000 ∧
  Number "0x10" = of_Z 16 ∧
  Number "-Infinity" = Infinite true ∧
  Number "3 0" = NaN ∧
  Number "30s" = NaN.
Proof. split_and!; vm_compute; reflexivity. Qed.

(** The 429 of the tests: its retry-after is 0, and the retry is at once. *)
Lemma retry_after_seconds_witness :
  headers rate_limited = Some {[ "retry-after" := show 0 ]} ∧
  Z.abs (0 * 1000) ≤ 2 ^ 53 ∧
  sleeps (play (requestWithRetry put_ABC_4 3) retried_once).1 !! 0%nat = Some (of_Z (0 * 1000)).
Proof.
  split; [reflexivity|]. split; [lia|].
  apply (retry_after_seconds put_ABC_4 3 retried_once 0 rate_limited
           {[ "retry-after" := show 0 ]} 0).
  - intros j Hj. replace j with 0%nat by lia. reflexivity.
  - reflexivity.
  - lia.
  - reflexivity.
  - reflexivity.
  - lia.
Defined.

(** ** The readers *)

(** The plain-text reading of a file keeps the blank after a comma. *)
Example split_content_keeps_blanks :
  split_content ("ABC-1, ABC-2" +:+ line_feed +:+ line_feed +:+ "ABC-3")
  = ["ABC-1"; " ABC-2"; "ABC-3"].
Proof. vm_compute. reflexivity. Qed.

(** An input with blanks and an empty piece. *)
Lemma readIssuesFromInput_plain_witness :
  parse_issues "ABC-1, ABC-2,,ABC-3" = None ∧
  readIssuesFromInput parse_issues "ABC-1, ABC-2,,ABC-3"
    = [text "ABC-1"; text "ABC-2"; text ""; text "ABC-3"] ∧
  length (readIssuesFromInput parse_issues "ABC-1, ABC-2,,ABC-3") = 4%nat.
Proof.
  destruct (readIssuesFromInput_plain parse_issues "ABC-1, ABC-2,,ABC-3" (or_introl eq_refl))
    as [Hread Hlength].
  split; [reflexivity|]. split; [|exact Hlength].
  rewrite Hread. vm_compute. reflexivity.
Defined.

(** The [updated] of the mixed scenario, given out and read back. *)
Lemma outputs_read_back_witness :
  updated_issues (mkReport ["ABC-9"; "ABC-7"] [mkFailure "ABC-8" "HTTP 500: oops"] [])
    = "ABC-9,ABC-7" ∧
  parse_issues "ABC-9,ABC-7" = None ∧
  readIssuesFromInput parse_issues "ABC-9,ABC-7" = [text "ABC-9"; text "ABC-7"].
Proof.
  split; [reflexivity|]. split; [reflexivity|].
  apply (outputs_read_back parse_issues
           (mkReport ["ABC-9"; "ABC-7"] [mkFailure "ABC-8" "HTTP 500: oops"] [])).
  - discriminate.
  - apply Forall_cons. split; [split; reflexivity|].
    apply Forall_cons. split; [split; reflexivity|]. apply Forall_nil_2.
  - reflexivity.
Defined.

(** A file of two lines ending in CR LF. *)
Lemma readIssuesFromFile_plain_witness :
  sample_files "issues.txt" = Returns (String.concat crlf ["ABC-1"; "ABC-2"] +:+ crlf) ∧
  readIssuesFromFile parse_issues sample_files "issues.txt"
    = Returns [text "ABC-1"; text "ABC-2"].
Proof.
  split; [reflexivity|].
  apply (readIssuesFromFile_plain parse_issues sample_files "issues.txt" crlf crlf
           ["ABC-1"; "ABC-2"]);
    [reflexivity|reflexivity|discriminate|reflexivity|reflexivity|].
  apply Forall_cons. split; [split; [discriminate|reflexivity]|].
  apply Forall_cons. split; [split; [discriminate|reflexivity]|]. apply Forall_nil_2.
Defined.

Example missing_file :
  readIssuesFromFile parse_issues sample_files "nowhere.txt"
  = Throws (mkError "ENOENT: no such file or directory, open 'nowhere.txt'").
Proof. vm_compute. reflexivity. Qed.

(** A JSON array of a key and of an object with an [id], as input and as
    file. *)
Lemma readers_on_JSON_witness :
  parse_issues issues_json = Some issues_json_data ∧
  sample_files "issues.json" = Returns issues_json ∧
  readIssuesFromInput parse_issues issues_json = [text "ABC-1"; text "ABC-2"] ∧
  readIssuesFromFile parse_issues sample_files "issues.json"
    = Returns [text "ABC-1"; text "ABC-2"].
Proof.
  split; [reflexivity|]. split; [reflexivity|].
  pose proof (readers_on_JSON parse_issues sample_files "issues.json" issues_json
                issues_json_data eq_refl eq_refl) as H.
  cbv zeta in H. destruct H as (H & _ & _).
  destruct (H _ eq_refl) as [Hinput Hfile].
  { apply Forall_cons. split; [discriminate|].
    apply Forall_cons. split; [discriminate|]. apply Forall_nil_2. }
  split; [rewrite Hinput|rewrite Hfile]; vm_compute; reflexivity.
Defined.

(** Keys with blanks around them. *)
Lemma readIssuesFromInput_padded_witness :
  parse_issues (join [" ABC-1"; " ABC-2 "]) = None ∧
  readIssuesFromInput parse_issues " ABC-1, ABC-2 " = [text "ABC-1"; text "ABC-2"].
Proof.
  split; [reflexivity|].
  apply (readIssuesFromInput_padded parse_issues [" ABC-1"; " ABC-2 "] ["ABC-1"; "ABC-2"]).
  - discriminate.
  - apply Forall2_cons. split; [exists " ", ""; split_and!; reflexivity|].
    apply Forall2_cons. split; [exists " ", " "; split_and!; reflexivity|].
    apply Forall2_nil_2.
  - apply Forall_cons. split; [reflexivity|].
    apply Forall_cons. split; [reflexivity|]. apply Forall_nil_2.
  - reflexivity.
Defined.
